(** * ProgressService (chef-lab-client): progress computation and completion cascade

    A shallow embedding of [lib/chef-lab-client/app/services/progress.service.ts].

    Conventions of the embedding.
    - [window.dataTree.modules] is only ever indexed, so it is a [gmap];
      every other JavaScript object whose [Object.keys] order is observed
      (the progress state, its per-type mappings, [dataTree.tracks]) is a
      property list in insertion order.
    - Identifiers and timestamps are plain ASCII strings, for which the
      byte order is the code-unit order; identifiers are not integer-like
      (so that [Object.keys] is insertion order).
    - The catalog is given by the properties of its own.  A read
      [moduleData[id]] also finds the members every plain object inherits
      from [Object.prototype]: [JS.inherited] tells their names and
      [withPrototype] is the catalog with them.  The two agree on every
      other identifier ([withPrototype_own]); where a statement depends on
      what an identifier outside the catalog finds, it carries the
      hypothesis that the identifier is no such name.
    - A read by prefix builds a regular expression from the identifier as
      it is; [keyMatches] is that match for an identifier without syntax
      characters ([JS.literal]), which is a hypothesis of the statements
      about what such a read returns.
    - JavaScript numbers are rationals; the time estimates of the catalog
      are integers, and as long as their sums stay below 2^53 the
      double-precision results coincide with the exact ones.  The
      non-finite values a division can produce are kept ([JSNumber]).
    - A [while] loop or a recursive method takes a fuel argument and answers
      [OutOfFuel] when it is exhausted: the loop does not end, or the
      recursion ends in the RangeError of a full stack.  Dereferencing
      [undefined] answers [Fault] (the TypeError the engine throws).
    - [new Date().toISOString()] reads a clock [nat -> string] at the next
      tick of the service.
    - Everything an operation does before it returns is one transition of
      the service, which records what leaves it (local storage writes,
      publications, requests).  The handlers of the request for the remote
      snapshot are transitions of their own; those of a settled update
      request (republication, sign-out) are not part of the embedding. *)

From stdpp Require Import base option list gmap strings.
From Stdlib Require Import Ascii ZArith QArith Qround Lia.

Close Scope Q_scope.

(** ** JavaScript values *)

Module JS.

(** Truthiness of an optional string property: [undefined] and the empty
    string are falsy. *)
Definition truthy (v : option string) : bool :=
  match v with
  | Some s => negb (String.eqb s EmptyString)
  | None => false
  end.

(** [a > b] on optional strings: code-unit order when both are strings,
    [false] as soon as one side is [undefined] (it converts to NaN). *)
Definition gt (a b : option string) : bool :=
  match a, b with
  | Some x, Some y => String.ltb y x
  | _, _ => false
  end.

(** An object as its own properties in insertion order. *)
Definition Obj (V : Type) : Type := list (string * V).

Fixpoint get {V} (o : Obj V) (k : string) : option V :=
  match o with
  | [] => None
  | (k', v) :: o' => if String.eqb k' k then Some v else get o' k
  end.

(** [o[k] = v]: an existing property keeps its place, a new one goes last. *)
Fixpoint set {V} (o : Obj V) (k : string) (v : V) : Obj V :=
  match o with
  | [] => [(k, v)]
  | (k', v') :: o' =>
      if String.eqb k' k then (k', v) :: o' else (k', v') :: set o' k v
  end.

Definition keys {V} (o : Obj V) : list string := map fst o.

(** [o[k] || {}] *)
Definition get_or {V} (o : Obj V) (k : string) (d : V) : V :=
  default d (get o k).

(** Numbers, with the non-finite results of a division. *)
Inductive JSNumber : Type :=
| Fin (q : Q)
| PInf
| NInf
| NaN.

Definition div (a b : Q) : JSNumber :=
  if Qeq_bool b 0%Q then
    if Qeq_bool a 0%Q then NaN
    else if Qle_bool 0%Q a then PInf else NInf
  else Fin (a / b)%Q.

(** [Math.round]: the nearest integer, halves towards plus infinity. *)
Definition Math_round (x : JSNumber) : JSNumber :=
  match x with
  | Fin q => Fin (inject_Z (Qfloor (q + (1 # 2))%Q))
  | other => other
  end.

Definition Math_max (a b : JSNumber) : JSNumber :=
  match a, b with
  | NaN, _ | _, NaN => NaN
  | PInf, _ | _, PInf => PInf
  | NInf, y => y
  | x, NInf => x
  | Fin x, Fin y => if Qle_bool x y then Fin y else Fin x
  end.

Definition Math_min (a b : JSNumber) : JSNumber :=
  match a, b with
  | NaN, _ | _, NaN => NaN
  | NInf, _ | _, NInf => NInf
  | PInf, y => y
  | x, PInf => x
  | Fin x, Fin y => if Qle_bool x y then Fin x else Fin y
  end.

(** [Array.prototype.sort(comparefn)].  The comparator of this service is
    not a consistent one, and then the order is left to the engine; this is
    the insertion sort V8 ran on arrays of up to ten elements when the
    service was written, taken here for every length: each element walks
    left past every [tmp] with [comparefn(tmp, element) > 0].  The prefix
    is kept reversed. *)
Fixpoint sort_insert {A} (comparefn : A -> A -> Z) (element : A)
    (rprefix : list A) : list A :=
  match rprefix with
  | [] => [element]
  | tmp :: rest =>
      if (0 <? comparefn tmp element)%Z
      then tmp :: sort_insert comparefn element rest
      else element :: tmp :: rest
  end.

Definition Array_sort {A} (comparefn : A -> A -> Z) (a : list A) : list A :=
  rev (fold_left (fun rprefix element => sort_insert comparefn element rprefix) a []).

(** [sort()] without a comparator on an array of optional strings: the
    strings in ascending code-unit order, every [undefined] after them. *)
Definition default_compare (x y : string) : Z :=
  match String.compare x y with
  | Lt => (-1)%Z
  | Eq => 0%Z
  | Gt => 1%Z
  end.

Definition Array_sort_default (a : list (option string)) : list (option string) :=
  map Some (Array_sort default_compare (omap id a))
    ++ filter (fun v => v = None) a.

(** The members every plain object inherits from [Object.prototype].  A
    read [o[k]] under one of these names answers the inherited member (a
    function, or the prototype itself under [__proto__]) unless [o] has a
    property of its own under that name. *)
Definition prototypeNames : list string :=
  ["constructor"; "hasOwnProperty"; "isPrototypeOf"; "propertyIsEnumerable";
   "toLocaleString"; "toString"; "valueOf"; "__proto__";
   "__defineGetter__"; "__defineSetter__"; "__lookupGetter__"; "__lookupSetter__"].

Definition inherited (k : string) : bool := bool_decide (k ∈ prototypeNames).

(** The characters with a meaning of their own in the pattern of a regular
    expression. *)
Definition syntaxCharacters : list Ascii.ascii :=
  ["^"; "$"; "\"; "."; "*"; "+"; "?"; "("; ")"; "["; "]"; "{"; "}"; "|"]%char.

(** A string that [new RegExp] matches character by character. *)
Fixpoint literal (s : string) : bool :=
  match s with
  | EmptyString => true
  | String c s' => negb (bool_decide (c ∈ syntaxCharacters)) && literal s'
  end.

End JS.

(** ** Outcomes of partial code *)

Inductive Outcome (A : Type) : Type :=
| Ok (a : A)
| Fault
| OutOfFuel.
Arguments Ok {A} a.
Arguments Fault {A}.
Arguments OutOfFuel {A}.

Definition bindO {A B} (m : Outcome A) (f : A -> Outcome B) : Outcome B :=
  match m with
  | Ok a => f a
  | Fault => Fault
  | OutOfFuel => OutOfFuel
  end.

Notation "x <-! m ; k" := (bindO m (fun x => k))
  (at level 100, m at next level, right associativity).

(** ** The catalog ([window.dataTree]) *)

Record ContentNode : Type := {
  parent : option string;
  children : option (list string);
  is_fork : bool;
  minutes : option (Z * Z);
  remaining : option (Z * Z);
}.

Record TrackNode : Type := {
  modules : option (list string);
}.

Record DataTree : Type := {
  tree_modules : gmap string ContentNode;
  tree_tracks : JS.Obj TrackNode;
}.

(** What the service finds in a member inherited from [Object.prototype]:
    an object with none of the properties it reads off a node. *)
Definition prototypeMember : ContentNode :=
  {| parent := None; children := None; is_fork := false;
     minutes := None; remaining := None |}.

(** The catalog as the reads [moduleData[id]] find it: the nodes of its
    own, and the inherited member under every name of [Object.prototype]
    that it does not define itself. *)
Definition withPrototype (own : gmap string ContentNode) : gmap string ContentNode :=
  own ∪ list_to_map ((fun k => (k, prototypeMember)) <$> JS.prototypeNames).

(** [window.dataTree] as the service reads it.  The collection of tracks is
    read under an identifier only after the module tree has answered with
    nothing for it, which it never does for an inherited member. *)
Definition asRead (dataTree : DataTree) : DataTree :=
  {| tree_modules := withPrototype (tree_modules dataTree);
     tree_tracks := tree_tracks dataTree |}.

(** ** The progress state *)

Inductive LearningType : Type := achievements | tracks | modules_t | units.

(** The property name a (possibly undefined) learning type indexes with. *)
Definition propertyKey (t : option LearningType) : string :=
  match t with
  | Some achievements => "achievements"
  | Some tracks => "tracks"
  | Some modules_t => "modules"
  | Some units => "units"
  | None => "undefined"
  end.

Record Learning : Type := {
  started_at : option string;
  completed_at : option string;
  achievement_type : option string;
  earned_at : option string;
}.

(** [{}] *)
Definition emptyLearning : Learning :=
  {| started_at := None; completed_at := None;
     achievement_type := None; earned_at := None |}.

(** [Object.assign(target, source)] on records. *)
Definition assign (target source : Learning) : Learning :=
  {| started_at := from_option Some (started_at target) (started_at source);
     completed_at := from_option Some (completed_at target) (completed_at source);
     achievement_type := from_option Some (achievement_type target) (achievement_type source);
     earned_at := from_option Some (earned_at target) (earned_at source) |}.

Definition ProgressState : Type := JS.Obj (JS.Obj Learning).

(** ** Reading the catalog *)

Section Catalog.

Variable moduleData : gmap string ContentNode.

(** The loop of [getModuleRoot]; [moduleRoot] is [moduleData[pageId]]. *)
Fixpoint getModuleRoot_loop (fuel : nat) (pageId : string)
    (moduleRoot : option ContentNode) : Outcome (option string) :=
  match moduleRoot with
  | None => Fault
  | Some node =>
      if JS.truthy (parent node)
         && negb (bool_decide (parent node = Some "modules"))
      then
        match fuel with
        | O => OutOfFuel
        | S fuel' =>
            let pageId' := default EmptyString (parent node) in
            getModuleRoot_loop fuel' pageId' (moduleData !! pageId')
        end
      else Ok (Some pageId)
  end.

Definition getModuleRoot (fuel : nat) (pageId : string) : Outcome (option string) :=
  match moduleData !! pageId with
  | None => Ok None
  | Some node => getModuleRoot_loop fuel pageId (Some node)
  end.

(** [getChildPathIds]: every child, each followed by its own descendants. *)
Fixpoint getChildPathIds (fuel : nat) (pageId : string) : Outcome (list string) :=
  match fuel with
  | O => OutOfFuel
  | S fuel' =>
      match moduleData !! pageId with
      | Some {| children := Some chs |} =>
          fold_left
            (fun acc child =>
               ids <-! acc;
               sub <-! getChildPathIds fuel' child;
               Ok ((ids ++ [child]) ++ sub))
            chs (Ok [])
      | _ => Ok []
      end
  end.

(** The ancestor loop of [getActivePathIds]. *)
Fixpoint ancestors_loop (fuel : nat) (parent_ : option string)
    (ids : list string) : Outcome (list string) :=
  if JS.truthy parent_ && negb (bool_decide (parent_ = Some "modules"))
  then
    match fuel with
    | O => OutOfFuel
    | S fuel' =>
        let p := default EmptyString parent_ in
        match moduleData !! p with
        | None => Fault
        | Some node => ancestors_loop fuel' (parent node) (p :: ids)
        end
    end
  else Ok ids.

(** [(parent && !moduleData[parent].is_fork) ? parent : activeItemId] *)
Definition childRootOf (activeItemId : string) (node : ContentNode) : Outcome string :=
  if JS.truthy (parent node)
  then
    let p := default EmptyString (parent node) in
    match moduleData !! p with
    | None => Fault
    | Some pnode => Ok (if is_fork pnode then activeItemId else p)
    end
  else Ok activeItemId.

Definition getActivePathIds (fuel : nat) (activeItemId : string) : Outcome (list string) :=
  match moduleData !! activeItemId with
  | None => Ok []
  | Some node =>
      childRoot <-! childRootOf activeItemId node;
      ids <-! match moduleData !! childRoot with
              | Some cnode =>
                  if JS.truthy (parent cnode)
                  then ancestors_loop fuel (parent cnode) [childRoot]
                  else Ok [childRoot]
              | None => Ok [childRoot]
              end;
      sub <-! getChildPathIds fuel childRoot;
      Ok (ids ++ sub)
  end.

End Catalog.

(** ** Reading the progress state *)

(** [key.match(new RegExp('^' + pageId + '(\/.+)?$'))] for a [pageId] that
    the pattern takes character by character ([JS.literal]): the key is
    [pageId] itself, or [pageId], a slash and at least one character, none
    of them a line terminator. *)
Definition isLineTerminator (c : Ascii.ascii) : bool :=
  bool_decide (c = "010"%char) || bool_decide (c = "013"%char).

Fixpoint noLineTerminator (s : string) : bool :=
  match s with
  | EmptyString => true
  | String c s' => negb (isLineTerminator c) && noLineTerminator s'
  end.

Fixpoint keyMatches (pageId key : string) : bool :=
  match pageId, key with
  | EmptyString, EmptyString => true
  | EmptyString, String c rest =>
      bool_decide (c = "/"%char)
      && negb (String.eqb rest EmptyString) && noLineTerminator rest
  | String a pageId', String b key' => Ascii.eqb a b && keyMatches pageId' key'
  | String _ _, EmptyString => false
  end.

(** What [getUserProgressData] hands back: the whole state, the mapping of
    one learning type, or one record. *)
Inductive ProgressView : Type :=
| WholeState (data : ProgressState)
| TypeMap (data : JS.Obj Learning)
| OneRecord (data : Learning).

Definition getUserProgressData (value : ProgressState)
    (learningType : option LearningType) (pageId : option string)
    (wildcard : bool) : ProgressView :=
  match learningType with
  | Some _ =>
      let data := JS.get_or value (propertyKey learningType) [] in
      if JS.truthy pageId then
        let pageId' := default EmptyString pageId in
        if wildcard
        then TypeMap (List.filter (fun kv => keyMatches pageId' kv.1) data)
        else OneRecord (JS.get_or data pageId' emptyLearning)
      else TypeMap data
  | None => WholeState value
  end.

(** [view.started_at] and [view.completed_at] as conditions.  On a record it
    is the field; on a mapping it is the entry stored under that name, an
    object and so truthy when present. *)
Definition viewTruthy (field : Learning -> option string) (name : string)
    (view : ProgressView) : bool :=
  match view with
  | OneRecord r => JS.truthy (field r)
  | TypeMap m => bool_decide (is_Some (JS.get m name))
  | WholeState d => bool_decide (is_Some (JS.get d name))
  end.

Definition view_started_at : ProgressView -> bool := viewTruthy started_at "started_at".
Definition view_completed_at : ProgressView -> bool := viewTruthy completed_at "completed_at".

(** The mapping a view is iterated as by [Object.keys]. *)
Definition viewMap (view : ProgressView) : JS.Obj Learning :=
  match view with
  | TypeMap m => m
  | OneRecord _ | WholeState _ => []
  end.

(** [[r.started_at, r.completed_at].sort().reverse()[0]] *)
Definition touchDate (r : Learning) : option string :=
  mjoin (head (rev (JS.Array_sort_default [started_at r; completed_at r]))).

(** The comparator of [getLastAccessed]. *)
Definition lastAccessedCompare (data : JS.Obj Learning) (a b : string) : Z :=
  let dateA := touchDate (JS.get_or data a emptyLearning) in
  let dateB := touchDate (JS.get_or data b emptyLearning) in
  if JS.gt dateA dateB then (-1)%Z else 1%Z.

(** [getLastAccessed], for any [Array.prototype.sort]. *)
Definition getLastAccessedWith
    (sort : (string -> string -> Z) -> list string -> list string)
    (value : ProgressState) (learningType : LearningType) (pageId : string)
    : option (string * Learning) :=
  let data := viewMap (getUserProgressData value (Some learningType) (Some pageId) true) in
  let sorted := sort (lastAccessedCompare data) (JS.keys data) in
  match sorted with
  | [] => None
  | id :: _ => (fun r => (id, r)) <$> JS.get data id
  end.

Definition getLastAccessed : ProgressState -> LearningType -> string -> option (string * Learning) :=
  getLastAccessedWith JS.Array_sort.

(** ** Progress of a module *)

Section Progress.

Variable moduleData : gmap string ContentNode.
Variable value : ProgressState.

(** The loop adding the estimates of the ancestors to [baseTimeRange]. *)
Fixpoint parentTime_loop (fuel : nat) (parent_ : option string)
    (baseTimeRange : Z * Z) : Outcome (Z * Z) :=
  if JS.truthy parent_ && negb (bool_decide (parent_ = Some "modules"))
  then
    match fuel with
    | O => OutOfFuel
    | S fuel' =>
        match moduleData !! default EmptyString parent_ with
        | None => Fault
        | Some parentData =>
            parentTime_loop fuel' (parent parentData)
              match minutes parentData with
              | Some m => (baseTimeRange.1 + m.1, baseTimeRange.2 + m.2)%Z
              | None => baseTimeRange
              end
        end
    end
  else Ok baseTimeRange.

(** [range.reduce((a, b) => a + b) / range.length] on a two-element range. *)
Definition rangeAvg (range : Z * Z) : Q := (inject_Z (range.1 + range.2) / 2)%Q.

(** The time a completed item of the path adds to [userCompletedAvg]. *)
Definition completedTime (completeId : string) : Q :=
  match moduleData !! completeId with
  | Some completeItem => rangeAvg (default (0, 0)%Z (minutes completeItem))
  | None => 0%Q
  end.

(** [activePathIdsCompleted]: the completed unit records under the module
    root, in key order, that lie on the active path. *)
Definition completedInPath (moduleId : option string) (activePathIds : list string)
    : list string :=
  let userData := viewMap (getUserProgressData value (Some units) moduleId true) in
  let complete :=
    List.filter
      (fun key => JS.truthy (completed_at (JS.get_or userData key emptyLearning)))
      (JS.keys userData) in
  List.filter (fun completeId => bool_decide (completeId ∈ activePathIds)) complete.

Definition clampPercent (x : JS.JSNumber) : JS.JSNumber :=
  JS.Math_min (JS.Fin 100) (JS.Math_max (JS.Fin 0) (JS.Math_round x)).

(** The item the estimates are generated from: the last accessed one when
    [pageId] is a module root that has one, else [pageId]. *)
Definition activeItemIdOf (pageId : string) (pageData : ContentNode) : string :=
  if bool_decide (parent pageData = Some "modules")
  then match getLastAccessed value modules_t pageId with
       | Some lastAccessed => lastAccessed.1
       | None => pageId
       end
  else pageId.

Definition getModuleProgress (fuel : nat) (pageId : string) : Outcome JS.JSNumber :=
  match moduleData !! pageId with
  | None => Ok (JS.Fin 0)
  | Some pageData =>
      let activeItemId := activeItemIdOf pageId pageData in
      activePathIds <-! getActivePathIds moduleData fuel activeItemId;
      match moduleData !! activeItemId with
      | None => Ok (JS.Fin 0)
      | Some currentPageData =>
          childRoot <-! childRootOf moduleData activeItemId currentPageData;
          match moduleData !! childRoot with
          | None => Fault
          | Some rootData =>
              let baseTimeRange := default (0, 0)%Z (remaining rootData) in
              baseTimeRange <-!
                (if JS.truthy (parent rootData)
                 then parentTime_loop fuel (parent rootData) baseTimeRange
                 else Ok baseTimeRange);
              let baseTimeAvg := rangeAvg baseTimeRange in
              moduleId <-! getModuleRoot moduleData fuel pageId;
              let activePathIdsCompleted := completedInPath moduleId activePathIds in
              let userCompletedAvg :=
                fold_left (fun acc completeId => (acc + completedTime completeId)%Q)
                  activePathIdsCompleted 0%Q in
              if negb (Qeq_bool baseTimeAvg 0)
              then Ok (clampPercent (JS.div (100 * userCompletedAvg) baseTimeAvg))
              else Ok (clampPercent
                         (JS.div (100 * inject_Z (Z.of_nat (length activePathIdsCompleted)))
                                 (inject_Z (Z.of_nat (length activePathIds)))))
          end
      end
  end.

End Progress.

(** ** The service *)

(** What [localStorage.getItem('userProgressInfo')] holds. *)
Inductive StoredItem : Type :=
| Missing
| Malformed
| Snapshot (data : ProgressState).

(** What leaves the service, in order of occurrence. *)
Inductive Effect : Type :=
| SetItem (snapshot : ProgressState)
| Next (snapshot : ProgressState)
| Put (learningType pageId : string) (record : Learning)
| Get
| ConsoleLog.

Record Service : Type := {
  activeUserProgress : ProgressState;
  isAuthenticated : bool;
  wasAnonymous : bool;
  localStorage : StoredItem;
  ticks : nat;
  effects : list Effect;
}.

Definition emit (e : Effect) (s : Service) : Service :=
  {| activeUserProgress := activeUserProgress s;
     isAuthenticated := isAuthenticated s;
     wasAnonymous := wasAnonymous s;
     localStorage := localStorage s;
     ticks := ticks s;
     effects := effects s ++ [e] |}.

Definition setValue (value : ProgressState) (s : Service) : Service :=
  {| activeUserProgress := value;
     isAuthenticated := isAuthenticated s;
     wasAnonymous := wasAnonymous s;
     localStorage := localStorage s;
     ticks := ticks s;
     effects := effects s |}.

Definition setItem (value : ProgressState) (s : Service) : Service :=
  emit (SetItem value)
    {| activeUserProgress := activeUserProgress s;
       isAuthenticated := isAuthenticated s;
       wasAnonymous := wasAnonymous s;
       localStorage := Snapshot value;
       ticks := ticks s;
       effects := effects s |}.

(** [activeUserProgress.next(value)] *)
Definition next (value : ProgressState) (s : Service) : Service :=
  emit (Next value) (setValue value s).

Definition tick (s : Service) : Service :=
  {| activeUserProgress := activeUserProgress s;
     isAuthenticated := isAuthenticated s;
     wasAnonymous := wasAnonymous s;
     localStorage := localStorage s;
     ticks := S (ticks s);
     effects := effects s |}.

(** The three stages of [updateField]. *)

(** Build the full data object: the record at [(learningType, pageId)] is
    created when absent and [fieldValues] is assigned into it, in place. *)
Definition mergeLocal (learningType pageId : string) (fieldValues : Learning)
    (dataLocal : ProgressState) : ProgressState :=
  let typeData := JS.get_or dataLocal learningType [] in
  let record := JS.get_or typeData pageId emptyLearning in
  JS.set dataLocal learningType (JS.set typeData pageId (assign record fieldValues)).

(** The partial data object sent to the server. *)
Definition dataChange (learningType pageId : string) (fieldValues : Learning)
    (dataLocal : ProgressState) : Learning :=
  let record := JS.get_or (JS.get_or dataLocal learningType []) pageId emptyLearning in
  assign (assign emptyLearning record) fieldValues.

Definition updateField (learningType pageId : string) (fieldValues : Learning)
    (s : Service) : Service :=
  let change := dataChange learningType pageId fieldValues (activeUserProgress s) in
  let s1 := setValue (mergeLocal learningType pageId fieldValues (activeUserProgress s)) s in
  let s2 := setItem (activeUserProgress s1) s1 in
  if negb (isAuthenticated s2)
  then emit (Next (activeUserProgress s2)) s2
  else emit (Put learningType pageId change) s2.

(** Effectful code: the service is threaded through, and a fault leaves it
    as it was when the fault occurred. *)
Definition Action (A : Type) : Type := Service -> Service * Outcome A.

Definition ret {A} (a : A) : Action A := fun s => (s, Ok a).

Definition bindA {A B} (m : Action A) (f : A -> Action B) : Action B :=
  fun s =>
    match m s with
    | (s', Ok a) => f a s'
    | (s', Fault) => (s', Fault)
    | (s', OutOfFuel) => (s', OutOfFuel)
    end.

Definition liftO {A} (o : Outcome A) : Action A := fun s => (s, o).

Definition exec (f : Service -> Service) : Action unit := fun s => (f s, Ok tt).

Notation "x <- m ;; k" := (bindA m (fun x => k))
  (at level 100, m at next level, right associativity).
Notation "m ;;; k" := (bindA m (fun _ => k))
  (at level 100, right associativity).

(** [forEach] *)
Fixpoint forEach {A} (l : list A) (body : A -> Action unit) : Action unit :=
  match l with
  | [] => ret tt
  | x :: l' => body x ;;; forEach l' body
  end.

Section Service.

(** [window.dataTree], [window.currentPage.id] and the system clock. *)
Variable dataTree : DataTree.
Variable currentPage : string.
Variable clock : nat -> string.

Let moduleData := tree_modules dataTree.
Let trackData := tree_tracks dataTree.

(** [new Date().toISOString()] *)
Definition toISOString : Action string :=
  fun s => (tick s, Ok (clock (ticks s))).

Definition getLearningType (fuel : nat) (pageId : string) : Outcome (option LearningType) :=
  if bool_decide (pageId = "modules") || bool_decide (pageId = "tracks")
  then Ok None
  else
    moduleId <-! getModuleRoot moduleData fuel pageId;
    if bool_decide (Some pageId = moduleId) then Ok (Some modules_t)
    else if JS.truthy moduleId then Ok (Some units)
    else if bool_decide (is_Some (JS.get trackData pageId)) then Ok (Some tracks)
    else Ok None.

Definition startedNow (now : string) : Learning :=
  {| started_at := Some now; completed_at := None;
     achievement_type := None; earned_at := None |}.

Definition completedNow (now : string) : Learning :=
  {| started_at := None; completed_at := Some now;
     achievement_type := None; earned_at := None |}.

Definition earnedNow (now : string) : Learning :=
  {| started_at := None; completed_at := None;
     achievement_type := Some "standard"; earned_at := Some now |}.

Definition startPage (fuel : nat) (pageId : string) : Action unit :=
  learningType <- liftO (getLearningType fuel pageId);;
  now <- toISOString;;
  exec (updateField (propertyKey learningType) pageId (startedNow now));;;
  match learningType with
  | Some modules_t =>
      now <- toISOString;;
      exec (updateField "units" pageId (startedNow now))
  | _ => ret tt
  end.

(** [newData] of [completeModule] and [completeTracks]. *)
Definition withStarted (cond : bool) (now : Action string) (newData : Learning)
    : Action Learning :=
  if cond
  then t <- now;; ret (assign newData (startedNow t))
  else ret newData.

Definition withCompleted (cond : bool) (now : Action string) (newData : Learning)
    : Action Learning :=
  if cond
  then t <- now;; ret (assign newData (completedNow t))
  else ret newData.

(** [if (newData)]: an object, empty or not, is truthy. *)
Definition objectTruthy (newData : Learning) : bool := true.

(** [getModuleProgress] is only asked when [completed_at] is unset: the
    condition short-circuits. *)
Definition completeModule (fuel : nat) (pageId : string) : Action unit :=
  moduleId <- liftO (getModuleRoot moduleData fuel pageId);;
  fun s =>
    let currentState :=
      getUserProgressData (activeUserProgress s) (Some modules_t) moduleId false in
    (newData <- withStarted (negb (view_started_at currentState)) toISOString emptyLearning;;
     progress <- liftO (if view_completed_at currentState
                        then Ok (JS.Fin 0)
                        else getModuleProgress moduleData (activeUserProgress s) fuel pageId);;
     newData <- withCompleted
                  (negb (view_completed_at currentState)
                   && match progress with
                      | JS.Fin q => Qle_bool 100 q
                      | JS.PInf => true
                      | _ => false
                      end)
                  toISOString newData;;
     if objectTruthy newData
     then exec (updateField "modules" (default "undefined" moduleId) newData)
     else ret tt) s.

Definition trackCompleted (value : ProgressState) (moduleIds : list string) : bool :=
  let modulesComplete :=
    List.filter
      (fun moduleId =>
         view_completed_at (getUserProgressData value (Some modules_t) (Some moduleId) false))
      moduleIds in
  bool_decide (length moduleIds = length modulesComplete).

(** The body of the [forEach] of [completeTracks]. *)
Definition completeTrack (trackId : string) : Action unit :=
  match modules (JS.get_or trackData trackId {| modules := None |}) with
  | Some moduleIds =>
      fun s =>
        (if trackCompleted (activeUserProgress s) moduleIds
         then
           let currentState :=
             getUserProgressData (activeUserProgress s) (Some tracks) (Some trackId) false in
           newData <- withStarted (negb (view_started_at currentState)) toISOString emptyLearning;;
           newData <- withCompleted (negb (view_completed_at currentState)) toISOString newData;;
           if objectTruthy newData
           then exec (updateField "tracks" trackId newData)
           else ret tt
         else ret tt) s
  | None => ret tt
  end.

Definition completeTracks : Action unit :=
  forEach (JS.keys trackData) completeTrack.

(** [achievementsData[id]] while [awardAchievements] runs.  The object read
    at the start is the mapping of the state itself when the state had one
    ([aliased]), and then sees the grants made since; otherwise it is a
    fresh empty object that nothing is ever stored in. *)
Definition achievementRecorded (aliased : bool) (id : string) (s : Service) : bool :=
  aliased
  && bool_decide (is_Some (JS.get (JS.get_or (activeUserProgress s) "achievements" []) id)).

Definition completedKeys (data : JS.Obj Learning) : list string :=
  List.filter
    (fun id => JS.truthy (completed_at (JS.get_or data id emptyLearning)))
    (JS.keys data).

Definition grant (aliased : bool) (id : string) : Action unit :=
  fun s =>
    (if negb (achievementRecorded aliased id s)
     then now <- toISOString;; exec (updateField "achievements" id (earnedNow now))
     else ret tt) s.

Definition awardAchievements : Action unit :=
  fun s =>
    let modulesData := viewMap (getUserProgressData (activeUserProgress s) (Some modules_t) None false) in
    let tracksData := viewMap (getUserProgressData (activeUserProgress s) (Some tracks) None false) in
    let aliased := bool_decide (is_Some (JS.get (activeUserProgress s) "achievements")) in
    ((if (0 <? length (completedKeys modulesData))%nat
      then grant aliased "grand-opening"
      else ret tt);;;
     forEach (completedKeys tracksData) (grant aliased)) s.

Definition completePage (fuel : nat) (pageId : string) : Action unit :=
  learningType <- liftO (getLearningType fuel pageId);;
  match learningType with
  | Some units | Some modules_t =>
      now <- toISOString;;
      exec (updateField "units" pageId (completedNow now));;;
      completeModule fuel pageId;;;
      completeTracks;;;
      awardAchievements
  | _ => ret tt
  end.

(** [JSON.parse(localStorage.getItem('userProgressInfo')) || {}], with the
    [catch] for what does not parse. *)
Definition readExisting (s : Service) : ProgressState :=
  match localStorage s with
  | Snapshot data => data
  | Missing | Malformed => []
  end.

Definition clearWasAnonymous (s : Service) : Service :=
  {| activeUserProgress := activeUserProgress s;
     isAuthenticated := isAuthenticated s;
     wasAnonymous := false;
     localStorage := localStorage s;
     ticks := ticks s;
     effects := effects s |}.

(** The synchronous part of [initUserProgressData].  When the remote
    snapshot is requested it answers [Some existing]: the local snapshot
    the two handlers of the request close over. *)
Definition initUserProgressData (fuel : nat) : Action (option ProgressState) :=
  fun s =>
    let existing := readExisting s in
    let pageId := currentPage in
    (if negb (isAuthenticated s)
     then
       exec (next existing);;;
       startPage fuel pageId;;;
       ret None
     else
       (if wasAnonymous s
        then
          forEach (JS.keys existing) (fun learningType =>
            forEach (JS.keys (JS.get_or existing learningType [])) (fun id =>
              exec (updateField learningType id
                      (JS.get_or (JS.get_or existing learningType []) id emptyLearning))));;;
          exec clearWasAnonymous
        else ret tt);;;
       exec (emit Get);;;
       ret (Some existing)) s.

(** The handlers of the request for the remote snapshot. *)
Definition onProgressFetched (fuel : nat) (res : ProgressState) : Action unit :=
  exec (setItem res);;;
  exec (next res);;;
  startPage fuel currentPage.

Definition onProgressError (fuel : nat) (existing : ProgressState) : Action unit :=
  exec (emit ConsoleLog);;;
  exec (next existing);;;
  startPage fuel currentPage.

(** The subscription of [init] to the authentication state. *)
Definition onAuthenticated (fuel : nat) (next_ : bool) : Action (option ProgressState) :=
  fun s =>
    initUserProgressData fuel
      {| activeUserProgress := activeUserProgress s;
         isAuthenticated := next_;
         wasAnonymous := if negb next_ then true else wasAnonymous s;
         localStorage := localStorage s;
         ticks := ticks s;
         effects := effects s |}.

End Service.

(** ** Queries *)

(** The value of a property that was read: [undefined], a string, or an
    object; and the literal [false]. *)
Inductive PropertyValue : Type :=
| IsFalse
| IsUndefined
| IsString (s : string)
| IsObject.

Definition valueTruthy (v : PropertyValue) : bool :=
  match v with
  | IsFalse | IsUndefined => false
  | IsString s => negb (String.eqb s EmptyString)
  | IsObject => true
  end.

(** [view.completed_at] as a value. *)
Definition viewField (field : Learning -> option string) (name : string)
    (view : ProgressView) : PropertyValue :=
  match view with
  | OneRecord r =>
      match field r with
      | Some x => IsString x
      | None => IsUndefined
      end
  | TypeMap m => if JS.get m name is Some _ then IsObject else IsUndefined
  | WholeState d => if JS.get d name is Some _ then IsObject else IsUndefined
  end.

(** [isComplete]; what [getUserProgressData] answers is an object, so that
    [data && data.completed_at] is [data.completed_at]. *)
Definition isComplete (value : ProgressState) (learningType : option LearningType)
    (pageId : option string) : PropertyValue :=
  if negb (JS.truthy pageId) then IsFalse
  else viewField completed_at "completed_at"
         (getUserProgressData value learningType pageId false).

(** What [getAchievements] answers: the mapping, or one entry of it. *)
Inductive AchievementsView : Type :=
| AllAchievements (data : JS.Obj Learning)
| OneAchievement (data : option Learning).

Definition getAchievements (value : ProgressState) (id : option string) : AchievementsView :=
  let data := viewMap (getUserProgressData value (Some achievements) None false) in
  if JS.truthy id
  then OneAchievement (JS.get data (default EmptyString id))
  else AllAchievements data.

(** [filter] with a callback that can throw. *)
Fixpoint filterO {A} (f : A -> Outcome bool) (l : list A) : Outcome (list A) :=
  match l with
  | [] => Ok []
  | x :: l' =>
      keep <-! f x;
      rest <-! filterO f l';
      Ok (if keep then x :: rest else rest)
  end.

(** The callback of [getTracksByModule]:
    [tracksData[trackId].modules.some(id => id === moduleId)]. *)
Definition listsModule (tracksData : JS.Obj TrackNode) (moduleId trackId : string)
    : Outcome bool :=
  match JS.get tracksData trackId with
  | None => Fault
  | Some track =>
      match modules track with
      | None => Fault
      | Some moduleIds => Ok (bool_decide (moduleId ∈ moduleIds))
      end
  end.

(** [getTracksByModule].  A [TrackNode] holds the [modules] of a track only;
    [tracksChildren] is the [children] property of [tracksData.tracks]. *)
Definition getTracksByModule (tracksData : JS.Obj TrackNode)
    (tracksChildren : option (list string)) (moduleId : string) : Outcome (list string) :=
  match JS.get tracksData "tracks" with
  | None => Fault
  | Some _ =>
      match tracksChildren with
      | None => Fault
      | Some trackIds => filterO (listsModule tracksData moduleId) trackIds
      end
  end.

(** [children.indexOf(pageId)], and [index + 1]: 0 when it is -1. *)
Fixpoint indexOf (pageId : string) (children_ : list string) : option nat :=
  match children_ with
  | [] => None
  | child :: rest =>
      if bool_decide (child = pageId) then Some 0%nat
      else S <$> indexOf pageId rest
  end.

Definition indexPlusOne (index : option nat) : nat :=
  match index with
  | Some i => S i
  | None => 0
  end.

Definition getNextPage (moduleData : gmap string ContentNode) (pageId : string)
    : Outcome (option string) :=
  match moduleData !! pageId with
  | None => Ok None
  | Some node =>
      match children node with
      | Some children_ => Ok (children_ !! 0%nat)
      | None =>
          if JS.truthy (parent node)
          then
            let parentId := default EmptyString (parent node) in
            if bool_decide (parentId = "modules") then Ok None
            else
              match moduleData !! parentId with
              | None => Fault
              | Some parent_ =>
                  match children parent_ with
                  | None => Fault
                  | Some siblings =>
                      Ok (siblings !! indexPlusOne (indexOf pageId siblings))
                  end
              end
          else Ok None
      end
  end.

(** * Navigation bar ([source/assets/javascripts/nav.js])

    The pass that marks the link of the current page.  A [.nav-link]
    element is the [href] of its first anchor, if it has one, and whether
    it carries the class [is-active]; the elements are in document order. *)

Module Nav.

Record NavLink : Type := {
  href : option string;
  is_active : bool;
}.

(** [$(".nav-link.is-active").removeClass("is-active")] *)
Definition removeActive (links : list NavLink) : list NavLink :=
  map (fun link => {| href := href link; is_active := false |}) links.

(** [$this.addClass("is-active")], [$this] being the element at [i]. *)
Definition addActive (i : nat) (links : list NavLink) : list NavLink :=
  match links !! i with
  | Some link => <[i := {| href := href link; is_active := true |}]> links
  | None => links
  end.

(** The callback of [each], on the element at [i]. *)
Definition visit (currentUrl : string) (links : list NavLink) (i : nat) : list NavLink :=
  match links !! i with
  | Some link =>
      if bool_decide (href link = Some currentUrl)
      then addActive i (removeActive links)
      else links
  | None => links
  end.

Definition markCurrent (currentUrl : string) (links : list NavLink) : list NavLink :=
  fold_left (visit currentUrl) (seq 0 (length links)) links.

End Nav.

(** * Vocabulary of the properties *)

(** ** Records, reads and effects *)

(** A record of the state, by learning-type key and identifier. *)
Definition recordAt (value : ProgressState) (learningType pageId : string) : option Learning :=
  JS.get (JS.get_or value learningType []) pageId.

(** [target] holds every field value of [source]. *)
Definition carries (source target : Learning) : Prop :=
  (∀ x, started_at source = Some x → started_at target = Some x)
  ∧ (∀ x, completed_at source = Some x → completed_at target = Some x)
  ∧ (∀ x, achievement_type source = Some x → achievement_type target = Some x)
  ∧ (∀ x, earned_at source = Some x → earned_at target = Some x).

(** What a read of [(learningType, id)] shows of the record stored there. *)
Definition viewShows (view : ProgressView) (learningType : option LearningType)
    (id : string) (r : Learning) : Prop :=
  match view with
  | OneRecord r' => r' = r
  | TypeMap m => JS.get m id = Some r
  | WholeState d => recordAt d (propertyKey learningType) id = Some r
  end.

(** ** Achievements *)

(** The achievement [id] is in the achievements mapping of the state. *)
Definition recorded (s : Service) (id : string) : Prop :=
  is_Some (recordAt (activeUserProgress s) "achievements" id).

(** What a grant may change: achievements are only added, and the other
    mappings of the state stay as they are. *)
Definition grantsOnly (s s' : Service) : Prop :=
  (∀ id, recorded s id → recorded s' id)
  ∧ (∀ learningType, learningType ≠ "achievements" →
       JS.get (activeUserProgress s') learningType = JS.get (activeUserProgress s) learningType).

(** The mappings [awardAchievements] reads at its start. *)
Definition modulesDataOf (s : Service) : JS.Obj Learning :=
  viewMap (getUserProgressData (activeUserProgress s) (Some modules_t) None false).

Definition tracksDataOf (s : Service) : JS.Obj Learning :=
  viewMap (getUserProgressData (activeUserProgress s) (Some tracks) None false).

(** ** Reconciliation *)

(** Effects that write progress: to local storage or to the remote store. *)
Definition isWrite (e : Effect) : Prop :=
  match e with
  | SetItem _ | Put _ _ _ => True
  | Next _ | Get | ConsoleLog => False
  end.

(** The replay of the local entries of one learning type, and of all. *)
Definition replayType (existing : ProgressState) (learningType : string)
    (s : Service) : Service :=
  fold_left
    (fun s id =>
       updateField learningType id
         (JS.get_or (JS.get_or existing learningType []) id emptyLearning) s)
    (JS.keys (JS.get_or existing learningType [])) s.

Definition replay (existing : ProgressState) (s : Service) : Service :=
  fold_left (fun s learningType => replayType existing learningType s) (JS.keys existing) s.

(** [s'] is [s] after requests and local writes only, sent signed in. *)
Definition onlyWrote (s s' : Service) : Prop :=
  isAuthenticated s' = true
  ∧ wasAnonymous s' = wasAnonymous s
  ∧ ∃ written, effects s' = effects s ++ written ∧ Forall isWrite written.

(** Between [s] and [s'] a request for [(learningType, id)] was sent that
    carries the fields of [r]. *)
Definition wasPut (s s' : Service) (learningType id : string) (r : Learning) : Prop :=
  ∃ written sent,
    effects s' = effects s ++ written
    ∧ Put learningType id sent ∈ written ∧ carries r sent.

(** ** Termination *)

(** A fuelled computation terminates when some fuel lets it finish. *)
Definition terminates {A} (run : nat → Outcome A) : Prop :=
  ∃ fuel, run fuel ≠ OutOfFuel.

(** It finishes for every fuel from some point on. *)
Definition eventually (P : nat → Prop) : Prop :=
  ∃ enough, ∀ fuel, enough ≤ fuel → P fuel.

(** ** Steps through the catalog *)

Section Steps.

Variable moduleData : gmap string ContentNode.

(** The loop of [getModuleRoot] moves from [pageId] to [p]. *)
Definition ascends (pageId p : string) : Prop :=
  ∃ node, moduleData !! pageId = Some node
          ∧ parent node = Some p ∧ JS.truthy (Some p) = true ∧ p ≠ "modules".

(** [getChildPathIds] calls itself on [child] from [pageId]. *)
Definition descends (pageId child : string) : Prop :=
  ∃ node chs, moduleData !! pageId = Some node
              ∧ children node = Some chs ∧ child ∈ chs.

(** A node names [p] as its parent. *)
Definition linked (pageId p : string) : Prop :=
  ∃ node, moduleData !! pageId = Some node
          ∧ parent node = Some p ∧ JS.truthy (Some p) = true.

(** Every parent a node names is a node of the catalog. *)
Definition ParentClosed : Prop :=
  ∀ pageId node p,
    moduleData !! pageId = Some node → parent node = Some p →
    JS.truthy (Some p) = true → is_Some (moduleData !! p).

(** [parent_] is undefined, empty, or the name of a node. *)
Definition knownParent (parent_ : option string) : Prop :=
  JS.truthy parent_ = true → is_Some (moduleData !! default EmptyString parent_).

(** No node of the catalog has a time estimate. *)
Definition NoEstimates : Prop :=
  ∀ pageId node, moduleData !! pageId = Some node →
    minutes node = None ∧ remaining node = None.

End Steps.

(** The loop over the children, as in [getChildPathIds]. *)
Definition childrenFold (recurse : string → Outcome (list string))
    (chs : list string) (acc : Outcome (list string)) : Outcome (list string) :=
  fold_left
    (fun acc child =>
       ids <-! acc;
       sub <-! recurse child;
       Ok ((ids ++ [child]) ++ sub))
    chs acc.

(** ** Touch times *)

(** The touch time as the specification words it: the later of
    [started_at] and [completed_at], or the one of them that is set. *)
Definition specTouchTime (r : Learning) : option string :=
  match started_at r, completed_at r with
  | Some a, Some b => Some (if String.ltb a b then b else a)
  | Some a, None => Some a
  | None, Some b => Some b
  | None, None => None
  end.

(** Each element of the list is below, in [R], every element after it. *)
Fixpoint ascending {A} (R : A → A → Prop) (l : list A) : Prop :=
  match l with
  | [] => True
  | x :: rest => Forall (R x) rest ∧ ascending R rest
  end.

(** The touch time the comparator sees for [tmp] is not after the one it
    sees for [element]. *)
Definition notAfter (data : JS.Obj Learning) (tmp element : string) : Prop :=
  ∃ x y,
    touchDate (JS.get_or data tmp emptyLearning) = Some x
    ∧ touchDate (JS.get_or data element emptyLearning) = Some y
    ∧ String.le x y.

(** A sort that depends on its comparator through the answers only. *)
Definition comparatorOnly
    (sort : (string → string → Z) → list string → list string) : Prop :=
  ∀ comparefn comparefn' a,
    (∀ x y, comparefn x y = comparefn' x y) → sort comparefn a = sort comparefn' a.

(** [(id, r)] is a record of [data] that no record of [data] was touched
    after. *)
Definition latestTouched (data : JS.Obj Learning) (id : string) (r : Learning) : Prop :=
  JS.get data id = Some r
  ∧ ∀ id' r', JS.get data id' = Some r' →
      JS.gt (specTouchTime r') (specTouchTime r) = false.

(** ** Timestamps over time *)

(** [x] is the [started_at] or the [completed_at] of [r]. *)
Definition stamps (r : Learning) (x : string) : Prop :=
  started_at r = Some x ∨ completed_at r = Some x.

(** A timestamp that is set stays set and does not move earlier. *)
Definition keptOrLater (before after : option string) : Prop :=
  ∀ x, before = Some x → ∃ y, after = Some y ∧ String.le x y.

(** Every record stays, with timestamps kept or later. *)
Definition neverRegresses (before after : ProgressState) : Prop :=
  ∀ learningType id r,
    recordAt before learningType id = Some r →
    ∃ r', recordAt after learningType id = Some r'
          ∧ keptOrLater (started_at r) (started_at r')
          ∧ keptOrLater (completed_at r) (completed_at r').

(** The write operations of the service. *)
Inductive Operation : Type :=
| StartPage (pageId : string)
| CompletePage (pageId : string).

Section Runs.

Variable dataTree : DataTree.
Variable clock : nat → string.
Variable fuel : nat.

Definition perform (op : Operation) : Action unit :=
  match op with
  | StartPage pageId => startPage dataTree clock fuel pageId
  | CompletePage pageId => completePage dataTree clock fuel pageId
  end.

(** A sequence of operations; one that faults leaves the service as it was
    at the fault, and the next one goes on from there. *)
Fixpoint performAll (ops : list Operation) (s : Service) : Service :=
  match ops with
  | [] => s
  | op :: ops' => performAll ops' (perform op s).1
  end.

(** No timestamp of the state is ahead of the clock. *)
Definition settled (s : Service) : Prop :=
  ∀ learningType id r x,
    recordAt (activeUserProgress s) learningType id = Some r →
    stamps r x → String.le x (clock (ticks s)).

(** [fieldValues] can be merged: its timestamps are not ahead of the clock
    and not before any timestamp of the state. *)
Definition mergeable (s : Service) (fieldValues : Learning) : Prop :=
  ∀ x, stamps fieldValues x →
    String.le x (clock (ticks s))
    ∧ ∀ learningType id r y,
        recordAt (activeUserProgress s) learningType id = Some r →
        stamps r y → String.le y x.

(** [fieldValues] was stamped by clock readings taken since [s], during
    which the state did not change. *)
Definition stampedSince (s s' : Service) (fieldValues : Learning) : Prop :=
  activeUserProgress s' = activeUserProgress s
  ∧ ticks s ≤ ticks s'
  ∧ ∀ x, stamps fieldValues x → ∃ t, ticks s ≤ t < ticks s' ∧ x = clock t.

(** An action that keeps the state settled and moves no timestamp back. *)
Definition steady {A} (m : Action A) : Prop :=
  ∀ s, settled s →
    settled (m s).1
    ∧ neverRegresses (activeUserProgress s) (activeUserProgress (m s).1).

End Runs.

(** A decision procedure for [settled]. *)
Definition stampSettled (clock : nat → string) (s : Service) (stamp : option string) : bool :=
  match stamp with
  | Some x => String.leb x (clock (ticks s))
  | None => true
  end.

Definition settledb (clock : nat → string) (s : Service) : bool :=
  forallb
    (fun typeData : string * JS.Obj Learning =>
       forallb
         (fun entry : string * Learning =>
            stampSettled clock s (started_at entry.2)
            && stampSettled clock s (completed_at entry.2))
         typeData.2)
    (activeUserProgress s).

(** ** Sample data *)

Module Sample.

Definition node (parent_ : option string) (children_ : option (list string))
    (minutes_ remaining_ : option (Z * Z)) : ContentNode :=
  {| parent := parent_; children := children_; is_fork := false;
     minutes := minutes_; remaining := remaining_ |}.

(** A module of two units below the root of the module tree. *)
Definition moduleData : gmap string ContentNode :=
  list_to_map
    [("modules", node None (Some ["m"]) None None);
     ("m", node (Some "modules") (Some ["m/u1"; "m/u2"]) None (Some (10, 10)%Z));
     ("m/u1", node (Some "m") None (Some (5, 5)%Z) None);
     ("m/u2", node (Some "m") None (Some (5, 5)%Z) None)].

Definition trackData : JS.Obj TrackNode :=
  [("tracks", {| modules := None |}); ("t", {| modules := Some ["m"] |})].

Definition dataTree : DataTree :=
  {| tree_modules := moduleData; tree_tracks := trackData |}.

Definition instants : list string :=
  ["2017-06-01T10:00:00.000Z"; "2017-06-01T10:00:05.000Z";
   "2017-06-01T10:01:00.000Z"; "2017-06-01T10:02:30.000Z";
   "2017-06-01T10:02:30.250Z"; "2017-06-01T10:07:00.000Z"].

(** A clock that stops at its last instant. *)
Definition clock (n : nat) : string :=
  nth n instants "2017-06-01T10:30:00.000Z".

(** The service as constructed. *)
Definition fresh (authenticated : bool) : Service :=
  {| activeUserProgress := []; isAuthenticated := authenticated;
     wasAnonymous := false; localStorage := Missing; ticks := 0; effects := [] |}.

(** The depth of a sample node, counted from the leaves. *)
Definition depthRank (pageId : string) : nat :=
  if bool_decide (pageId = "modules") then 3
  else if bool_decide (pageId = "m") then 2 else 1.

End Sample.

Module CascadeSample.

Definition progressed (started completed : option string) : Learning :=
  {| started_at := started; completed_at := completed;
     achievement_type := None; earned_at := None |}.

Definition earned (at_ : string) : Learning :=
  {| started_at := None; completed_at := None;
     achievement_type := Some "standard"; earned_at := Some at_ |}.

Definition moduleRecord : Learning :=
  progressed (Some "2017-06-01T10:00:05.000Z") (Some "2017-06-01T10:02:30.000Z").

Definition trackRecord : Learning :=
  progressed (Some "2017-06-01T10:02:30.250Z") (Some "2017-06-01T10:07:00.000Z").

(** The state after both units of the sample module were completed: the
    module, the track and the achievements are all recorded. *)
Definition value : ProgressState :=
  [("units",
    [("m/u1", progressed None (Some "2017-06-01T10:00:00.000Z"));
     ("m/u2", progressed None (Some "2017-06-01T10:01:00.000Z"))]);
   ("modules", [("m", moduleRecord)]);
   ("tracks", [("t", trackRecord)]);
   ("achievements",
    [("grand-opening", earned "2017-06-01T10:30:00.000Z");
     ("t", earned "2017-06-01T10:30:00.000Z")])].

Definition allDone : Service :=
  {| activeUserProgress := value; isAuthenticated := true; wasAnonymous := false;
     localStorage := Snapshot value; ticks := 8; effects := [] |}.

End CascadeSample.

Module SignInSample.

(** One unit completed while anonymous. *)
Definition local : ProgressState :=
  [("units", [("p1", CascadeSample.progressed None (Some "2017-06-01T09:00:00.000Z"))])].

Definition anonymous : Service :=
  {| activeUserProgress := local; isAuthenticated := false; wasAnonymous := true;
     localStorage := Snapshot local; ticks := 0; effects := [] |}.

End SignInSample.

(** A catalog whose nodes name parents it does not hold. *)
Module Dangling.

Definition moduleData : gmap string ContentNode :=
  list_to_map
    [("m", Sample.node (Some "modules") (Some ["m/u"]) None None);
     ("m/u", Sample.node (Some "m") None None None);
     ("x/u", Sample.node (Some "x") None None None)].

Definition dataTree : DataTree :=
  {| tree_modules := moduleData; tree_tracks := [] |}.

End Dangling.

(** Two nodes that name each other as parent and as child. *)
Module Cyclic.

Definition moduleData : gmap string ContentNode :=
  list_to_map
    [("a", Sample.node (Some "b") (Some ["b"]) None None);
     ("b", Sample.node (Some "a") (Some ["a"]) None None)].

End Cyclic.

Module LastAccessedSample.

Definition startedAt (at_ : string) : Learning := CascadeSample.progressed (Some at_) None.

(** Three units started one after the other, none completed; the one in
    the middle of the mapping was started last. *)
Definition value : ProgressState :=
  [("units",
    [("m/u1", startedAt "2017-06-01T10:00:00.000Z");
     ("m/u2", startedAt "2017-06-01T10:07:00.000Z");
     ("m/u3", startedAt "2017-06-01T10:02:30.000Z")])].

(** Two units with one timestamp each, the first started last, and the
    same two with the timestamps exchanged. *)
Definition firstLater : ProgressState :=
  [("units",
    [("m/u1", startedAt "2017-06-01T10:07:00.000Z");
     ("m/u2", startedAt "2017-06-01T10:00:00.000Z")])].

Definition secondLater : ProgressState :=
  [("units",
    [("m/u1", startedAt "2017-06-01T10:00:00.000Z");
     ("m/u2", startedAt "2017-06-01T10:07:00.000Z")])].

Definition matched (value : ProgressState) : JS.Obj Learning :=
  viewMap (getUserProgressData value (Some units) (Some "m") true).

End LastAccessedSample.


(** ** Pages and tracks of the catalog *)

(** A node at which the loop of [getModuleRoot] stops: it names no parent,
    or the root of the module tree. *)
Definition topLevel (moduleData : gmap string ContentNode) (pageId : string) : Prop :=
  ∃ node, moduleData !! pageId = Some node
          ∧ (JS.truthy (parent node) = false ∨ parent node = Some "modules").

(** [key] is [pageId], or [pageId], a slash and a non-empty rest on one
    line. *)
Definition underPage (pageId key : string) : Prop :=
  key = pageId
  ∨ ∃ rest, key = pageId +:+ "/" +:+ rest
            ∧ rest ≠ EmptyString ∧ noLineTerminator rest = true.

(** The track has an entry with a list of modules. *)
Definition trackListed (tracksData : JS.Obj TrackNode) (trackId : string) : Prop :=
  ∃ track moduleIds,
    JS.get tracksData trackId = Some track ∧ modules track = Some moduleIds.

(** The track has an entry whose list of modules holds [moduleId]. *)
Definition trackHolds (tracksData : JS.Obj TrackNode) (moduleId trackId : string) : Prop :=
  ∃ track moduleIds,
    JS.get tracksData trackId = Some track ∧ modules track = Some moduleIds
    ∧ moduleId ∈ moduleIds.

(** A leaf that names a parent which does not list it. *)
Module Unlisted.

Definition moduleData : gmap string ContentNode :=
  list_to_map
    [("m", Sample.node (Some "modules") (Some ["m/a"; "m/b"]) None None);
     ("m/a", Sample.node (Some "m") None None None);
     ("m/b", Sample.node (Some "m") None None None);
     ("m/c", Sample.node (Some "m") None None None)].

End Unlisted.

(** Tracks, one of them without a list of modules. *)
Module TrackSample.

Definition tracksData : JS.Obj TrackNode :=
  [("tracks", {| modules := None |});
   ("t1", {| modules := Some ["m"; "n"] |});
   ("t2", {| modules := Some ["n"] |});
   ("t3", {| modules := Some ["m"] |})].

End TrackSample.

(** ** Navigation links *)

Module NavSample.

Definition links : list Nav.NavLink :=
  [{| Nav.href := Some "/docs"; Nav.is_active := true |};
   {| Nav.href := Some "/docs/install"; Nav.is_active := false |};
   {| Nav.href := None; Nav.is_active := false |};
   {| Nav.href := Some "/docs/install"; Nav.is_active := false |}].

End NavSample.

(** The links with the one at [i] marked and no other. *)
Definition onlyActive (i : nat) (links : list Nav.NavLink) : list Nav.NavLink :=
  Nav.addActive i (Nav.removeActive links).

(** ** Invariants of the operations *)

(** Every run of the action relates the service before to the one after. *)
Definition preserves (R : relation Service) {A} (m : Action A) : Prop :=
  ∀ s, R s (m s).1.

(** No record changed but those that [written] names. *)
Definition sameExcept (written : string → string → Prop) (s s' : Service) : Prop :=
  ∀ learningType id, ¬ written learningType id →
    recordAt (activeUserProgress s') learningType id
    = recordAt (activeUserProgress s) learningType id.

(** Local storage holds the state in memory. *)
Definition mirrored (s : Service) : Prop :=
  localStorage s = Snapshot (activeUserProgress s).

(** Since [s], local storage was brought in line with the state, or
    neither of them changed. *)
Definition mirroredSince (s s' : Service) : Prop :=
  mirrored s'
  ∨ (activeUserProgress s' = activeUserProgress s ∧ localStorage s' = localStorage s).

(** Effects that stay on the client. *)
Definition isLocal (e : Effect) : Prop :=
  match e with
  | Put _ _ _ | Get => False
  | SetItem _ | Next _ | ConsoleLog => True
  end.

(** A service that is not signed in stays so and sends nothing. *)
Definition staysLocal (s s' : Service) : Prop :=
  isAuthenticated s = false →
  isAuthenticated s' = false
  ∧ ∃ sent, effects s' = effects s ++ sent ∧ Forall isLocal sent.

(** The flags of the session are as they were. *)
Definition sameSession (s s' : Service) : Prop :=
  isAuthenticated s' = isAuthenticated s ∧ wasAnonymous s' = wasAnonymous s.

(** Every record stays, with every field that was set still set. *)
Definition nothingLost (s s' : Service) : Prop :=
  ∀ learningType id r,
    recordAt (activeUserProgress s) learningType id = Some r →
    ∃ r', recordAt (activeUserProgress s') learningType id = Some r'
          ∧ (is_Some (started_at r) → is_Some (started_at r'))
          ∧ (is_Some (completed_at r) → is_Some (completed_at r'))
          ∧ (is_Some (achievement_type r) → is_Some (achievement_type r'))
          ∧ (is_Some (earned_at r) → is_Some (earned_at r')).

(** Every achievement stays as it was recorded. *)
Definition achievementsKept (s s' : Service) : Prop :=
  ∀ id r,
    recordAt (activeUserProgress s) "achievements" id = Some r →
    recordAt (activeUserProgress s') "achievements" id = Some r.

(** The track is recorded as started and completed. *)
Definition trackDone (value : ProgressState) (trackId : string) : Prop :=
  ∃ r, recordAt value "tracks" trackId = Some r
       ∧ JS.truthy (started_at r) = true ∧ JS.truthy (completed_at r) = true.

(** The module counts as completed for [completeTracks]. *)
Definition moduleCompleted (value : ProgressState) (moduleId : string) : Prop :=
  view_completed_at (getUserProgressData value (Some modules_t) (Some moduleId) false) = true.

(** [progress >= 100] *)
Definition atLeast100 (progress : JS.JSNumber) : bool :=
  match progress with
  | JS.Fin q => Qle_bool 100 q
  | JS.PInf => true
  | _ => false
  end.

(** The first step of [completePage] on a unit or a module page, and the
    steps after it. *)
Definition unitCompleted (clock : nat → string) (pageId : string) (s : Service) : Service :=
  updateField "units" pageId (completedNow (clock (ticks s))) (tick s).

Definition cascade (dataTree : DataTree) (clock : nat → string) (fuel : nat)
    (pageId : string) : Action unit :=
  completeModule dataTree clock fuel pageId;;;
  completeTracks dataTree clock;;;
  awardAchievements clock.

(** The page is one that [completePage] completes. *)
Definition completable (dataTree : DataTree) (fuel : nat) (pageId : string) : Prop :=
  getLearningType dataTree fuel pageId = Ok (Some units)
  ∨ getLearningType dataTree fuel pageId = Ok (Some modules_t).

(** The first unit of the sample module is completed and the module is
    started: completing the second unit completes the module, its track,
    and grants the achievements. *)
Module HalfDone.

Definition value : ProgressState :=
  [("units", [("m/u1", CascadeSample.progressed None (Some "2017-06-01T10:00:00.000Z"))]);
   ("modules", [("m", CascadeSample.progressed (Some "2017-06-01T10:00:05.000Z") None)])].

Definition service : Service :=
  {| activeUserProgress := value; isAuthenticated := true; wasAnonymous := false;
     localStorage := Snapshot value; ticks := 2; effects := [] |}.

End HalfDone.

(** What a signed-in service sends: every snapshot written to local
    storage is followed by the request for the record that was written. *)
Inductive writesSent : list Effect → Prop :=
| writesSent_nil : writesSent []
| writesSent_write snapshot learningType id r rest :
    recordAt snapshot learningType id = Some r →
    writesSent rest →
    writesSent (SetItem snapshot :: Put learningType id r :: rest).

(** A service that is signed in stays so, and sends what it writes. *)
Definition staysSignedIn (s s' : Service) : Prop :=
  isAuthenticated s = true →
  isAuthenticated s' = true
  ∧ ∃ sent, effects s' = effects s ++ sent ∧ writesSent sent.

(** ** Identifiers that are read as they are written *)

(** A read by prefix for an identifier of the catalog matches it character
    by character. *)
Definition LiteralIds (moduleData : gmap string ContentNode) : Prop :=
  ∀ id, is_Some (moduleData !! id) → JS.literal id = true.

(** A parent that a node names is a node of the catalog, or at least no
    member of [Object.prototype]: the read of a parent finds what the
    catalog holds. *)
Definition OwnParents (moduleData : gmap string ContentNode) : Prop :=
  ∀ id node p,
    moduleData !! id = Some node → parent node = Some p →
    is_Some (moduleData !! p) ∨ JS.inherited p = false.

(** The time estimates are integers that a double holds exactly, none of
    them negative: their sums are then zero in the code exactly when they
    are zero here, and never overflow. *)
Definition ExactEstimates (moduleData : gmap string ContentNode) : Prop :=
  ∀ id node range,
    moduleData !! id = Some node →
    minutes node = Some range ∨ remaining node = Some range →
    (0 ≤ range.1 < 2 ^ 53)%Z ∧ (0 ≤ range.2 < 2 ^ 53)%Z.

(** The sample catalog as the reads of the service find it. *)
Module Inherited.

Definition dataTree : DataTree := asRead Sample.dataTree.

End Inherited.

(** ** The count of completed units *)

(** The unit record under [key] counts for the module [moduleId] on the
    path: it is completed, its key is the identifier of the module or
    continues it after a slash, and it is on the path. *)
Definition completedOnPath (value : ProgressState) (moduleId : string)
    (activePathIds : list string) (key : string) : Prop :=
  (∃ r, recordAt value "units" key = Some r ∧ JS.truthy (completed_at r) = true)
  ∧ underPage moduleId key
  ∧ key ∈ activePathIds.

(** [counted] holds every such key, once. *)
Definition countsCompleted (value : ProgressState) (moduleId : string)
    (activePathIds counted : list string) : Prop :=
  NoDup counted
  ∧ ∀ key, key ∈ counted ↔ completedOnPath value moduleId activePathIds key.

(** [baseTimeRange] as [getModuleProgress] has it before the average is
    taken: the remaining time of [childRoot], whose node is [rootData],
    and the minutes of its ancestors. *)
Definition baseTimeRangeOf (moduleData : gmap string ContentNode) (fuel : nat)
    (rootData : ContentNode) : Outcome (Z * Z) :=
  if JS.truthy (parent rootData)
  then parentTime_loop moduleData fuel (parent rootData)
         (default (0, 0)%Z (remaining rootData))
  else Ok (default (0, 0)%Z (remaining rootData)).

(** [baseTimeRange] is what [getModuleProgress] arrives at for the item
    [activeItemId] of the catalog. *)
Definition baseTimeOf (moduleData : gmap string ContentNode) (fuel : nat)
    (activeItemId : string) (baseTimeRange : Z * Z) : Prop :=
  ∃ node childRoot rootData,
    moduleData !! activeItemId = Some node
    ∧ childRootOf moduleData activeItemId node = Ok childRoot
    ∧ moduleData !! childRoot = Some rootData
    ∧ baseTimeRangeOf moduleData fuel rootData = Ok baseTimeRange.

(** * Properties *)

(** ** Property lists *)

Section ObjFacts.

Context {V : Type}.
Implicit Types (o : JS.Obj V) (k : string) (v : V).

Lemma get_set o k k' v :
  JS.get (JS.set o k v) k' = if bool_decide (k = k') then Some v else JS.get o k'.
Proof.
  induction o as [|[k0 v0] o IH]; simpl.
  - destruct (String.eqb_spec k k'); case_bool_decide; congruence.
  - destruct (String.eqb_spec k0 k) as [->|Hne]; simpl.
    + destruct (String.eqb_spec k k'); case_bool_decide; congruence.
    + destruct (String.eqb_spec k0 k'); [|exact IH].
      case_bool_decide; congruence.
Qed.

Lemma get_set_eq o k v : JS.get (JS.set o k v) k = Some v.
Proof. rewrite get_set. by rewrite bool_decide_eq_true_2. Qed.

Lemma get_set_ne o k k' v : k ≠ k' → JS.get (JS.set o k v) k' = JS.get o k'.
Proof. intros. rewrite get_set. by rewrite bool_decide_eq_false_2. Qed.

Lemma get_Some_keys o k v : JS.get o k = Some v → k ∈ JS.keys o.
Proof.
  induction o as [|[k0 v0] o IH]; simpl; [done|].
  destruct (String.eqb_spec k0 k) as [->|Hne]; intros.
  - apply list_elem_of_here.
  - apply list_elem_of_further. auto.
Qed.

Lemma keys_get_Some o k : k ∈ JS.keys o → is_Some (JS.get o k).
Proof.
  induction o as [|[k0 v0] o IH]; simpl.
  - intros H. by apply not_elem_of_nil in H.
  - intros H. destruct (String.eqb_spec k0 k) as [->|Hne]; [by eexists|].
    apply IH. apply elem_of_cons in H as [->|]; [done|assumption].
Qed.

Lemma set_get_id o k v : JS.get o k = Some v → JS.set o k v = o.
Proof.
  induction o as [|[k0 v0] o IH]; simpl; [done|].
  destruct (String.eqb_spec k0 k) as [->|Hne].
  - by intros [= ->].
  - intros. by rewrite IH.
Qed.

End ObjFacts.

Lemma assign_empty_r (r : Learning) : assign r emptyLearning = r.
Proof. by destruct r. Qed.

Lemma assign_empty_l (r : Learning) : assign emptyLearning r = r.
Proof. destruct r as [[] [] [] []]; reflexivity. Qed.

Lemma recordAt_mergeLocal value lt id fv lt' id' :
  recordAt (mergeLocal lt id fv value) lt' id' =
    if bool_decide (lt = lt' ∧ id = id')
    then Some (assign (default emptyLearning (recordAt value lt id)) fv)
    else recordAt value lt' id'.
Proof.
  unfold recordAt, mergeLocal, JS.get_or.
  rewrite get_set. destruct (decide (lt = lt')) as [<-|Hlt].
  - rewrite bool_decide_eq_true_2; [simpl|done].
    rewrite get_set. destruct (decide (id = id')) as [<-|Hid].
    + rewrite !bool_decide_eq_true_2; done.
    + rewrite (bool_decide_eq_false_2 (id = id')); [|done].
      rewrite bool_decide_eq_false_2; [done|by intros [??]].
  - rewrite (bool_decide_eq_false_2 (lt = lt')); [|done].
    rewrite bool_decide_eq_false_2; [done|by intros [??]].
Qed.

Lemma get_mergeLocal_ne value lt id fv lt' :
  lt ≠ lt' → JS.get (mergeLocal lt id fv value) lt' = JS.get value lt'.
Proof. intros. unfold mergeLocal. by rewrite get_set_ne. Qed.

Lemma get_mergeLocal_eq value lt id fv :
  JS.get (mergeLocal lt id fv value) lt =
    Some (JS.set (JS.get_or value lt []) id
            (assign (default emptyLearning (recordAt value lt id)) fv)).
Proof. unfold mergeLocal. by rewrite get_set_eq. Qed.

(** Merging no field into a record that exists changes nothing. *)
Lemma mergeLocal_empty_id value lt id r :
  recordAt value lt id = Some r → mergeLocal lt id emptyLearning value = value.
Proof.
  unfold recordAt, mergeLocal, JS.get_or. intros Hr.
  destruct (JS.get value lt) as [m|] eqn:Hm; simpl in *; [|done].
  rewrite Hr. simpl. rewrite assign_empty_r.
  rewrite (set_get_id m id r Hr). by apply set_get_id.
Qed.

(** ** [updateField] *)

Lemma updateField_value lt id fv s :
  activeUserProgress (updateField lt id fv s) = mergeLocal lt id fv (activeUserProgress s).
Proof. unfold updateField. simpl. by destruct (isAuthenticated s). Qed.

Lemma updateField_effects lt id fv s :
  effects (updateField lt id fv s) =
    effects s
    ++ [SetItem (mergeLocal lt id fv (activeUserProgress s));
        if isAuthenticated s
        then Put lt id (dataChange lt id fv (activeUserProgress s))
        else Next (mergeLocal lt id fv (activeUserProgress s))].
Proof.
  unfold updateField. simpl. destruct (isAuthenticated s); simpl; by rewrite <- app_assoc.
Qed.

Lemma updateField_localStorage lt id fv s :
  localStorage (updateField lt id fv s) = Snapshot (mergeLocal lt id fv (activeUserProgress s)).
Proof. unfold updateField. simpl. by destruct (isAuthenticated s). Qed.

Lemma updateField_flags lt id fv s :
  isAuthenticated (updateField lt id fv s) = isAuthenticated s
  ∧ wasAnonymous (updateField lt id fv s) = wasAnonymous s
  ∧ ticks (updateField lt id fv s) = ticks s.
Proof. unfold updateField. simpl. destruct (isAuthenticated s) eqn:E; simpl; auto. Qed.

Lemma dataChange_assign lt id fv value :
  dataChange lt id fv value = assign (default emptyLearning (recordAt value lt id)) fv.
Proof. unfold dataChange, recordAt, JS.get_or. by rewrite assign_empty_l. Qed.

Lemma carries_assign (r fv : Learning) : carries fv (assign r fv).
Proof. unfold carries, assign. simpl. repeat split; by intros x ->. Qed.

Lemma getUserProgressData_shows value learningType id r :
  recordAt value (propertyKey learningType) id = Some r →
  viewShows (getUserProgressData value learningType (Some id) false) learningType id r.
Proof.
  intros Hr. unfold getUserProgressData.
  destruct learningType as [t|]; [|exact Hr].
  destruct (JS.truthy (Some id)); cbn [viewShows default].
  - unfold JS.get_or at 1. unfold recordAt in Hr.
    change (Datatypes.id id) with id. by rewrite Hr.
  - exact Hr.
Qed.

(** C8: an [update(learningType, id, fieldValues)] call first merges the
    field values into the in-memory state, then persists that state, and
    only then dispatches the remote request (or, anonymous, publishes).  So
    the record of the state carries the new field values, a read of
    [(learningType, id)] right after the call shows it, and in the
    authenticated case this holds although nothing was published. *)
Theorem updateField_read_your_write (learningType : option LearningType)
    (id : string) (fieldValues : Learning) (s : Service) :
  let key := propertyKey learningType in
  let s' := updateField key id fieldValues s in
  let merged :=
    assign (default emptyLearning (recordAt (activeUserProgress s) key id)) fieldValues in
  let value' := mergeLocal key id fieldValues (activeUserProgress s) in
  s' = emit (if isAuthenticated s then Put key id merged else Next value')
         (setItem value' (setValue value' s))
  ∧ activeUserProgress s' = value'
  ∧ recordAt value' key id = Some merged
  ∧ carries fieldValues merged
  ∧ viewShows (getUserProgressData (activeUserProgress s') learningType (Some id) false)
      learningType id merged
  ∧ effects s' =
      effects s ++ [SetItem value'; if isAuthenticated s then Put key id merged else Next value'].
Proof.
  intros key s' merged value'.
  assert (Hrec : recordAt value' key id = Some merged).
  { unfold value'. rewrite recordAt_mergeLocal. by rewrite bool_decide_eq_true_2. }
  assert (Hval : activeUserProgress s' = value') by apply updateField_value.
  split_and!.
  - unfold s', updateField. simpl. rewrite dataChange_assign.
    by destruct (isAuthenticated s).
  - exact Hval.
  - exact Hrec.
  - apply carries_assign.
  - rewrite Hval. by apply getUserProgressData_shows.
  - unfold s'. rewrite updateField_effects, dataChange_assign. done.
Qed.

(** ** Pages that are not pages *)

(** What a read of the catalog finds under an identifier: the catalog's
    own node or nothing when the identifier is no member of
    [Object.prototype], and the inherited member when it is one that the
    catalog does not define. *)
Lemma withPrototype_own (own : gmap string ContentNode) (id : string) :
  JS.inherited id = false → withPrototype own !! id = own !! id.
Proof.
  intros Hown%bool_decide_eq_false. unfold withPrototype.
  apply lookup_union_l, not_elem_of_list_to_map_1.
  by rewrite <- list_fmap_compose, list_fmap_id.
Qed.

Lemma withPrototype_inherited (own : gmap string ContentNode) (id : string) :
  JS.inherited id = true → own !! id = None →
  withPrototype own !! id = Some prototypeMember.
Proof.
  intros Hin%bool_decide_eq_true Hnone. unfold withPrototype.
  rewrite lookup_union_r by done.
  apply elem_of_list_to_map_1.
  - rewrite <- list_fmap_compose, list_fmap_id.
    apply (bool_decide_unpack (NoDup JS.prototypeNames)). vm_compute. exact I.
  - apply list_elem_of_fmap. by exists id.
Qed.

Lemma withPrototype_node (own : gmap string ContentNode) (id : string) (node : ContentNode) :
  own !! id = Some node → withPrototype own !! id = Some node.
Proof. intros Hnode. unfold withPrototype. by apply lookup_union_Some_l. Qed.

Lemma withPrototype_parent (own : gmap string ContentNode) id node p :
  OwnParents own → own !! id = Some node → parent node = Some p →
  withPrototype own !! p = own !! p.
Proof.
  intros Hown Hnode Hp. destruct (Hown id node p Hnode Hp) as [[pnode Hpnode]|Hno].
  - rewrite Hpnode. by apply withPrototype_node.
  - by apply withPrototype_own.
Qed.

Lemma getModuleRoot_loop_withPrototype (own : gmap string ContentNode) fuel pageId node :
  OwnParents own → own !! pageId = Some node →
  getModuleRoot_loop (withPrototype own) fuel pageId (Some node)
  = getModuleRoot_loop own fuel pageId (Some node).
Proof.
  intros Hown. revert pageId node.
  induction fuel as [|fuel IH]; intros pageId node Hnode; simpl; [done|].
  destruct (JS.truthy (parent node) && _) eqn:Hcond; [|done].
  destruct (parent node) as [p|] eqn:Hp; [|done]. simpl.
  rewrite (withPrototype_parent own pageId node p Hown Hnode Hp).
  destruct (own !! p) as [pnode|] eqn:Hpnode; [by apply IH|].
  by destruct fuel.
Qed.

(** For an identifier that is no member of [Object.prototype], in a catalog
    whose nodes name no such member as a parent unless it is a node, the
    module root and the classification are the same whether the catalog is
    taken with the inherited members or without. *)
Lemma getModuleRoot_withPrototype (own : gmap string ContentNode) fuel pageId :
  JS.inherited pageId = false → OwnParents own →
  getModuleRoot (withPrototype own) fuel pageId = getModuleRoot own fuel pageId.
Proof.
  intros Hid Hown. unfold getModuleRoot. rewrite (withPrototype_own own pageId Hid).
  destruct (own !! pageId) as [node|] eqn:Hnode; [|done].
  by apply getModuleRoot_loop_withPrototype.
Qed.

Lemma getLearningType_asRead (dataTree : DataTree) fuel pageId :
  JS.inherited pageId = false → OwnParents (tree_modules dataTree) →
  getLearningType (asRead dataTree) fuel pageId = getLearningType dataTree fuel pageId.
Proof.
  intros Hid Hown. unfold getLearningType, asRead. simpl.
  by rewrite (getModuleRoot_withPrototype _ fuel pageId Hid Hown).
Qed.

Section StartPage.

Variable dataTree : DataTree.
Variable clock : nat -> string.

Lemma getLearningType_containers fuel :
  getLearningType dataTree fuel "modules" = Ok None
  ∧ getLearningType dataTree fuel "tracks" = Ok None.
Proof. split; reflexivity. Qed.

Lemma getModuleRoot_unknown fuel pageId :
  tree_modules dataTree !! pageId = None →
  getModuleRoot (tree_modules dataTree) fuel pageId = Ok None.
Proof. intros H. unfold getModuleRoot. by rewrite H. Qed.

Lemma getLearningType_unknown fuel pageId :
  tree_modules dataTree !! pageId = None →
  JS.get (tree_tracks dataTree) pageId = None →
  getLearningType dataTree fuel pageId = Ok None.
Proof.
  intros Hm Ht. unfold getLearningType.
  destruct (_ || _); [done|].
  rewrite getModuleRoot_unknown by done. simpl.
  rewrite Ht. rewrite bool_decide_eq_false_2; [done|].
  by intros [? ?].
Qed.

Lemma startPage_none fuel pageId s :
  getLearningType dataTree fuel pageId = Ok None →
  startPage dataTree clock fuel pageId s =
    (updateField "undefined" pageId (startedNow (clock (ticks s))) (tick s), Ok tt).
Proof. intros H. unfold startPage, bindA, liftO. rewrite H. reflexivity. Qed.

(** C9, as the code has it, for an identifier that is no member of
    [Object.prototype]: the identifiers [modules] and [tracks], and every
    identifier unknown to both the module tree and the track collection,
    classify as none; and for every identifier that classifies as none
    [startPage] still writes: it creates a record carrying [started_at]
    under the [undefined] key of the state and persists the state holding
    it. *)
Theorem startPage_unclassified_creates_record fuel pageId s :
  JS.inherited pageId = false →
  (pageId = "modules" ∨ pageId = "tracks"
   ∨ (tree_modules dataTree !! pageId = None ∧ JS.get (tree_tracks dataTree) pageId = None)
   ∨ getLearningType dataTree fuel pageId = Ok None) →
  getLearningType dataTree fuel pageId = Ok None
  ∧ ∃ s' r,
      startPage dataTree clock fuel pageId s = (s', Ok tt)
      ∧ recordAt (activeUserProgress s') "undefined" pageId = Some r
      ∧ started_at r = Some (clock (ticks s))
      ∧ localStorage s' = Snapshot (activeUserProgress s')
      ∧ effects s' =
          effects s
          ++ [SetItem (activeUserProgress s');
              if isAuthenticated s then Put "undefined" pageId r
              else Next (activeUserProgress s')].
Proof.
  intros _ H.
  assert (Hnone : getLearningType dataTree fuel pageId = Ok None).
  { destruct H as [->|[->|[[Hm Ht]|H]]]; [reflexivity|reflexivity| |exact H].
    by apply getLearningType_unknown. }
  split; [exact Hnone|].
  eexists _, _. split; [by apply startPage_none|].
  rewrite updateField_value, updateField_localStorage, updateField_effects.
  rewrite recordAt_mergeLocal, bool_decide_eq_true_2 by done.
  rewrite dataChange_assign. simpl. split_and!; reflexivity.
Qed.

End StartPage.

(** C9, counterexample to the claim as written: [constructor] is unknown
    to the module tree and to the track collection of the sample catalog,
    but the read of the module tree finds the member which every object
    inherits under that name, so the identifier is classified as a module
    and [startPage] leaves no record under the [undefined] key. *)
Lemma inherited_name_is_classified :
  Sample.moduleData !! "constructor" = None
  ∧ JS.get Sample.trackData "constructor" = None
  ∧ getLearningType Inherited.dataTree 4 "constructor" = Ok (Some modules_t)
  ∧ recordAt
      (activeUserProgress
         (startPage Inherited.dataTree Sample.clock 4 "constructor" (Sample.fresh true)).1)
      "undefined" "constructor" = None.
Proof. vm_compute. done. Qed.

(** The catalog knows neither [m/unknown] nor a track of that name. *)
Lemma startPage_unclassified_creates_record_witness :
  getLearningType Sample.dataTree 4 "m/unknown" = Ok None
  ∧ ∃ s' r,
      startPage Sample.dataTree Sample.clock 4 "m/unknown" (Sample.fresh true) = (s', Ok tt)
      ∧ recordAt (activeUserProgress s') "undefined" "m/unknown" = Some r
      ∧ started_at r = Some "2017-06-01T10:00:00.000Z"
      ∧ localStorage s' = Snapshot (activeUserProgress s')
      ∧ effects s' =
          [SetItem (activeUserProgress s'); Put "undefined" "m/unknown" r].
Proof.
  apply (startPage_unclassified_creates_record Sample.dataTree Sample.clock 4
           "m/unknown" (Sample.fresh true)).
  - reflexivity.
  - right. right. left. split; vm_compute; reflexivity.
Defined.

(** ** Cascade steps without a qualifying change *)

Section Cascade.

Variable dataTree : DataTree.
Variable clock : nat -> string.

Lemma completeModule_nothing_new fuel pageId moduleId s :
  let currentState :=
    getUserProgressData (activeUserProgress s) (Some modules_t) moduleId false in
  getModuleRoot (tree_modules dataTree) fuel pageId = Ok moduleId →
  view_started_at currentState = true →
  (view_completed_at currentState = true
   ∨ ∃ q, getModuleProgress (tree_modules dataTree) (activeUserProgress s) fuel pageId
            = Ok (JS.Fin q)
          ∧ Qle_bool 100 q = false) →
  completeModule dataTree clock fuel pageId s =
    (updateField "modules" (default "undefined" moduleId) emptyLearning s, Ok tt).
Proof.
  intros currentState Hroot Hstarted Hdone.
  unfold completeModule, bindA at 1, liftO at 1. rewrite Hroot.
  fold currentState. rewrite Hstarted. simpl.
  unfold bindA, liftO, ret. simpl.
  destruct (view_completed_at currentState) eqn:Hc; simpl; [reflexivity|].
  destruct Hdone as [|(q & -> & Hq)]; [done|].
  simpl. rewrite Hq. reflexivity.
Qed.

Lemma completeTrack_nothing_new trackId moduleIds s :
  let currentState :=
    getUserProgressData (activeUserProgress s) (Some tracks) (Some trackId) false in
  modules (JS.get_or (tree_tracks dataTree) trackId {| modules := None |}) = Some moduleIds →
  trackCompleted (activeUserProgress s) moduleIds = true →
  view_started_at currentState = true →
  view_completed_at currentState = true →
  completeTrack dataTree clock trackId s =
    (updateField "tracks" trackId emptyLearning s, Ok tt).
Proof.
  intros currentState Hmods Hall Hstarted Hdone.
  unfold completeTrack. rewrite Hmods, Hall. fold currentState.
  rewrite Hstarted, Hdone. reflexivity.
Qed.

(** C1, as the code has it: a cascade step that finds no qualifying change
    is not a no-op.  [completeModule] on a module already started, and
    completed or below 100, and the step of [completeTracks] on a track
    already started and completed, both call [updateField] with no field:
    the state is persisted again and, authenticated, a request is sent.
    The records themselves keep their content. *)
Theorem cascade_without_change_still_writes fuel pageId moduleId trackId moduleIds s :
  let moduleState :=
    getUserProgressData (activeUserProgress s) (Some modules_t) moduleId false in
  let trackState :=
    getUserProgressData (activeUserProgress s) (Some tracks) (Some trackId) false in
  let rewritten learningType id :=
    effects s
    ++ [SetItem (mergeLocal learningType id emptyLearning (activeUserProgress s));
        if isAuthenticated s
        then Put learningType id
               (default emptyLearning (recordAt (activeUserProgress s) learningType id))
        else Next (mergeLocal learningType id emptyLearning (activeUserProgress s))] in
  (getModuleRoot (tree_modules dataTree) fuel pageId = Ok moduleId →
   view_started_at moduleState = true →
   (view_completed_at moduleState = true
    ∨ ∃ q, getModuleProgress (tree_modules dataTree) (activeUserProgress s) fuel pageId
             = Ok (JS.Fin q)
           ∧ Qle_bool 100 q = false) →
   ∃ s', completeModule dataTree clock fuel pageId s = (s', Ok tt)
         ∧ effects s' = rewritten "modules" (default "undefined" moduleId)
         ∧ (is_Some (recordAt (activeUserProgress s) "modules"
                       (default "undefined" moduleId)) →
            activeUserProgress s' = activeUserProgress s))
  ∧ (modules (JS.get_or (tree_tracks dataTree) trackId {| modules := None |}) = Some moduleIds →
     trackCompleted (activeUserProgress s) moduleIds = true →
     view_started_at trackState = true →
     view_completed_at trackState = true →
     ∃ s', completeTrack dataTree clock trackId s = (s', Ok tt)
           ∧ effects s' = rewritten "tracks" trackId
           ∧ (is_Some (recordAt (activeUserProgress s) "tracks" trackId) →
              activeUserProgress s' = activeUserProgress s)).
Proof.
  intros moduleState trackState rewritten. split.
  - intros Hroot Hstarted Hdone. eexists. split_and!.
    + by apply completeModule_nothing_new.
    + rewrite updateField_effects, dataChange_assign, assign_empty_r. reflexivity.
    + intros [r Hr]. rewrite updateField_value. by eapply mergeLocal_empty_id.
  - intros Hmods Hall Hstarted Hdone. eexists. split_and!.
    + by eapply completeTrack_nothing_new.
    + rewrite updateField_effects, dataChange_assign, assign_empty_r. reflexivity.
    + intros [r Hr]. rewrite updateField_value. by eapply mergeLocal_empty_id.
Qed.

End Cascade.

Lemma cascade_without_change_still_writes_witness :
  (∃ s', completeModule Sample.dataTree Sample.clock 4 "m/u2" CascadeSample.allDone = (s', Ok tt)
         ∧ effects s' =
             [SetItem (mergeLocal "modules" "m" emptyLearning CascadeSample.value);
              Put "modules" "m"
                (default emptyLearning (recordAt CascadeSample.value "modules" "m"))])
  ∧ (∃ s', completeTrack Sample.dataTree Sample.clock "t" CascadeSample.allDone = (s', Ok tt)
           ∧ effects s' =
               [SetItem (mergeLocal "tracks" "t" emptyLearning CascadeSample.value);
                Put "tracks" "t"
                  (default emptyLearning (recordAt CascadeSample.value "tracks" "t"))]).
Proof.
  pose proof (cascade_without_change_still_writes Sample.dataTree Sample.clock 4
                "m/u2" (Some "m") "t" ["m"] CascadeSample.allDone) as [Hm Ht].
  split.
  - destruct Hm as (s' & Hrun & Heff & _);
      [vm_compute; reflexivity..|left; vm_compute; reflexivity|].
    exists s'. split; [exact Hrun|exact Heff].
  - destruct Ht as (s' & Hrun & Heff & _); [vm_compute; reflexivity..|].
    exists s'. split; [exact Hrun|exact Heff].
Defined.

(** ** Achievements *)

Section Achievements.

Variable clock : nat -> string.

Lemma grantsOnly_refl s : grantsOnly s s.
Proof. by split. Qed.

Lemma grantsOnly_trans s1 s2 s3 : grantsOnly s1 s2 → grantsOnly s2 s3 → grantsOnly s1 s3.
Proof.
  intros [H1 H2] [H3 H4]. split; [by auto|].
  intros lt Hlt. by rewrite H4, H2.
Qed.

Lemma recorded_has_mapping s id :
  recorded s id → is_Some (JS.get (activeUserProgress s) "achievements").
Proof.
  unfold recorded, recordAt, JS.get_or.
  destruct (JS.get (activeUserProgress s) "achievements"); [by eexists|].
  simpl. by intros [? ?].
Qed.

Lemma grant_spec aliased id s :
  ∃ s', grant clock aliased id s = (s', Ok tt)
        ∧ recorded s' id
        ∧ grantsOnly s s'
        ∧ (aliased = true → recorded s id → s' = s).
Proof.
  unfold grant, achievementRecorded.
  destruct aliased; simpl.
  - case_bool_decide as Hrec; simpl.
    + exists s. split_and!; [done|exact Hrec|apply grantsOnly_refl|done].
    + eexists. split; [reflexivity|]. split_and!.
      * unfold recorded. rewrite updateField_value, recordAt_mergeLocal.
        rewrite bool_decide_eq_true_2; [by eexists|done].
      * split.
        -- intros k Hk. unfold recorded in *.
           rewrite updateField_value, recordAt_mergeLocal.
           case_bool_decide; [by eexists|exact Hk].
        -- intros lt Hlt. rewrite updateField_value.
           by rewrite get_mergeLocal_ne.
      * intros _ Hr. by destruct Hrec.
  - eexists. split; [reflexivity|]. split_and!.
    + unfold recorded. rewrite updateField_value, recordAt_mergeLocal.
      rewrite bool_decide_eq_true_2; [by eexists|done].
    + split.
      * intros k Hk. unfold recorded in *.
        rewrite updateField_value, recordAt_mergeLocal.
        case_bool_decide; [by eexists|exact Hk].
      * intros lt Hlt. rewrite updateField_value.
        by rewrite get_mergeLocal_ne.
    + done.
Qed.

Lemma forEach_grant_spec aliased ids s :
  ∃ s', forEach ids (grant clock aliased) s = (s', Ok tt)
        ∧ (∀ id, id ∈ ids → recorded s' id)
        ∧ grantsOnly s s'
        ∧ (aliased = true → (∀ id, id ∈ ids → recorded s id) → s' = s).
Proof.
  revert s. induction ids as [|id ids IH]; intros s; simpl.
  - exists s. split_and!; [done| |apply grantsOnly_refl|done].
    intros id H. by apply not_elem_of_nil in H.
  - destruct (grant_spec aliased id s) as (s1 & Hg & Hrec & Honly & Hsame).
    destruct (IH s1) as (s2 & Hf & Hall & Honly2 & Hsame2).
    exists s2. unfold bindA. rewrite Hg, Hf. split_and!.
    + done.
    + intros k [->|Hk]%elem_of_cons; [|by auto].
      by apply Honly2.
    + by eapply grantsOnly_trans.
    + intros Ha Hpre.
      assert (s1 = s) as -> by (apply Hsame; [done|apply Hpre, list_elem_of_here]).
      apply Hsame2; [done|]. intros k Hk. apply Hpre. by apply list_elem_of_further.
Qed.

Lemma grantsOnly_same_data s s' :
  grantsOnly s s' → modulesDataOf s' = modulesDataOf s ∧ tracksDataOf s' = tracksDataOf s.
Proof.
  intros [_ H]. unfold modulesDataOf, tracksDataOf, getUserProgressData, JS.get_or. simpl.
  by rewrite !H.
Qed.

Lemma awardAchievements_first s :
  ∃ s', awardAchievements clock s = (s', Ok tt)
        ∧ grantsOnly s s'
        ∧ (completedKeys (modulesDataOf s) ≠ [] → recorded s' "grand-opening")
        ∧ (∀ id, id ∈ completedKeys (tracksDataOf s) → recorded s' id).
Proof.
  unfold awardAchievements. fold (modulesDataOf s) (tracksDataOf s).
  set (aliased := bool_decide _).
  destruct (completedKeys (modulesDataOf s)) as [|m ms] eqn:Hm; simpl.
  - destruct (forEach_grant_spec aliased (completedKeys (tracksDataOf s)) s)
      as (s' & Hf & Hall & Honly & _).
    exists s'. unfold bindA, ret. rewrite Hf. by split_and!.
  - destruct (grant_spec aliased "grand-opening" s) as (s1 & Hg & Hrec & Honly1 & _).
    destruct (forEach_grant_spec aliased (completedKeys (tracksDataOf s)) s1)
      as (s' & Hf & Hall & Honly & _).
    exists s'. unfold bindA. rewrite Hg, Hf. split_and!.
    + done.
    + by eapply grantsOnly_trans.
    + intros _. by apply Honly.
    + done.
Qed.

Lemma awardAchievements_nothing_to_grant s :
  (completedKeys (modulesDataOf s) ≠ [] → recorded s "grand-opening") →
  (∀ id, id ∈ completedKeys (tracksDataOf s) → recorded s id) →
  awardAchievements clock s = (s, Ok tt).
Proof.
  intros Hgrand Htracks.
  unfold awardAchievements. fold (modulesDataOf s) (tracksDataOf s).
  set (aliased := bool_decide _).
  assert (Halias : ∀ id, recorded s id → aliased = true).
  { intros id Hid. apply bool_decide_eq_true_2. by eapply recorded_has_mapping. }
  assert (Hloop : forEach (completedKeys (tracksDataOf s)) (grant clock aliased) s = (s, Ok tt)).
  { destruct (completedKeys (tracksDataOf s)) as [|t ts] eqn:Ht; [reflexivity|].
    destruct (forEach_grant_spec aliased (t :: ts) s) as (s' & Hf & _ & _ & Hsame).
    rewrite Hf. f_equal. apply Hsame; [|done].
    apply (Halias t), Htracks, list_elem_of_here. }
  destruct (completedKeys (modulesDataOf s)) as [|m ms] eqn:Hm; simpl.
  - unfold bindA, ret. by rewrite Hloop.
  - destruct (grant_spec aliased "grand-opening" s) as (s1 & Hg & _ & _ & Hsame).
    assert (s1 = s) as ->.
    { apply Hsame; [|by apply Hgrand]. apply (Halias "grand-opening"). by apply Hgrand. }
    unfold bindA. by rewrite Hg, Hloop.
Qed.

(** C6: [awardAchievements] is idempotent.  Whatever the state, the first
    run completes having recorded [grand-opening] when some module is
    completed and the achievement of every completed track, and a second
    run right after it issues no write at all: it leaves the service, its
    effects included, exactly as the first run left it. *)
Theorem awardAchievements_idempotent (s : Service) :
  ∃ s1,
    awardAchievements clock s = (s1, Ok tt)
    ∧ (completedKeys (modulesDataOf s) ≠ [] → recorded s1 "grand-opening")
    ∧ (∀ id, id ∈ completedKeys (tracksDataOf s) → recorded s1 id)
    ∧ awardAchievements clock s1 = (s1, Ok tt).
Proof.
  destruct (awardAchievements_first s) as (s1 & Hrun & Honly & Hgrand & Htracks).
  exists s1. split_and!; [done..|].
  destruct (grantsOnly_same_data s s1 Honly) as [Hm Ht].
  apply awardAchievements_nothing_to_grant; by rewrite ?Hm, ?Ht.
Qed.

End Achievements.

(** ** Reconciliation at sign-in *)

Lemma forEach_exec {A} (l : list A) (f : A → Service → Service) (s : Service) :
  forEach l (fun x => exec (f x)) s = (fold_left (fun s x => f x s) l s, Ok tt).
Proof.
  revert s. induction l as [|x l IH]; intros s; simpl; [done|].
  unfold bindA, exec at 1. by rewrite IH.
Qed.

Lemma onlyWrote_refl s : isAuthenticated s = true → onlyWrote s s.
Proof.
  intros. split_and!; [done..|]. exists []. by rewrite app_nil_r.
Qed.

Lemma onlyWrote_trans s1 s2 s3 : onlyWrote s1 s2 → onlyWrote s2 s3 → onlyWrote s1 s3.
Proof.
  intros (_ & Hw1 & w1 & He1 & Hf1) (Ha & Hw2 & w2 & He2 & Hf2).
  split_and!; [done|congruence|].
  exists (w1 ++ w2). rewrite He2, He1, <- app_assoc. split; [done|].
  by apply Forall_app.
Qed.

Lemma wasPut_later s1 s2 s3 lt id r :
  wasPut s1 s2 lt id r → onlyWrote s2 s3 → wasPut s1 s3 lt id r.
Proof.
  intros (w & sent & He & Hin & Hc) (_ & _ & w2 & He2 & _).
  exists (w ++ w2), sent. rewrite He2, He, <- app_assoc. split_and!; [done| |done].
  apply elem_of_app. by left.
Qed.

Lemma wasPut_earlier s1 s2 s3 lt id r :
  onlyWrote s1 s2 → wasPut s2 s3 lt id r → wasPut s1 s3 lt id r.
Proof.
  intros (_ & _ & w1 & He1 & _) (w & sent & He & Hin & Hc).
  exists (w1 ++ w), sent. rewrite He, He1, <- app_assoc. split_and!; [done| |done].
  apply elem_of_app. by right.
Qed.

Lemma updateField_onlyWrote lt id fv s :
  isAuthenticated s = true →
  onlyWrote s (updateField lt id fv s) ∧ wasPut s (updateField lt id fv s) lt id fv.
Proof.
  intros Ha. destruct (updateField_flags lt id fv s) as (Hf1 & Hf2 & _).
  pose proof (updateField_effects lt id fv s) as He. rewrite Ha in He.
  split.
  - split_and!; [congruence|done|]. eexists. split; [exact He|].
    repeat constructor.
  - eexists _, _. split; [exact He|]. split.
    + apply list_elem_of_further, list_elem_of_here.
    + rewrite dataChange_assign. apply carries_assign.
Qed.

Lemma replayIds_spec existing lt ids s :
  isAuthenticated s = true →
  let s' :=
    fold_left
      (fun s id =>
         updateField lt id (JS.get_or (JS.get_or existing lt []) id emptyLearning) s)
      ids s in
  onlyWrote s s'
  ∧ ∀ id, id ∈ ids →
      wasPut s s' lt id (JS.get_or (JS.get_or existing lt []) id emptyLearning).
Proof.
  revert s. induction ids as [|id ids IH]; intros s Ha; simpl.
  - split; [by apply onlyWrote_refl|]. intros id H. by apply not_elem_of_nil in H.
  - destruct (updateField_onlyWrote lt id
                (JS.get_or (JS.get_or existing lt []) id emptyLearning) s Ha) as [Hw Hp].
    destruct (IH (updateField lt id
                    (JS.get_or (JS.get_or existing lt []) id emptyLearning) s)) as [Hw' Hp'].
    { by destruct Hw. }
    split; [by eapply onlyWrote_trans|].
    intros k [->|Hk]%elem_of_cons.
    + by eapply wasPut_later.
    + eapply wasPut_earlier; [exact Hw|]. by apply Hp'.
Qed.

Lemma replayTypes_spec existing lts s :
  isAuthenticated s = true →
  let s' := fold_left (fun s lt => replayType existing lt s) lts s in
  onlyWrote s s'
  ∧ ∀ lt id, lt ∈ lts → id ∈ JS.keys (JS.get_or existing lt []) →
      wasPut s s' lt id (JS.get_or (JS.get_or existing lt []) id emptyLearning).
Proof.
  revert s. induction lts as [|lt lts IH]; intros s Ha; simpl.
  - split; [by apply onlyWrote_refl|]. intros lt id H. by apply not_elem_of_nil in H.
  - destruct (replayIds_spec existing lt (JS.keys (JS.get_or existing lt [])) s Ha) as [Hw Hp].
    fold (replayType existing lt s) in Hw, Hp.
    destruct (IH (replayType existing lt s)) as [Hw' Hp']; [by destruct Hw|].
    split; [by eapply onlyWrote_trans|].
    intros k id [->|Hk]%elem_of_cons Hid.
    + eapply wasPut_later; [by apply Hp|done].
    + eapply wasPut_earlier; [exact Hw|]. by apply Hp'.
Qed.

Lemma recordAt_in_keys (existing : ProgressState) lt id r :
  recordAt existing lt id = Some r →
  lt ∈ JS.keys existing
  ∧ id ∈ JS.keys (JS.get_or existing lt [])
  ∧ JS.get_or (JS.get_or existing lt []) id emptyLearning = r.
Proof.
  unfold recordAt. intros Hr. split_and!.
  - unfold JS.get_or in Hr. destruct (JS.get existing lt) eqn:Hlt; [|done].
    by eapply get_Some_keys.
  - by eapply get_Some_keys.
  - unfold JS.get_or at 1. by rewrite Hr.
Qed.

Lemma replay_spec existing s :
  isAuthenticated s = true →
  onlyWrote s (replay existing s)
  ∧ ∀ lt id r, recordAt existing lt id = Some r → wasPut s (replay existing s) lt id r.
Proof.
  intros Ha. destruct (replayTypes_spec existing (JS.keys existing) s Ha) as [Hw Hp].
  split; [exact Hw|]. intros lt id r Hr.
  destruct (recordAt_in_keys existing lt id r Hr) as (Hlt & Hid & <-).
  by apply Hp.
Qed.

Lemma forEach_ext {A} (l : list A) (body body' : A → Action unit) (s : Service) :
  (∀ x s, body x s = body' x s) → forEach l body s = forEach l body' s.
Proof.
  intros Hext. revert s. induction l as [|x l IH]; intros s; simpl; [done|].
  unfold bindA. rewrite Hext. destruct (body' x s) as [s' [[]| |]]; auto.
Qed.

Section SignIn.

Variable dataTree : DataTree.
Variable currentPage : string.
Variable clock : nat -> string.

Lemma startPage_appends fuel pageId s :
  ∃ post, effects (startPage dataTree clock fuel pageId s).1 = effects s ++ post.
Proof.
  unfold startPage, bindA, liftO.
  destruct (getLearningType dataTree fuel pageId) as [learningType| |]; simpl;
    [|exists []; by rewrite app_nil_r..].
  destruct learningType as [[]|]; simpl;
    repeat (rewrite updateField_effects; simpl); rewrite <- ?app_assoc; by eexists.
Qed.

Lemma initUserProgressData_replay fuel s :
  isAuthenticated s = true → wasAnonymous s = true →
  initUserProgressData dataTree currentPage clock fuel s =
    (emit Get (clearWasAnonymous (replay (readExisting s) s)), Ok (Some (readExisting s))).
Proof.
  intros Ha Hw. unfold initUserProgressData. rewrite Ha, Hw. simpl.
  unfold bindA at 1. unfold bindA at 1. unfold bindA at 1.
  erewrite forEach_ext; [|intros lt s0; apply forEach_exec].
  change (fun lt s0 => (?f lt s0, Ok tt)) with (fun lt => exec (f lt)).
  rewrite (forEach_exec (JS.keys (readExisting s))
             (fun lt s0 => replayType (readExisting s) lt s0)).
  reflexivity.
Qed.

(** C7: when the session turns from anonymous to authenticated, the
    initialization sends every locally stored entry to the remote store
    (a request carrying its fields) before it asks for the remote
    snapshot, and nothing is published in between; the snapshot, when it
    arrives, is persisted and published only after all that.  When the
    request for it fails, the local snapshot read at the start is
    published and [startPage] runs all the same. *)
Theorem sign_in_replays_local_progress_first fuel s :
  wasAnonymous s = true →
  let existing := readExisting s in
  ∃ s1 replayed,
    onAuthenticated dataTree currentPage clock fuel true s = (s1, Ok (Some existing))
    ∧ effects s1 = effects s ++ replayed ++ [Get]
    ∧ Forall isWrite replayed
    ∧ (∀ learningType id r,
         recordAt existing learningType id = Some r →
         ∃ sent, Put learningType id sent ∈ replayed ∧ carries r sent)
    ∧ wasAnonymous s1 = false
    ∧ (∀ res, ∃ s2 post,
         onProgressFetched dataTree currentPage clock fuel res s1
           = startPage dataTree clock fuel currentPage s2
         ∧ activeUserProgress s2 = res
         ∧ effects (startPage dataTree clock fuel currentPage s2).1
             = effects s ++ replayed ++ [Get; SetItem res; Next res] ++ post)
    ∧ (∃ s2 post,
         onProgressError dataTree currentPage clock fuel existing s1
           = startPage dataTree clock fuel currentPage s2
         ∧ activeUserProgress s2 = existing
         ∧ effects (startPage dataTree clock fuel currentPage s2).1
             = effects s ++ replayed ++ [Get; ConsoleLog; Next existing] ++ post).
Proof.
  intros Hw existing.
  set (s0 := {| activeUserProgress := activeUserProgress s; isAuthenticated := true;
                wasAnonymous := wasAnonymous s; localStorage := localStorage s;
                ticks := ticks s; effects := effects s |}).
  assert (Hinit : onAuthenticated dataTree currentPage clock fuel true s =
                    (emit Get (clearWasAnonymous (replay existing s0)), Ok (Some existing))).
  { unfold onAuthenticated. simpl. fold s0. by rewrite initUserProgressData_replay. }
  destruct (replay_spec existing s0 eq_refl) as [(_ & _ & replayed & He & Hwr) Hput].
  simpl in He.
  exists (emit Get (clearWasAnonymous (replay existing s0))), replayed.
  assert (Heff : effects (emit Get (clearWasAnonymous (replay existing s0)))
                 = effects s ++ replayed ++ [Get]).
  { simpl. by rewrite He, <- app_assoc. }
  split_and!; [done..| | | |].
  - intros lt id r Hr. destruct (Hput lt id r Hr) as (w & sent & He' & Hin & Hc).
    simpl in He'. rewrite He in He'. apply app_inv_head in He' as ->. by exists sent.
  - done.
  - intros res.
    destruct (startPage_appends fuel currentPage
                (next res (setItem res (emit Get (clearWasAnonymous (replay existing s0))))))
      as [post Hpost].
    eexists _, post. split_and!; [reflexivity|done|].
    rewrite Hpost. simpl. rewrite He. by rewrite <- !app_assoc.
  - destruct (startPage_appends fuel currentPage
                (next existing (emit ConsoleLog (emit Get (clearWasAnonymous (replay existing s0))))))
      as [post Hpost].
    eexists _, post. split_and!; [reflexivity|done|].
    rewrite Hpost. simpl. rewrite He. by rewrite <- !app_assoc.
Qed.

End SignIn.

Lemma sign_in_replays_local_progress_first_witness :
  ∃ s1 replayed sent,
    onAuthenticated Sample.dataTree "m/u1" Sample.clock 4 true SignInSample.anonymous
      = (s1, Ok (Some SignInSample.local))
    ∧ effects s1 = replayed ++ [Get]
    ∧ Put "units" "p1" sent ∈ replayed
    ∧ completed_at sent = Some "2017-06-01T09:00:00.000Z".
Proof.
  destruct (sign_in_replays_local_progress_first Sample.dataTree "m/u1" Sample.clock 4
              SignInSample.anonymous eq_refl)
    as (s1 & replayed & Hinit & Heff & _ & Hput & _).
  destruct (Hput "units" "p1" _ eq_refl) as (sent & Hin & _ & Hc & _).
  exists s1, replayed, sent. split_and!; [exact Hinit|exact Heff|exact Hin|].
  by apply Hc.
Defined.

(** ** Termination of the traversals *)

Lemma eventually_and (P Q : nat → Prop) :
  eventually P → eventually Q → eventually (fun fuel => P fuel ∧ Q fuel).
Proof.
  intros [n Hn] [m Hm]. exists (n `max` m). intros fuel Hfuel.
  split; [apply Hn|apply Hm]; lia.
Qed.

Lemma eventually_impl (P Q : nat → Prop) :
  (∀ fuel, P fuel → Q fuel) → eventually P → eventually Q.
Proof. intros HPQ [n Hn]. exists n. auto. Qed.

Lemma eventually_always (P : nat → Prop) : (∀ fuel, P fuel) → eventually P.
Proof. intros H. exists 0. auto. Qed.

Lemma eventually_S (P : nat → Prop) :
  eventually P → eventually (fun fuel => match fuel with O => False | S fuel' => P fuel' end).
Proof.
  intros [n Hn]. exists (S n). intros [|fuel] Hfuel; [lia|]. apply Hn. lia.
Qed.

Lemma eventually_terminates {A} (run : nat → Outcome A) :
  eventually (fun fuel => run fuel ≠ OutOfFuel) → terminates run.
Proof. intros [n Hn]. exists n. by apply Hn. Qed.

Lemma sn_no_cycle {A} (R : relation A) (x : A) : sn R x → ¬ tc R x x.
Proof.
  induction 1 as [x _ IH]. intros Hcycle.
  inversion Hcycle as [? ? Hxx|? y ? Hxy Hyx]; subst.
  - apply (IH x Hxx). by apply tc_once.
  - apply (IH y Hxy). by eapply tc_r.
Qed.

Lemma tc_incl {A} (R1 R2 : relation A) (x y : A) :
  (∀ a b, R1 a b → R2 a b) → tc R1 x y → tc R2 x y.
Proof.
  intros Hincl. induction 1 as [a b Hab|a b c Hab _ IH].
  - by apply tc_once, Hincl.
  - eapply tc_l; [by apply Hincl|exact IH].
Qed.

Lemma tc_last_step {A} (R : relation A) (x y : A) : tc R x y → ∃ z, R z y.
Proof. induction 1 as [x y Hxy|x z y _ _ IH]; [by exists x|exact IH]. Qed.

Section Traversal.

Variable moduleData : gmap string ContentNode.

Lemma loop_condition (node : ContentNode) :
  JS.truthy (parent node) && negb (bool_decide (parent node = Some "modules")) = true
  ↔ ∃ p, parent node = Some p ∧ JS.truthy (Some p) = true ∧ p ≠ "modules".
Proof.
  rewrite andb_true_iff, negb_true_iff, bool_decide_eq_false. split.
  - intros [Ht Hm]. destruct (parent node) as [p|] eqn:Hp; [|done].
    exists p. split_and!; [done..|congruence].
  - intros (p & -> & Ht & Hm). split; [done|congruence].
Qed.

Lemma getModuleRoot_loop_sn fuel pageId :
  getModuleRoot_loop moduleData fuel pageId (moduleData !! pageId) ≠ OutOfFuel →
  sn (ascends moduleData) pageId.
Proof.
  revert pageId. induction fuel as [|fuel IH]; intros pageId Hrun;
    constructor; intros p (node & Hnode & Hp & Ht & Hm);
    rewrite Hnode in Hrun; simpl in Hrun;
    rewrite (proj2 (loop_condition node)) in Hrun by eauto.
  - done.
  - rewrite Hp in Hrun. simpl in Hrun. by apply IH.
Qed.

Lemma sn_getModuleRoot_loop pageId :
  sn (ascends moduleData) pageId →
  eventually (fun fuel =>
    getModuleRoot_loop moduleData fuel pageId (moduleData !! pageId) ≠ OutOfFuel).
Proof.
  induction 1 as [pageId _ IH].
  destruct (moduleData !! pageId) as [node|] eqn:Hnode;
    [|by apply eventually_always; intros []].
  destruct (JS.truthy (parent node) && negb (bool_decide (parent node = Some "modules")))
    eqn:Hcond.
  - destruct (proj1 (loop_condition node) Hcond) as (p & Hp & Ht & Hm).
    assert (Hstep : (ascends moduleData) pageId p) by (exists node; done).
    eapply eventually_impl; [|apply eventually_S, (IH p Hstep)].
    intros [|fuel]; [done|]. simpl. rewrite Hcond, Hp. done.
  - apply eventually_always. intros fuel. destruct fuel; simpl; by rewrite Hcond.
Qed.

Lemma getModuleRoot_as_loop fuel pageId :
  getModuleRoot moduleData fuel pageId ≠ OutOfFuel
  ↔ getModuleRoot_loop moduleData fuel pageId (moduleData !! pageId) ≠ OutOfFuel.
Proof.
  unfold getModuleRoot. destruct (moduleData !! pageId); [done|].
  destruct fuel; done.
Qed.

Lemma getModuleRoot_terminates_iff pageId :
  terminates (fun fuel => getModuleRoot moduleData fuel pageId) ↔ sn (ascends moduleData) pageId.
Proof.
  split.
  - intros [fuel Hrun]. eapply getModuleRoot_loop_sn. by apply getModuleRoot_as_loop.
  - intros Hsn. apply eventually_terminates.
    eapply eventually_impl; [|by apply sn_getModuleRoot_loop].
    intros fuel. apply getModuleRoot_as_loop.
Qed.

Lemma getChildPathIds_unfold fuel pageId :
  getChildPathIds moduleData (S fuel) pageId =
    match moduleData !! pageId with
    | Some {| children := Some chs |} =>
        childrenFold (getChildPathIds moduleData fuel) chs (Ok [])
    | _ => Ok []
    end.
Proof. reflexivity. Qed.

Lemma childrenFold_stuck recurse chs :
  childrenFold recurse chs OutOfFuel = OutOfFuel.
Proof. induction chs as [|c chs IH]; simpl; [done|exact IH]. Qed.

Lemma childrenFold_out_of_fuel recurse chs acc child :
  child ∈ chs → recurse child = OutOfFuel →
  (∀ c, recurse c ≠ Fault) → acc ≠ Fault →
  childrenFold recurse chs acc = OutOfFuel.
Proof.
  intros Hin Hchild Hnofault. revert acc.
  induction chs as [|c chs IH]; intros acc Hacc; [by apply not_elem_of_nil in Hin|].
  simpl. apply elem_of_cons in Hin as [<-|Hin].
  - rewrite Hchild. destruct acc; [|done|]; simpl; apply childrenFold_stuck.
  - apply (IH Hin). destruct acc as [ids| |]; [|done..]. simpl.
    specialize (Hnofault c). destruct (recurse c); done.
Qed.

Lemma childrenFold_ok recurse chs ids :
  (∀ child, child ∈ chs → ∃ sub, recurse child = Ok sub) →
  ∃ r, childrenFold recurse chs (Ok ids) = Ok r.
Proof.
  revert ids. induction chs as [|c chs IH]; intros ids Hall; simpl; [by eexists|].
  destruct (Hall c) as [sub ->]; [apply list_elem_of_here|]. simpl.
  apply IH. intros child Hchild. apply Hall. by apply list_elem_of_further.
Qed.

Lemma childrenFold_no_fault recurse chs acc :
  (∀ c, recurse c ≠ Fault) → acc ≠ Fault → childrenFold recurse chs acc ≠ Fault.
Proof.
  intros Hnofault. revert acc. induction chs as [|c chs IH]; intros acc Hacc; [done|].
  simpl. apply IH. destruct acc as [ids| |]; [|done..]. simpl.
  specialize (Hnofault c). destruct (recurse c); done.
Qed.

Lemma getChildPathIds_no_fault fuel pageId :
  getChildPathIds moduleData fuel pageId ≠ Fault.
Proof.
  revert pageId. induction fuel as [|fuel IH]; intros pageId; [done|].
  rewrite getChildPathIds_unfold.
  destruct (moduleData !! pageId) as [[? [chs|] ? ? ?]|]; [|done..].
  by apply childrenFold_no_fault.
Qed.

Lemma getChildPathIds_sn fuel pageId :
  getChildPathIds moduleData fuel pageId ≠ OutOfFuel → sn (descends moduleData) pageId.
Proof.
  revert pageId. induction fuel as [|fuel IH]; intros pageId Hrun; [done|].
  constructor. intros child (node & chs & Hnode & Hchs & Hin). simpl.
  apply IH. intros Hchild. apply Hrun.
  rewrite getChildPathIds_unfold, Hnode. destruct node as [? c ? ? ?].
  simpl in Hchs. subst c.
  eapply childrenFold_out_of_fuel; [done..| |done].
  intros c. apply getChildPathIds_no_fault.
Qed.

Lemma eventually_all_children (P : nat → string → Prop) (chs : list string) :
  (∀ child, child ∈ chs → eventually (fun fuel => P fuel child)) →
  eventually (fun fuel => ∀ child, child ∈ chs → P fuel child).
Proof.
  induction chs as [|c chs IH]; intros Hall.
  - apply eventually_always. intros fuel child H. by apply not_elem_of_nil in H.
  - eapply eventually_impl;
      [|apply eventually_and;
         [apply (Hall c), list_elem_of_here
         |apply IH; intros child Hin; apply Hall; by apply list_elem_of_further]].
    intros fuel [Hc Hrest] child [->|Hin]%elem_of_cons; auto.
Qed.

Lemma sn_getChildPathIds pageId :
  sn (descends moduleData) pageId →
  eventually (fun fuel => ∃ ids, getChildPathIds moduleData fuel pageId = Ok ids).
Proof.
  induction 1 as [pageId _ IH].
  destruct (moduleData !! pageId) as [node|] eqn:Hnode.
  - destruct (children node) as [chs|] eqn:Hchs.
    + assert (Hall : eventually (fun fuel =>
                ∀ child, child ∈ chs →
                  ∃ ids, getChildPathIds moduleData fuel child = Ok ids)).
      { apply (eventually_all_children
                 (fun fuel child => ∃ ids, getChildPathIds moduleData fuel child = Ok ids)).
        intros child Hin. apply IH. by exists node, chs. }
      eapply eventually_impl; [|apply eventually_S, Hall].
      intros [|fuel]; [done|]. intros Hchildren.
      rewrite getChildPathIds_unfold, Hnode. destruct node as [? c ? ? ?].
      simpl in Hchs. subst c. by apply childrenFold_ok.
    + exists 1. intros [|fuel] ?; [lia|].
      rewrite getChildPathIds_unfold, Hnode. destruct node as [? c ? ? ?].
      simpl in Hchs. subst c. by eexists.
  - exists 1. intros [|fuel] ?; [lia|].
    rewrite getChildPathIds_unfold, Hnode. by eexists.
Qed.

Lemma getChildPathIds_terminates_iff pageId :
  terminates (fun fuel => getChildPathIds moduleData fuel pageId) ↔ sn (descends moduleData) pageId.
Proof.
  split.
  - intros [fuel Hrun]. by eapply getChildPathIds_sn.
  - intros Hsn. apply eventually_terminates.
    eapply eventually_impl; [|by apply sn_getChildPathIds].
    intros fuel [ids ->]. done.
Qed.

(** Every name a step can lead to appears in the catalog, which is finite. *)
Lemma ascends_finite pageId : pred_finite (tc (ascends moduleData) pageId).
Proof.
  exists (omap (fun kv => parent kv.2) (map_to_list moduleData)).
  intros p Hp. apply tc_last_step in Hp as (q & node & Hnode & Hparent & _).
  apply list_elem_of_omap. exists (q, node). split; [|done].
  by apply elem_of_map_to_list.
Qed.

Lemma descends_finite pageId : pred_finite (tc (descends moduleData) pageId).
Proof.
  exists (mjoin (omap (fun kv => children kv.2) (map_to_list moduleData))).
  intros child Hc. apply tc_last_step in Hc as (q & node & chs & Hnode & Hchs & Hin).
  apply list_elem_of_join. exists chs. split; [done|].
  apply list_elem_of_omap. exists (q, node). split; [|done].
  by apply elem_of_map_to_list.
Qed.

Lemma ascends_linked pageId p : (ascends moduleData) pageId p → (linked moduleData) pageId p.
Proof. intros (node & ? & ? & ? & _). by exists node. Qed.

Lemma linked_acyclic_ascends :
  Irreflexive (tc (linked moduleData)) → Irreflexive (tc (ascends moduleData)).
Proof.
  intros Hacyclic x Hcycle. apply (Hacyclic x).
  eapply tc_incl; [|exact Hcycle]. apply ascends_linked.
Qed.

End Traversal.

(** ** Faults *)

Section Faults.

Variable moduleData : gmap string ContentNode.

Lemma knownParent_of_node pageId node :
  ParentClosed moduleData → moduleData !! pageId = Some node → knownParent moduleData (parent node).
Proof.
  intros Hclosed Hnode Ht. destruct (parent node) as [p|] eqn:Hp; [|done].
  by eapply Hclosed.
Qed.

Lemma getModuleRoot_loop_no_fault fuel pageId :
  ParentClosed moduleData → is_Some (moduleData !! pageId) →
  getModuleRoot_loop moduleData fuel pageId (moduleData !! pageId) ≠ Fault.
Proof.
  intros Hclosed. revert pageId. induction fuel as [|fuel IH]; intros pageId [node Hnode];
    rewrite Hnode; simpl;
    destruct (JS.truthy (parent node) && _) eqn:Hcond; try done.
  apply IH. apply andb_true_iff in Hcond as [Ht _].
  by apply (knownParent_of_node pageId node).
Qed.

Lemma getModuleRoot_no_fault fuel pageId :
  ParentClosed moduleData → getModuleRoot moduleData fuel pageId ≠ Fault.
Proof.
  intros Hclosed. unfold getModuleRoot.
  destruct (moduleData !! pageId) as [node|] eqn:Hnode; [|done].
  rewrite <- Hnode. apply getModuleRoot_loop_no_fault; [done|]. by rewrite Hnode.
Qed.

Lemma ancestors_loop_no_fault fuel parent_ ids :
  ParentClosed moduleData → knownParent moduleData parent_ →
  ancestors_loop moduleData fuel parent_ ids ≠ Fault.
Proof.
  intros Hclosed. revert parent_ ids.
  induction fuel as [|fuel IH]; intros parent_ ids Hknown; simpl;
    destruct (JS.truthy parent_ && _) eqn:Hcond; try done.
  apply andb_true_iff in Hcond as [Ht _].
  destruct (Hknown Ht) as [node Hnode]. rewrite Hnode.
  apply IH. by eapply knownParent_of_node.
Qed.

Lemma parentTime_loop_no_fault fuel parent_ baseTimeRange :
  ParentClosed moduleData → knownParent moduleData parent_ →
  parentTime_loop moduleData fuel parent_ baseTimeRange ≠ Fault.
Proof.
  intros Hclosed. revert parent_ baseTimeRange.
  induction fuel as [|fuel IH]; intros parent_ baseTimeRange Hknown; simpl;
    destruct (JS.truthy parent_ && _) eqn:Hcond; try done.
  apply andb_true_iff in Hcond as [Ht _].
  destruct (Hknown Ht) as [node Hnode]. rewrite Hnode.
  apply IH. by eapply knownParent_of_node.
Qed.

Lemma childRootOf_known activeItemId node :
  ParentClosed moduleData → moduleData !! activeItemId = Some node →
  ∃ childRoot, childRootOf moduleData activeItemId node = Ok childRoot
               ∧ is_Some (moduleData !! childRoot).
Proof.
  intros Hclosed Hnode. unfold childRootOf.
  destruct (JS.truthy (parent node)) eqn:Ht; [|by eauto].
  destruct (knownParent_of_node activeItemId node Hclosed Hnode Ht) as [pnode Hp].
  rewrite Hp. destruct (is_fork pnode); eauto.
Qed.

(** What the traversals answer for an identifier the catalog does not know. *)
Lemma unknown_defaults value fuel pageId :
  moduleData !! pageId = None →
  getModuleRoot moduleData fuel pageId = Ok None
  ∧ getActivePathIds moduleData fuel pageId = Ok []
  ∧ getModuleProgress moduleData value fuel pageId = Ok (JS.Fin 0).
Proof.
  intros H. unfold getModuleRoot, getActivePathIds, getModuleProgress.
  by rewrite H.
Qed.

End Faults.

(** ** Termination and acyclicity *)

Lemma never_terminates {A} (run : nat → Outcome A) :
  ¬ terminates run → ∀ fuel, run fuel = OutOfFuel.
Proof.
  intros Hnever fuel. destruct (run fuel) eqn:Hrun; [| |done];
    destruct Hnever; exists fuel; by rewrite Hrun.
Qed.

(** C10: on a catalog (finite, as every catalog is) whose parent links form
    no cycle the ascent of [getModuleRoot] terminates for every identifier
    (links to the root sentinel, which end the loop, need not even be
    counted), and when its child links form no cycle so does the descent
    of [getChildPathIds]; the precondition is needed, as an identifier on
    a cycle exhausts every fuel.  Exactly: each traversal terminates on an
    identifier if and only if its step relation is well founded there. *)
Theorem traversals_terminate_iff_acyclic (moduleData : gmap string ContentNode) :
  (Irreflexive (tc (linked moduleData)) →
   ∀ pageId, terminates (fun fuel => getModuleRoot moduleData fuel pageId))
  ∧ (Irreflexive (tc (ascends moduleData)) →
     ∀ pageId, terminates (fun fuel => getModuleRoot moduleData fuel pageId))
  ∧ (Irreflexive (tc (descends moduleData)) →
     ∀ pageId, terminates (fun fuel => getChildPathIds moduleData fuel pageId))
  ∧ (∀ pageId, tc (ascends moduleData) pageId pageId →
       ∀ fuel, getModuleRoot moduleData fuel pageId = OutOfFuel)
  ∧ (∀ pageId, tc (descends moduleData) pageId pageId →
       ∀ fuel, getChildPathIds moduleData fuel pageId = OutOfFuel)
  ∧ (∀ pageId, terminates (fun fuel => getModuleRoot moduleData fuel pageId)
               ↔ sn (ascends moduleData) pageId)
  ∧ (∀ pageId, terminates (fun fuel => getChildPathIds moduleData fuel pageId)
               ↔ sn (descends moduleData) pageId).
Proof.
  split_and!.
  - intros Hacyclic pageId. apply getModuleRoot_terminates_iff.
    apply tc_finite_sn; [by apply linked_acyclic_ascends|apply ascends_finite].
  - intros Hacyclic pageId. apply getModuleRoot_terminates_iff.
    apply tc_finite_sn; [done|apply ascends_finite].
  - intros Hacyclic pageId. apply getChildPathIds_terminates_iff.
    apply tc_finite_sn; [done|apply descends_finite].
  - intros pageId Hcycle.
    apply (never_terminates (fun fuel => getModuleRoot moduleData fuel pageId)).
    intros Hsn%getModuleRoot_terminates_iff. by eapply sn_no_cycle.
  - intros pageId Hcycle.
    apply (never_terminates (fun fuel => getChildPathIds moduleData fuel pageId)).
    intros Hsn%getChildPathIds_terminates_iff. by eapply sn_no_cycle.
  - apply getModuleRoot_terminates_iff.
  - apply getChildPathIds_terminates_iff.
Qed.

Lemma ranked_irreflexive {A} (R : relation A) (rank : A → nat) :
  (∀ x y, R x y → rank y < rank x) → Irreflexive (tc R).
Proof.
  intros Hrank x Hcycle.
  assert (Hlt : ∀ a b, tc R a b → rank b < rank a).
  { induction 1 as [a b Hab|a b c Hab _ IH]; [by apply Hrank|].
    specialize (Hrank a b Hab). lia. }
  specialize (Hlt x x Hcycle). lia.
Qed.

Module SampleFacts.

Lemma lookup_cases pageId node :
  Sample.moduleData !! pageId = Some node →
  (pageId, node) ∈
    [("modules", Sample.node None (Some ["m"]) None None);
     ("m", Sample.node (Some "modules") (Some ["m/u1"; "m/u2"]) None (Some (10, 10)%Z));
     ("m/u1", Sample.node (Some "m") None (Some (5, 5)%Z) None);
     ("m/u2", Sample.node (Some "m") None (Some (5, 5)%Z) None)].
Proof. apply elem_of_list_to_map_2. Qed.

Ltac cases H :=
  apply lookup_cases in H;
  repeat (apply elem_of_cons in H as [H|H]); [..|by apply not_elem_of_nil in H];
  injection H as -> ->.

Lemma ascends_acyclic : Irreflexive (tc (ascends Sample.moduleData)).
Proof.
  apply (ranked_irreflexive _ String.length).
  intros x y (node & Hnode & Hp & _ & Hm). cases Hnode; simpl in Hp;
    try discriminate; injection Hp as <-; try done; simpl; lia.
Qed.

Lemma descends_acyclic : Irreflexive (tc (descends Sample.moduleData)).
Proof.
  apply (ranked_irreflexive _ Sample.depthRank).
  intros x y (node & chs & Hnode & Hchs & Hin). cases Hnode; simpl in Hchs;
    try discriminate; injection Hchs as <-;
    repeat (apply elem_of_cons in Hin as [->|Hin]);
    try (by apply not_elem_of_nil in Hin); vm_compute; lia.
Qed.

Lemma parent_closed : ParentClosed Sample.moduleData.
Proof.
  intros x node p Hnode Hp _. cases Hnode; simpl in Hp;
    try discriminate; injection Hp as <-; by eexists.
Qed.

End SampleFacts.

Module CyclicFacts.

Lemma ascends_cycle : tc (ascends Cyclic.moduleData) "a" "a".
Proof.
  apply tc_l with "b"; [|apply tc_once]; eexists; by split_and!.
Qed.

Lemma descends_cycle : tc (descends Cyclic.moduleData) "a" "a".
Proof.
  apply tc_l with "b"; [|apply tc_once]; eexists _, _;
    (split_and!; [reflexivity..|apply list_elem_of_here]).
Qed.

End CyclicFacts.

Lemma traversals_terminate_iff_acyclic_witness :
  (∀ pageId, terminates (fun fuel => getModuleRoot Sample.moduleData fuel pageId))
  ∧ (∀ pageId, terminates (fun fuel => getChildPathIds Sample.moduleData fuel pageId))
  ∧ (∀ fuel, getModuleRoot Cyclic.moduleData fuel "a" = OutOfFuel)
  ∧ (∀ fuel, getChildPathIds Cyclic.moduleData fuel "a" = OutOfFuel).
Proof.
  split_and!.
  - apply (proj1 (proj2 (traversals_terminate_iff_acyclic Sample.moduleData))).
    exact SampleFacts.ascends_acyclic.
  - apply (traversals_terminate_iff_acyclic Sample.moduleData).
    exact SampleFacts.descends_acyclic.
  - apply (traversals_terminate_iff_acyclic Cyclic.moduleData).
    exact CyclicFacts.ascends_cycle.
  - apply (traversals_terminate_iff_acyclic Cyclic.moduleData).
    exact CyclicFacts.descends_cycle.
Defined.

(** ** Records under a page *)

Lemma truthy_nonempty (x : string) : x ≠ EmptyString → JS.truthy (Some x) = true.
Proof. intros H. simpl. by destruct (String.eqb_spec x EmptyString). Qed.

Lemma keyMatches_underPage (pageId key : string) :
  keyMatches pageId key = true ↔ underPage pageId key.
Proof.
  unfold underPage. revert key. induction pageId as [|a pageId IH]; intros key.
  - destruct key as [|c rest]; simpl.
    + split; [by left|done].
    + rewrite !andb_true_iff, bool_decide_eq_true, negb_true_iff. split.
      * intros [[-> Hrest] Hline]. right. exists rest. split; [done|].
        split; [|done]. intros ->. by rewrite String.eqb_refl in Hrest.
      * intros [[=]|(rest' & [= -> ->] & Hrest & Hline)].
        split; [split; [done|]|done].
        by apply String.eqb_neq.
  - destruct key as [|b key]; simpl.
    + split; [done|]. by intros [[=]|(rest & [=] & _)].
    + rewrite andb_true_iff, IH. split.
      * intros [->%Ascii.eqb_eq [->|(rest & -> & Hrest & Hline)]]; [by left|].
        right. by exists rest.
      * intros [[= -> ->]|(rest & [= -> ->] & Hrest & Hline)].
        -- split; [apply Ascii.eqb_refl|by left].
        -- split; [apply Ascii.eqb_refl|]. right. by exists rest.
Qed.

Lemma get_filter_keys {V} (keep : string → bool) (o : JS.Obj V) (k : string) :
  JS.get (List.filter (fun kv => keep kv.1) o) k = if keep k then JS.get o k else None.
Proof.
  induction o as [|[k' v] o IH]; simpl; [by destruct (keep k)|].
  destruct (keep k') eqn:Hk'; simpl.
  - destruct (String.eqb_spec k' k) as [->|Hne]; [by rewrite Hk'|exact IH].
  - rewrite IH. destruct (String.eqb_spec k' k) as [->|Hne]; [by rewrite Hk'|done].
Qed.

Lemma wildcard_view (value : ProgressState) (learningType : LearningType)
    (pageId : string) :
  pageId ≠ EmptyString →
  ∃ matched,
    getUserProgressData value (Some learningType) (Some pageId) true = TypeMap matched
    ∧ ∀ key r,
        JS.get matched key = Some r
        ↔ recordAt value (propertyKey (Some learningType)) key = Some r
          ∧ underPage pageId key.
Proof.
  intros Hne. eexists. split.
  - unfold getUserProgressData. rewrite (truthy_nonempty pageId Hne). reflexivity.
  - intros key r. rewrite get_filter_keys. unfold recordAt.
    change (default EmptyString (Some pageId)) with pageId.
    destruct (keyMatches pageId key) eqn:Hkey.
    + apply keyMatches_underPage in Hkey.
      split; [intros H; split; [exact H|done]|intros [H _]; exact H].
    + split; [done|]. intros [_ Hunder%keyMatches_underPage]. congruence.
Qed.

Lemma keys_filter {V} (keep : string → bool) (o : JS.Obj V) :
  JS.keys (List.filter (fun kv => keep kv.1) o) = List.filter keep (JS.keys o).
Proof.
  induction o as [|[k v] o IH]; simpl; [done|].
  destruct (keep k); simpl; by rewrite IH.
Qed.

Lemma NoDup_List_filter {A} (keep : A → bool) (l : list A) :
  NoDup l → NoDup (List.filter keep l).
Proof.
  induction 1 as [|x l Hx Hl IH]; simpl; [constructor|].
  destruct (keep x); [|done]. constructor; [|done].
  rewrite list_elem_of_In, filter_In, <- list_elem_of_In. tauto.
Qed.

Lemma elem_of_List_filter {A} (keep : A → bool) (l : list A) (x : A) :
  x ∈ List.filter keep l ↔ x ∈ l ∧ keep x = true.
Proof. by rewrite !list_elem_of_In, filter_In. Qed.

Lemma elem_of_keys {V} (o : JS.Obj V) (k : string) :
  k ∈ JS.keys o ↔ is_Some (JS.get o k).
Proof.
  split; [apply keys_get_Some|].
  induction o as [|[k0 v0] o IH]; simpl; [by intros [? ?]|].
  destruct (String.eqb_spec k0 k) as [->|Hne]; [intros _; apply list_elem_of_here|].
  intros H. apply list_elem_of_further. by apply IH.
Qed.

(** The list [getModuleProgress] takes the length of holds the completed
    unit records under the module that are on the path, each once. *)
Lemma completedInPath_counts (value : ProgressState) (moduleId : string)
    (activePathIds : list string) :
  moduleId ≠ EmptyString →
  NoDup (JS.keys (JS.get_or value "units" [])) →
  countsCompleted value moduleId activePathIds
    (completedInPath value (Some moduleId) activePathIds).
Proof.
  intros Hne Hkeys.
  destruct (wildcard_view value units moduleId Hne) as (matched & Hview & Hmatched).
  assert (matched = List.filter (fun kv => keyMatches moduleId kv.1)
                      (JS.get_or value "units" [])) as Hfilter.
  { revert Hview. unfold getUserProgressData. rewrite (truthy_nonempty moduleId Hne).
    by intros [= <-]. }
  unfold countsCompleted, completedInPath. rewrite Hview. cbn [viewMap]. split.
  - do 2 apply NoDup_List_filter. rewrite Hfilter, keys_filter.
    by apply NoDup_List_filter.
  - intros key. rewrite !elem_of_List_filter, elem_of_keys, bool_decide_eq_true.
    unfold completedOnPath. split.
    + intros [[[r Hr] Hdone] Hpath].
      unfold JS.get_or in Hdone. rewrite Hr in Hdone. simpl in Hdone.
      apply Hmatched in Hr as [Hrecord Hunder]. split; [by exists r|done].
    + intros ((r & Hrecord & Hdone) & Hunder & Hpath).
      assert (JS.get matched key = Some r) as Hr by (by apply Hmatched).
      split; [split; [by exists r|]|done].
      unfold JS.get_or. by rewrite Hr.
Qed.

Lemma getModuleRoot_None (moduleData : gmap string ContentNode) fuel pageId :
  getModuleRoot moduleData fuel pageId = Ok None ↔ moduleData !! pageId = None.
Proof.
  unfold getModuleRoot. destruct (moduleData !! pageId) as [node|] eqn:Hnode; [|done].
  split; [|done]. intros H. exfalso. revert pageId node Hnode H.
  induction fuel as [|fuel IH]; intros pageId node Hnode; simpl;
    destruct (JS.truthy (parent node)
              && negb (bool_decide (parent node = Some "modules"))) eqn:Hcond;
    try done.
  destruct (moduleData !! default EmptyString (parent node)) as [node'|] eqn:Hnode';
    [by apply IH|by destruct fuel].
Qed.

(** ** The progress of a module *)

Section ProgressFacts.

Variable moduleData : gmap string ContentNode.
Variable value : ProgressState.

Lemma linked_finite pageId : pred_finite (tc (linked moduleData) pageId).
Proof.
  exists (omap (fun kv => parent kv.2) (map_to_list moduleData)).
  intros p Hp. apply tc_last_step in Hp as (q & node & Hnode & Hparent & _).
  apply list_elem_of_omap. exists (q, node). split; [|done].
  by apply elem_of_map_to_list.
Qed.

Lemma truthy_Some (v : option string) :
  JS.truthy v = true → ∃ p, v = Some p ∧ JS.truthy (Some p) = true.
Proof. destruct v as [p|]; [by exists p|done]. Qed.

Lemma ancestors_loop_stops parent_ ids fuel :
  JS.truthy parent_ = false → ancestors_loop moduleData fuel parent_ ids = Ok ids.
Proof. intros H. destruct fuel; simpl; by rewrite H. Qed.

Lemma ancestors_loop_eventually p :
  sn (linked moduleData) p →
  eventually (fun fuel => ∀ ids, ancestors_loop moduleData fuel (Some p) ids ≠ OutOfFuel).
Proof.
  induction 1 as [p _ IH].
  destruct (JS.truthy (Some p) && negb (bool_decide (Some p = Some "modules"))) eqn:Hcond;
    [|apply eventually_always; intros fuel ids; destruct fuel; simpl in *; by rewrite Hcond].
  destruct (moduleData !! p) as [node|] eqn:Hnode.
  - destruct (JS.truthy (parent node)) eqn:Ht.
    + destruct (truthy_Some _ Ht) as (q & Hq & Htq).
      assert (Hstep : (linked moduleData) p q) by (by exists node).
      eapply eventually_impl; [|apply eventually_S, (IH q Hstep)].
      intros [|fuel]; [done|]. intros Hnext ids. simpl in *.
      rewrite Hcond, Hnode, Hq. apply Hnext.
    + exists 1. intros [|fuel] ? ids; [lia|]. simpl in *.
      rewrite Hcond, Hnode. by rewrite ancestors_loop_stops.
  - exists 1. intros [|fuel] ? ids; [lia|]. simpl in *. by rewrite Hcond, Hnode.
Qed.

Lemma parentTime_loop_stops parent_ baseTimeRange fuel :
  JS.truthy parent_ = false →
  parentTime_loop moduleData fuel parent_ baseTimeRange = Ok baseTimeRange.
Proof. intros H. destruct fuel; simpl; by rewrite H. Qed.

Lemma parentTime_loop_eventually p :
  sn (linked moduleData) p →
  eventually (fun fuel =>
    ∀ baseTimeRange, parentTime_loop moduleData fuel (Some p) baseTimeRange ≠ OutOfFuel).
Proof.
  induction 1 as [p _ IH].
  destruct (JS.truthy (Some p) && negb (bool_decide (Some p = Some "modules"))) eqn:Hcond;
    [|apply eventually_always; intros fuel base; destruct fuel; simpl in *; by rewrite Hcond].
  destruct (moduleData !! p) as [node|] eqn:Hnode.
  - destruct (JS.truthy (parent node)) eqn:Ht.
    + destruct (truthy_Some _ Ht) as (q & Hq & Htq).
      assert (Hstep : (linked moduleData) p q) by (by exists node).
      eapply eventually_impl; [|apply eventually_S, (IH q Hstep)].
      intros [|fuel]; [done|]. intros Hnext base. simpl in *.
      rewrite Hcond, Hnode, Hq. apply Hnext.
    + exists 1. intros [|fuel] ? base; [lia|]. simpl in *.
      rewrite Hcond, Hnode. by rewrite parentTime_loop_stops.
  - exists 1. intros [|fuel] ? base; [lia|]. simpl in *. by rewrite Hcond, Hnode.
Qed.

Lemma ancestors_loop_nonempty fuel parent_ ids r :
  ancestors_loop moduleData fuel parent_ ids = Ok r → ids ≠ [] → r ≠ [].
Proof.
  revert parent_ ids. induction fuel as [|fuel IH]; intros parent_ ids; simpl;
    destruct (JS.truthy parent_ && _); try done; try congruence.
  destruct (moduleData !! default EmptyString parent_) as [node|]; [|done].
  intros Hrun _. by eapply IH.
Qed.

Lemma getActivePathIds_nonempty fuel activeItemId ids :
  is_Some (moduleData !! activeItemId) →
  getActivePathIds moduleData fuel activeItemId = Ok ids → ids ≠ [].
Proof.
  intros [node Hnode]. unfold getActivePathIds. rewrite Hnode.
  destruct (childRootOf moduleData activeItemId node) as [childRoot| |]; [|done..].
  simpl.
  destruct (match moduleData !! childRoot with Some _ => _ | None => _ end)
    as [anc| |] eqn:Hanc; [|done..].
  simpl. destruct (getChildPathIds moduleData fuel childRoot) as [sub| |]; [|done..].
  simpl. intros [= <-].
  assert (anc ≠ []) as Hne.
  { destruct (moduleData !! childRoot) as [cnode|]; [|by injection Hanc as <-].
    destruct (JS.truthy (parent cnode)); [|by injection Hanc as <-].
    by eapply ancestors_loop_nonempty. }
  destruct anc; [done|]. done.
Qed.

Lemma getActivePathIds_empty fuel activeItemId :
  getActivePathIds moduleData fuel activeItemId = Ok [] → moduleData !! activeItemId = None.
Proof.
  intros Hrun. destruct (moduleData !! activeItemId) as [node|] eqn:Hnode; [|done].
  by destruct (getActivePathIds_nonempty fuel activeItemId []).
Qed.

End ProgressFacts.

Lemma clampPercent_Fin (q : Q) :
  ∃ n : Z, clampPercent (JS.Fin q) = JS.Fin (inject_Z n) ∧ (0 ≤ n ≤ 100)%Z.
Proof.
  unfold clampPercent. cbn [JS.Math_round].
  set (k := Qfloor (q + (1 # 2))%Q). cbn [JS.Math_max].
  destruct (Qle_bool 0 (inject_Z k)) eqn:Hlow; cbn [JS.Math_min].
  - apply Qle_bool_iff in Hlow. change 0%Q with (inject_Z 0) in Hlow.
    rewrite <- Zle_Qle in Hlow.
    destruct (Qle_bool 100 (inject_Z k)) eqn:Hhigh.
    + exists 100%Z. split; [reflexivity|lia].
    + exists k. split; [reflexivity|]. split; [done|].
      destruct (Z_le_gt_dec 100 k) as [Hle|Hgt]; [|lia].
      rewrite (Zle_Qle 100 k) in Hle. apply Qle_bool_iff in Hle.
      change (inject_Z 100) with 100%Q in Hle. congruence.
  - exists 0%Z. split; [reflexivity|lia].
Qed.

Lemma div_by_nonzero (a b : Q) : Qeq_bool b 0 = false → JS.div a b = JS.Fin (a / b)%Q.
Proof. intros H. unfold JS.div. by rewrite H. Qed.

Lemma length_nonzero {A} (l : list A) :
  l ≠ [] → Qeq_bool (inject_Z (Z.of_nat (length l))) 0 = false.
Proof. destruct l; [done|]. intros _. reflexivity. Qed.

Section ProgressRange.

Variable moduleData : gmap string ContentNode.
Variable value : ProgressState.

Lemma parentTime_loop_no_estimates fuel parent_ baseTimeRange r :
  NoEstimates moduleData →
  parentTime_loop moduleData fuel parent_ baseTimeRange = Ok r → r = baseTimeRange.
Proof.
  intros Hno. revert parent_ baseTimeRange.
  induction fuel as [|fuel IH]; intros parent_ base; simpl;
    destruct (JS.truthy parent_ && _); try done; try congruence.
  destruct (moduleData !! default EmptyString parent_) as [node|] eqn:Hnode; [|done].
  destruct (Hno _ _ Hnode) as [-> _]. apply IH.
Qed.

(** How a result of [getModuleProgress] comes about. *)
Lemma getModuleProgress_cases fuel pageId r :
  getModuleProgress moduleData value fuel pageId = Ok r →
  (moduleData !! pageId = None ∧ r = JS.Fin 0)
  ∨ ∃ pageData activePathIds,
      moduleData !! pageId = Some pageData
      ∧ getActivePathIds moduleData fuel (activeItemIdOf value pageId pageData)
          = Ok activePathIds
      ∧ ((activePathIds = [] ∧ r = JS.Fin 0)
         ∨ (activePathIds ≠ []
            ∧ ∃ moduleId,
                getModuleRoot moduleData fuel pageId = Ok moduleId
                ∧ ∃ q, r = clampPercent (JS.Fin q))).
Proof.
  unfold getModuleProgress.
  destruct (moduleData !! pageId) as [pageData|] eqn:Hpage; [|intros [= <-]; by left].
  intros Hrun. right. exists pageData.
  set (activeItemId := activeItemIdOf value pageId pageData) in *.
  destruct (getActivePathIds moduleData fuel activeItemId) as [activePathIds| |] eqn:Hpath;
    [|done..].
  exists activePathIds. split_and!; [done..|]. simpl in Hrun.
  destruct (moduleData !! activeItemId) as [node|] eqn:Hnode.
  - right.
    assert (Hne : activePathIds ≠ []).
    { eapply getActivePathIds_nonempty; [|exact Hpath]. by rewrite Hnode. }
    split; [exact Hne|].
    destruct (childRootOf moduleData activeItemId node) as [childRoot| |]; [|done..].
    simpl in Hrun.
    destruct (moduleData !! childRoot) as [rootData|] eqn:Hroot; [|done].
    destruct (if JS.truthy (parent rootData) then _ else _) as [baseTimeRange| |] eqn:Hbase;
      [|done..].
    simpl in Hrun.
    destruct (getModuleRoot moduleData fuel pageId) as [moduleId| |]; [|done..].
    simpl in Hrun. exists moduleId. split; [done|].
    destruct (Qeq_bool (rangeAvg baseTimeRange) 0) eqn:Havg; simpl in Hrun;
      injection Hrun as <-.
    + rewrite div_by_nonzero by by apply length_nonzero. by eexists.
    + rewrite div_by_nonzero by done. by eexists.
  - left. injection Hrun as <-. split; [|done].
    destruct activePathIds as [|x l]; [done|].
    destruct (decide (x :: l = [])) as [|Hne]; [done|].
    exfalso. revert Hpath. unfold getActivePathIds. rewrite Hnode. done.
Qed.

Lemma getModuleProgress_range fuel pageId r :
  getModuleProgress moduleData value fuel pageId = Ok r →
  ∃ n : Z, r = JS.Fin (inject_Z n) ∧ (0 ≤ n ≤ 100)%Z.
Proof.
  intros Hrun. assert (Hzero : ∃ n : Z, JS.Fin 0 = JS.Fin (inject_Z n) ∧ (0 ≤ n ≤ 100)%Z).
  { exists 0%Z. split; [reflexivity|lia]. }
  destruct (getModuleProgress_cases fuel pageId r Hrun)
    as [[_ ->]|(pageData & ids & _ & _ & [[_ ->]|(_ & moduleId & _ & [q ->])])];
    [done..|apply clampPercent_Fin].
Qed.

End ProgressRange.

Section ProgressCases.

Variable moduleData : gmap string ContentNode.
Variable value : ProgressState.

Lemma baseTimeRangeOf_no_estimates fuel rootData childRoot baseTimeRange :
  NoEstimates moduleData → moduleData !! childRoot = Some rootData →
  baseTimeRangeOf moduleData fuel rootData = Ok baseTimeRange →
  baseTimeRange = (0, 0)%Z.
Proof.
  intros Hno Hroot. unfold baseTimeRangeOf.
  destruct (Hno _ _ Hroot) as [_ ->]. simpl.
  destruct (JS.truthy (parent rootData)); [|by intros [= <-]].
  by apply parentTime_loop_no_estimates.
Qed.

(** How [getModuleProgress] arrives at its result for an item of the
    catalog: the path, the base time, and the count it falls back on when
    the base time is zero. *)
Lemma getModuleProgress_fallback fuel pageId pageData r :
  moduleData !! pageId = Some pageData →
  getModuleProgress moduleData value fuel pageId = Ok r →
  ∃ activePathIds,
    getActivePathIds moduleData fuel (activeItemIdOf value pageId pageData)
      = Ok activePathIds
    ∧ (activePathIds = [] → r = JS.Fin 0)
    ∧ (activePathIds ≠ [] →
       ∃ moduleId baseTimeRange,
         getModuleRoot moduleData fuel pageId = Ok (Some moduleId)
         ∧ baseTimeOf moduleData fuel (activeItemIdOf value pageId pageData)
             baseTimeRange
         ∧ (NoEstimates moduleData → baseTimeRange = (0, 0)%Z)
         ∧ (Qeq_bool (rangeAvg baseTimeRange) 0 = true →
            r = clampPercent
                  (JS.div
                     (100 * inject_Z
                              (Z.of_nat
                                 (length (completedInPath value (Some moduleId)
                                            activePathIds))))
                     (inject_Z (Z.of_nat (length activePathIds)))))).
Proof.
  intros Hpage. unfold getModuleProgress. rewrite Hpage.
  set (activeItemId := activeItemIdOf value pageId pageData) in *.
  destruct (getActivePathIds moduleData fuel activeItemId) as [activePathIds| |] eqn:Hpath;
    [|done..].
  simpl. intros Hrun. exists activePathIds. split; [done|].
  destruct (moduleData !! activeItemId) as [node|] eqn:Hnode.
  - split.
    { intros ->. by apply getActivePathIds_empty in Hpath; rewrite Hpath in Hnode. }
    intros _.
    destruct (childRootOf moduleData activeItemId node) as [childRoot| |] eqn:Hchild;
      [|done..].
    simpl in Hrun.
    destruct (moduleData !! childRoot) as [rootData|] eqn:Hroot; [|done].
    fold (baseTimeRangeOf moduleData fuel rootData) in Hrun.
    destruct (baseTimeRangeOf moduleData fuel rootData) as [baseTimeRange| |] eqn:Hbase;
      [|done..].
    simpl in Hrun.
    destruct (getModuleRoot moduleData fuel pageId) as [[moduleId|]| |] eqn:Hmr;
      [| |done..].
    + exists moduleId, baseTimeRange. split; [done|].
      split; [by exists node, childRoot, rootData|].
      split; [intros Hno; by eapply baseTimeRangeOf_no_estimates|].
      intros Havg. rewrite Havg in Hrun. simpl in Hrun.
      by injection Hrun as <-.
    + apply getModuleRoot_None in Hmr. congruence.
  - injection Hrun as <-. split; [done|]. intros Hne. exfalso.
    revert Hpath. unfold getActivePathIds. rewrite Hnode. by intros [= <-].
Qed.

End ProgressCases.

Section ProgressTotal.

Variable moduleData : gmap string ContentNode.
Variable value : ProgressState.

Hypothesis closed : ParentClosed moduleData.
Hypothesis parents_acyclic : Irreflexive (tc (linked moduleData)).
Hypothesis children_acyclic : Irreflexive (tc (descends moduleData)).

Lemma linked_sn p : sn (linked moduleData) p.
Proof. apply tc_finite_sn; [done|apply linked_finite]. Qed.

Lemma not_stuck_Ok {A} (o : Outcome A) : o ≠ OutOfFuel → o ≠ Fault → ∃ a, o = Ok a.
Proof. destruct o; [by eexists|done..]. Qed.

Lemma ancestors_eventually (node : ContentNode) (ids : list string) pageId :
  moduleData !! pageId = Some node →
  eventually (fun fuel =>
    ∃ r, (if JS.truthy (parent node)
          then ancestors_loop moduleData fuel (parent node) ids
          else Ok ids) = Ok r).
Proof.
  intros Hnode. destruct (JS.truthy (parent node)) eqn:Ht;
    [|apply eventually_always; by eexists].
  destruct (truthy_Some _ Ht) as (q & Hq & _).
  eapply eventually_impl; [|apply (ancestors_loop_eventually moduleData q (linked_sn q))].
  intros fuel Hrun. rewrite Hq. apply not_stuck_Ok; [apply Hrun|].
  rewrite <- Hq. apply ancestors_loop_no_fault; [done|].
  by eapply knownParent_of_node.
Qed.

Lemma parentTime_eventually (node : ContentNode) (baseTimeRange : Z * Z) pageId :
  moduleData !! pageId = Some node →
  eventually (fun fuel =>
    ∃ r, (if JS.truthy (parent node)
          then parentTime_loop moduleData fuel (parent node) baseTimeRange
          else Ok baseTimeRange) = Ok r).
Proof.
  intros Hnode. destruct (JS.truthy (parent node)) eqn:Ht;
    [|apply eventually_always; by eexists].
  destruct (truthy_Some _ Ht) as (q & Hq & _).
  eapply eventually_impl; [|apply (parentTime_loop_eventually moduleData q (linked_sn q))].
  intros fuel Hrun. rewrite Hq. apply not_stuck_Ok; [apply Hrun|].
  rewrite <- Hq. apply parentTime_loop_no_fault; [done|].
  by eapply knownParent_of_node.
Qed.

Lemma getModuleRoot_eventually pageId :
  eventually (fun fuel => ∃ r, getModuleRoot moduleData fuel pageId = Ok r).
Proof.
  assert (Hsn : sn (ascends moduleData) pageId).
  { apply tc_finite_sn; [by apply linked_acyclic_ascends|apply ascends_finite]. }
  eapply eventually_impl; [|apply (sn_getModuleRoot_loop moduleData pageId Hsn)].
  intros fuel Hrun. apply not_stuck_Ok; [by apply getModuleRoot_as_loop|].
  by apply getModuleRoot_no_fault.
Qed.

Lemma getActivePathIds_eventually activeItemId :
  eventually (fun fuel => ∃ ids, getActivePathIds moduleData fuel activeItemId = Ok ids).
Proof.
  unfold getActivePathIds.
  destruct (moduleData !! activeItemId) as [node|] eqn:Hnode;
    [|apply eventually_always; by eexists].
  destruct (childRootOf_known moduleData activeItemId node closed Hnode)
    as (childRoot & -> & [cnode Hcnode]).
  simpl. rewrite Hcnode.
  eapply eventually_impl;
    [|apply eventually_and;
       [apply (ancestors_eventually cnode [childRoot] childRoot Hcnode)
       |apply (sn_getChildPathIds moduleData childRoot)]].
  - intros fuel [[anc ->] [sub ->]]. by eexists.
  - apply tc_finite_sn; [done|apply descends_finite].
Qed.

Lemma getModuleProgress_eventually pageId :
  eventually (fun fuel => ∃ r, getModuleProgress moduleData value fuel pageId = Ok r).
Proof.
  unfold getModuleProgress.
  destruct (moduleData !! pageId) as [pageData|] eqn:Hpage;
    [|apply eventually_always; by eexists].
  set (activeItemId := activeItemIdOf value pageId pageData).
  destruct (moduleData !! activeItemId) as [node|] eqn:Hnode.
  - destruct (childRootOf_known moduleData activeItemId node closed Hnode)
      as (childRoot & -> & [rootData Hroot]).
    simpl. rewrite Hroot.
    eapply eventually_impl;
      [|apply eventually_and;
         [apply (getActivePathIds_eventually activeItemId)
         |apply eventually_and;
            [apply (parentTime_eventually rootData
                      (default (0, 0)%Z (remaining rootData)) childRoot Hroot)
            |apply (getModuleRoot_eventually pageId)]]].
    intros fuel ([ids ->] & [base ->] & [moduleId ->]). simpl.
    destruct (negb _); by eexists.
  - eapply eventually_impl; [|apply (getActivePathIds_eventually activeItemId)].
    intros fuel [ids ->]. simpl. by eexists.
Qed.

End ProgressTotal.



Lemma sample_linked_acyclic : Irreflexive (tc (linked Sample.moduleData)).
Proof.
  apply (ranked_irreflexive _ (fun pageId => 4 - Sample.depthRank pageId)).
  intros x y (node & Hnode & Hp & _). SampleFacts.cases Hnode; simpl in Hp;
    try discriminate; injection Hp as <-; vm_compute; lia.
Qed.

Lemma sample_literal_ids : LiteralIds Sample.moduleData.
Proof. intros id [node Hnode]. SampleFacts.cases Hnode; reflexivity. Qed.

Lemma sample_exact_estimates : ExactEstimates Sample.moduleData.
Proof.
  intros id node range Hnode Hrange.
  SampleFacts.cases Hnode; destruct Hrange as [[=]|[=]]; subst range; simpl; lia.
Qed.


(** The sample module: half of its estimated time once the first unit is
    completed, all of it once both are; and the count of completed units
    over the length of the path where there is no estimate. *)
Example progress_of_sample_module :
  getModuleProgress Sample.moduleData
    [("units", [("m/u1", CascadeSample.progressed None (Some "2017-06-01T10:00:00.000Z"))])]
    4 "m/u1" = Ok (JS.Fin 50)
  ∧ getModuleProgress Sample.moduleData CascadeSample.value 4 "m/u2" = Ok (JS.Fin 100)
  ∧ getModuleProgress Dangling.moduleData
      [("units", [("m/u", CascadeSample.progressed None (Some "2017-06-01T10:00:00.000Z"))])]
      4 "m/u" = Ok (JS.Fin 50).
Proof. vm_compute. done. Qed.

(** ** Identifiers outside the catalog *)

Lemma getLearningType_returns dataTree fuel pageId root :
  getModuleRoot (tree_modules dataTree) fuel pageId = Ok root →
  ∃ learningType, getLearningType dataTree fuel pageId = Ok learningType.
Proof.
  intros Hroot. unfold getLearningType. rewrite Hroot. simpl.
  repeat (destruct (bool_decide _) || destruct (JS.truthy _) || destruct (_ || _));
    by eexists.
Qed.

(** C5, counterexample to the specification: a module root of a catalog
    without a node for the root sentinel makes [getActivePathIds] and
    [getModuleProgress] fault, and a unit whose parent is missing makes
    [getModuleRoot] and [getLearningType] fault. *)
Lemma dangling_parent_faults :
  getActivePathIds Dangling.moduleData 1 "m" = Fault
  ∧ getModuleProgress Dangling.moduleData [] 1 "m" = Fault
  ∧ getModuleRoot Dangling.moduleData 1 "x/u" = Fault
  ∧ getLearningType Dangling.dataTree 1 "x/u" = Fault.
Proof. vm_compute. done. Qed.

(** C5, as the code has it: an identifier that is absent from the module
    tree and is no member of [Object.prototype] gets the safe defaults for
    every fuel (none, the empty path, 0, and none as its type unless it
    names a track); and on a catalog in which every parent a node names is
    itself a node, neither the parent links nor the child links form a
    cycle and the identifiers are matched character by character, the
    classification and progress functions return for every identifier
    that is no member of [Object.prototype], for every fuel from some point
    on: they neither throw nor run on. *)
Theorem unknown_identifier_safe_defaults (dataTree : DataTree)
    (value : ProgressState) (fuel : nat) (pageId : string) :
  tree_modules dataTree !! pageId = None →
  JS.inherited pageId = false →
  (getModuleRoot (tree_modules dataTree) fuel pageId = Ok None
   ∧ getActivePathIds (tree_modules dataTree) fuel pageId = Ok []
   ∧ getModuleProgress (tree_modules dataTree) value fuel pageId = Ok (JS.Fin 0)
   ∧ getLearningType dataTree fuel pageId
       = Ok (if bool_decide (pageId = "modules") || bool_decide (pageId = "tracks") then None
             else if bool_decide (is_Some (JS.get (tree_tracks dataTree) pageId))
                  then Some tracks else None))
  ∧ (ParentClosed (tree_modules dataTree) →
     Irreflexive (tc (linked (tree_modules dataTree))) →
     Irreflexive (tc (descends (tree_modules dataTree))) →
     LiteralIds (tree_modules dataTree) →
     ∀ anyId,
       JS.inherited anyId = false →
       eventually (fun enough =>
         ∃ root path progress learningType,
           getModuleRoot (tree_modules dataTree) enough anyId = Ok root
           ∧ getActivePathIds (tree_modules dataTree) enough anyId = Ok path
           ∧ getModuleProgress (tree_modules dataTree) value enough anyId = Ok progress
           ∧ getLearningType dataTree enough anyId = Ok learningType)).
Proof.
  intros Hunknown _. split.
  - destruct (unknown_defaults (tree_modules dataTree) value fuel pageId Hunknown)
      as (Hroot & Hpath & Hprogress).
    split_and!; [done..|].
    unfold getLearningType. rewrite Hroot. simpl.
    destruct (_ || _); [done|]. by destruct (bool_decide _).
  - intros Hclosed Hparents Hchildren _ anyId _.
    eapply eventually_impl;
      [|apply eventually_and;
         [apply (getModuleRoot_eventually _ Hclosed Hparents anyId)
         |apply eventually_and;
            [apply (getActivePathIds_eventually _ Hclosed Hparents Hchildren anyId)
            |apply (getModuleProgress_eventually _ value Hclosed Hparents Hchildren
                      anyId)]]].
    intros enough ([root Hroot] & [path Hpath] & [progress Hprogress]).
    destruct (getLearningType_returns dataTree enough anyId root Hroot)
      as [learningType Htype].
    by exists root, path, progress, learningType.
Qed.

Lemma unknown_identifier_safe_defaults_witness :
  (getModuleRoot Sample.moduleData 4 "m/unknown" = Ok None
   ∧ getActivePathIds Sample.moduleData 4 "m/unknown" = Ok []
   ∧ getModuleProgress Sample.moduleData CascadeSample.value 4 "m/unknown" = Ok (JS.Fin 0)
   ∧ getLearningType Sample.dataTree 4 "m/unknown" = Ok None)
  ∧ eventually (fun enough =>
      ∃ root path progress learningType,
        getModuleRoot Sample.moduleData enough "m/u1" = Ok root
        ∧ getActivePathIds Sample.moduleData enough "m/u1" = Ok path
        ∧ getModuleProgress Sample.moduleData CascadeSample.value enough "m/u1"
          = Ok progress
        ∧ getLearningType Sample.dataTree enough "m/u1" = Ok learningType).
Proof.
  destruct (unknown_identifier_safe_defaults Sample.dataTree CascadeSample.value 4
              "m/unknown") as [(Hroot & Hpath & Hprogress & Htype) Hreturns].
  { vm_compute. reflexivity. }
  { reflexivity. }
  split.
  - split_and!; [exact Hroot|exact Hpath|exact Hprogress|].
    rewrite Htype. vm_compute. reflexivity.
  - apply Hreturns.
    + exact SampleFacts.parent_closed.
    + exact sample_linked_acyclic.
    + exact SampleFacts.descends_acyclic.
    + exact sample_literal_ids.
    + reflexivity.
Defined.

(** ** The last accessed record *)

(** What the code computes as the touch time: the later timestamp when both
    are set, and [undefined] as soon as one is missing, because [sort()]
    puts [undefined] last and [reverse()] then brings it to the front. *)
Lemma touchDate_both (r : Learning) :
  is_Some (started_at r) → is_Some (completed_at r) → touchDate r = specTouchTime r.
Proof.
  intros [a Ha] [b Hb].
  unfold touchDate, specTouchTime, JS.Array_sort_default, JS.Array_sort. rewrite Ha, Hb.
  simpl. unfold JS.default_compare, String.ltb.
  destruct (String.compare a b) eqn:Hcmp; simpl; try done.
  by apply String.compare_eq_iff in Hcmp as ->.
Qed.

Lemma touchDate_single (r : Learning) :
  started_at r = None ∨ completed_at r = None → touchDate r = None.
Proof.
  unfold touchDate, JS.Array_sort_default, JS.Array_sort.
  intros [->| ->]; destruct (started_at r), (completed_at r); reflexivity.
Qed.

Lemma ltb_not_le (x y : string) : String.ltb y x = negb (String.leb x y).
Proof.
  unfold String.ltb, String.leb. rewrite (String.compare_antisym x y).
  by destruct (String.compare y x).
Qed.

Section InsertionSort.

Context {A : Type} (comparefn : A → A → Z) (R : A → A → Prop) (P : A → Prop).

Hypothesis walks : ∀ tmp element, P tmp → P element →
  (0 <? comparefn tmp element)%Z = true ↔ R tmp element.
Hypothesis total : ∀ x y, P x → P y → R x y ∨ R y x.
Hypothesis trans : ∀ x y z, P x → P y → P z → R x y → R y z → R x z.

Lemma sort_insert_elem element rprefix y :
  y ∈ JS.sort_insert comparefn element rprefix ↔ y = element ∨ y ∈ rprefix.
Proof.
  induction rprefix as [|tmp rest IH]; simpl.
  - rewrite list_elem_of_singleton. split; [by left|].
    intros [H|H]; [done|by apply not_elem_of_nil in H].
  - destruct (0 <? comparefn tmp element)%Z; rewrite !elem_of_cons; [|done].
    rewrite IH. tauto.
Qed.

Lemma sort_insert_ascending element rprefix :
  P element → Forall P rprefix → ascending R rprefix →
  ascending R (JS.sort_insert comparefn element rprefix).
Proof.
  intros Pe. induction rprefix as [|tmp rest IH]; intros HP Hasc; simpl.
  - split; [constructor|done].
  - apply Forall_cons in HP as [Pt HP]. destruct Hasc as [Hall Hasc].
    destruct (0 <? comparefn tmp element)%Z eqn:Hwalk.
    + split; [|by apply IH]. apply Forall_forall. intros y Hy.
      apply sort_insert_elem in Hy as [->|Hy].
      * by apply walks.
      * rewrite Forall_forall in Hall. by apply Hall.
    + assert (Hbelow : R element tmp).
      { destruct (total element tmp Pe Pt) as [H|H]; [done|].
        apply walks in H; [congruence|done..]. }
      split; [|done]. constructor; [done|].
      rewrite Forall_forall in Hall, HP. apply Forall_forall. intros y Hy.
      eapply (trans element tmp y); eauto.
Qed.

Lemma ascending_last (l : list A) (h : A) :
  Forall P l → P h → ascending R (l ++ [h]) → ∀ y, y ∈ l ++ [h] → R y h.
Proof.
  intros HP Ph. induction l as [|x l IH]; simpl; intros Hasc y Hy.
  - apply list_elem_of_singleton in Hy as ->. by destruct (total h h Ph Ph).
  - apply Forall_cons in HP as [Px HP]. destruct Hasc as [Hall Hasc].
    apply elem_of_cons in Hy as [->|Hy]; [|by apply IH].
    rewrite Forall_forall in Hall. apply Hall, elem_of_app. right.
    apply list_elem_of_here.
Qed.

Lemma sort_fold_spec (a rprefix : list A) :
  Forall P a → Forall P rprefix → ascending R rprefix →
  let sorted :=
    fold_left (fun rprefix element => JS.sort_insert comparefn element rprefix) a rprefix in
  Forall P sorted ∧ ascending R sorted ∧ ∀ y, y ∈ sorted ↔ y ∈ a ∨ y ∈ rprefix.
Proof.
  revert rprefix. induction a as [|x a IH]; intros rprefix Ha HP Hasc; simpl.
  - split_and!; [done..|]. intros y. split; [by right|].
    intros [H|H]; [by apply not_elem_of_nil in H|done].
  - apply Forall_cons in Ha as [Px Ha].
    destruct (IH (JS.sort_insert comparefn x rprefix)) as (HP' & Hasc' & Helem); [done| | |].
    + apply Forall_forall. intros y [->|Hy]%sort_insert_elem; [done|].
      rewrite Forall_forall in HP. by apply HP.
    + by apply sort_insert_ascending.
    + split_and!; [done..|]. intros y. rewrite Helem, sort_insert_elem, elem_of_cons.
      tauto.
Qed.

(** The head of the sorted array is above every element. *)
Lemma Array_sort_head (a : list A) :
  Forall P a → a ≠ [] →
  ∃ h rest, JS.Array_sort comparefn a = h :: rest ∧ h ∈ a ∧ ∀ y, y ∈ a → R y h.
Proof.
  intros Ha Hne. unfold JS.Array_sort.
  destruct (sort_fold_spec a [] Ha) as (HP & Hasc & Helem); [constructor|done|].
  simpl in HP, Hasc, Helem.
  set (sorted := fold_left _ a []) in *.
  destruct (rev sorted) as [|h rest] eqn:Hrev.
  - destruct a as [|x a]; [done|]. exfalso.
    assert (x ∈ sorted) as Hx by (apply Helem; left; apply list_elem_of_here).
    apply (f_equal (@rev A)) in Hrev. rewrite rev_involutive in Hrev. rewrite Hrev in Hx.
    by apply not_elem_of_nil in Hx.
  - assert (Hsorted : sorted = rev rest ++ [h]).
    { apply (f_equal (@rev A)) in Hrev. by rewrite rev_involutive in Hrev. }
    assert (Hh : h ∈ sorted).
    { rewrite Hsorted. apply elem_of_app. right. apply list_elem_of_here. }
    exists h, rest. split_and!; [done| |].
    + apply Helem in Hh as [Hh|Hh]; [done|by apply not_elem_of_nil in Hh].
    + intros y Hy. rewrite Hsorted in HP, Hasc.
      apply Forall_app in HP as [HPrest HPh]. apply Forall_cons in HPh as [Ph _].
      apply (ascending_last (rev rest) h HPrest Ph Hasc).
      rewrite <- Hsorted. apply Helem. by left.
Qed.

End InsertionSort.

(** Where every matched record has both timestamps the comparator orders
    them, and [getLastAccessed] does return a record with the latest touch
    time. *)
Lemma getLastAccessed_latest_when_both_set value learningType pageId :
  let data := viewMap (getUserProgressData value (Some learningType) (Some pageId) true) in
  (∀ id r, JS.get data id = Some r →
     is_Some (started_at r) ∧ is_Some (completed_at r)) →
  data ≠ [] →
  ∃ id r, getLastAccessed value learningType pageId = Some (id, r)
          ∧ latestTouched data id r.
Proof.
  intros data Hboth Hne.
  assert (Hdate : ∀ id, id ∈ JS.keys data →
            ∃ r x, JS.get data id = Some r
                   ∧ touchDate (JS.get_or data id emptyLearning) = Some x
                   ∧ specTouchTime r = Some x).
  { intros id [r Hr]%keys_get_Some. destruct (Hboth id r Hr) as [Hs Hc].
    assert (∃ x, specTouchTime r = Some x) as [x Hx].
    { destruct Hs as [a Ha], Hc as [b Hb]. unfold specTouchTime. rewrite Ha, Hb.
      by eexists. }
    exists r, x. split_and!; [done| |done].
    unfold JS.get_or. rewrite Hr. simpl. by rewrite touchDate_both. }
  destruct (Array_sort_head (lastAccessedCompare data) (notAfter data)
              (fun id => id ∈ JS.keys data)) with (a := JS.keys data)
    as (h & rest & Hsort & Hh & Hmax).
  - intros tmp element Ht He.
    destruct (Hdate tmp Ht) as (_ & x & _ & Hx & _).
    destruct (Hdate element He) as (_ & y & _ & Hy & _).
    unfold lastAccessedCompare, notAfter. rewrite Hx, Hy. simpl. rewrite ltb_not_le.
    split.
    + intros Hwalk. exists x, y. split_and!; [done..|].
      unfold String.le. by destruct (String.leb x y).
    + intros (x' & y' & [= <-] & [= <-] & Hle). unfold String.le in Hle.
      by destruct (String.leb x y).
  - intros a b Ha Hb.
    destruct (Hdate a Ha) as (_ & x & _ & Hx & _).
    destruct (Hdate b Hb) as (_ & y & _ & Hy & _).
    destruct (total String.le x y); [left|right]; by eexists _, _.
  - intros a b c _ _ _ (x & y & Hx & Hy & Hxy) (y' & z & Hy' & Hz & Hyz).
    exists x, z. split_and!; [done..|]. rewrite Hy in Hy'. injection Hy' as <-.
    by etrans.
  - apply Forall_forall. auto.
  - destruct data; [done|]. done.
  - destruct (Hdate h Hh) as (r & y & Hr & Hy & Hspec).
    exists h, r. split.
    + unfold getLastAccessed, getLastAccessedWith. fold data. rewrite Hsort, Hr. done.
    + split; [done|]. intros id' r' Hr'.
      destruct (Hmax id' (get_Some_keys _ _ _ Hr')) as (x & y' & Hx & Hy' & Hle).
      rewrite Hy in Hy'. injection Hy' as <-.
      destruct (Hdate id' (get_Some_keys _ _ _ Hr')) as (r0 & x0 & Hr0 & Hx0 & Hspec0).
      rewrite Hr' in Hr0. injection Hr0 as <-. rewrite Hx in Hx0. injection Hx0 as <-.
      rewrite Hspec, Hspec0. simpl. rewrite ltb_not_le.
      unfold String.le in Hle. by destruct (String.leb x y).
Qed.

Lemma getLastAccessedWith_empty sort value learningType pageId :
  sort (lastAccessedCompare []) [] = [] →
  viewMap (getUserProgressData value (Some learningType) (Some pageId) true) = [] →
  getLastAccessedWith sort value learningType pageId = None.
Proof.
  intros Hsort Hempty. unfold getLastAccessedWith. rewrite Hempty.
  change (JS.keys []) with (@nil string). by rewrite Hsort.
Qed.

Module LastAccessedFacts.

Lemma compare_constant (data : JS.Obj Learning) a b :
  (∀ id, touchDate (JS.get_or data id emptyLearning) = None) →
  lastAccessedCompare data a b = 1%Z.
Proof. intros Hnone. unfold lastAccessedCompare. by rewrite !Hnone. Qed.

Lemma untouched_dates (v : ProgressState) :
  v = LastAccessedSample.firstLater ∨ v = LastAccessedSample.secondLater →
  ∀ id, touchDate (JS.get_or (LastAccessedSample.matched v) id emptyLearning) = None.
Proof.
  intros Hv id.
  assert (Hm : ∃ a b, LastAccessedSample.matched v = [("m/u1", LastAccessedSample.startedAt a); ("m/u2", LastAccessedSample.startedAt b)]).
  { destruct Hv as [-> | ->]; eexists _, _; vm_compute; reflexivity. }
  destruct Hm as (a & b & ->). unfold JS.get_or. cbn [JS.get].
  repeat (destruct (String.eqb _ id)); reflexivity.
Qed.

End LastAccessedFacts.

Lemma sort_insert_ext {A} (comparefn comparefn' : A → A → Z) element rprefix :
  (∀ x y, comparefn x y = comparefn' x y) →
  JS.sort_insert comparefn element rprefix = JS.sort_insert comparefn' element rprefix.
Proof.
  intros Hext. induction rprefix as [|tmp rest IH]; simpl; [done|].
  by rewrite Hext, IH.
Qed.

Lemma Array_sort_comparatorOnly : comparatorOnly JS.Array_sort.
Proof.
  intros comparefn comparefn' a Hext. unfold JS.Array_sort. f_equal.
  generalize (@nil string). induction a as [|x a IH]; intros rprefix; simpl; [done|].
  by rewrite IH, (sort_insert_ext comparefn comparefn').
Qed.

Lemma sample_lastAccessed sort (v : ProgressState) :
  comparatorOnly sort →
  v = LastAccessedSample.firstLater ∨ v = LastAccessedSample.secondLater →
  getLastAccessedWith sort v units "m" =
    match sort (fun _ _ => 1%Z) ["m/u1"; "m/u2"] with
    | [] => None
    | id :: _ => (fun r => (id, r)) <$> JS.get (LastAccessedSample.matched v) id
    end.
Proof.
  intros Hsort Hv. unfold getLastAccessedWith. fold (LastAccessedSample.matched v).
  rewrite (Hsort _ (fun _ _ => 1%Z) _
             (fun a b => LastAccessedFacts.compare_constant _ a b
                           (LastAccessedFacts.untouched_dates v Hv))).
  assert (JS.keys (LastAccessedSample.matched v) = ["m/u1"; "m/u2"]) as ->; [|done].
  destruct Hv as [-> | ->]; vm_compute; reflexivity.
Qed.

(** C3, as the code has it: the touch time of a record with a single
    timestamp is [undefined], which compares as later than nothing.  Of
    three units started one after the other [getLastAccessed] returns the
    one last in the mapping, although the one in the middle was started
    after it; and whatever [Array.prototype.sort] makes of the answers of
    the comparator, there is a state whose matched records are not empty
    and for which the record returned, if any, is not one with the latest
    touch time. *)
Theorem getLastAccessed_misses_single_timestamps :
  getLastAccessed LastAccessedSample.value units "m"
    = Some ("m/u3", LastAccessedSample.startedAt "2017-06-01T10:02:30.000Z")
  ∧ JS.get (LastAccessedSample.matched LastAccessedSample.value) "m/u2"
      = Some (LastAccessedSample.startedAt "2017-06-01T10:07:00.000Z")
  ∧ JS.gt (specTouchTime (LastAccessedSample.startedAt "2017-06-01T10:07:00.000Z"))
          (specTouchTime (LastAccessedSample.startedAt "2017-06-01T10:02:30.000Z")) = true
  ∧ ∀ sort, comparatorOnly sort → ∃ value,
      LastAccessedSample.matched value ≠ []
      ∧ ¬ ∃ id r,
            getLastAccessedWith sort value units "m" = Some (id, r)
            ∧ latestTouched (LastAccessedSample.matched value) id r.
Proof.
  split_and!; [vm_compute; reflexivity..|].
  intros sort Hsort.
  pose proof (sample_lastAccessed sort LastAccessedSample.firstLater Hsort
                (or_introl eq_refl)) as Hfirst.
  pose proof (sample_lastAccessed sort LastAccessedSample.secondLater Hsort
                (or_intror eq_refl)) as Hsecond.
  destruct (sort (fun _ _ => 1%Z) ["m/u1"; "m/u2"]) as [|id rest].
  - exists LastAccessedSample.firstLater. split; [done|].
    intros (id & r & Hrun & _). congruence.
  - destruct (decide (id = "m/u1")) as [->|Hne].
    + exists LastAccessedSample.secondLater. split; [done|].
      intros (id & r & Hrun & _ & Hlatest). rewrite Hsecond in Hrun.
      vm_compute in Hrun. injection Hrun as <- <-.
      by specialize (Hlatest "m/u2" _ eq_refl).
    + exists LastAccessedSample.firstLater. split; [done|].
      intros (id' & r & Hrun & Hget & Hlatest). rewrite Hfirst in Hrun.
      specialize (Hlatest "m/u1" _ eq_refl).
      destruct (JS.get (LastAccessedSample.matched LastAccessedSample.firstLater) id)
        as [r0|] eqn:Hid; [|done].
      injection Hrun as <- <-.
      assert (Hcases : id = "m/u1" ∨ id = "m/u2").
      { apply get_Some_keys in Hid. vm_compute in Hid.
        repeat (apply elem_of_cons in Hid as [Hid|Hid]); auto.
        by apply not_elem_of_nil in Hid. }
      destruct Hcases as [->| ->]; [done|].
      vm_compute in Hid. injection Hid as <-. done.
Qed.

(** The insertion sort of the embedding is such a sort. *)
Lemma getLastAccessed_misses_single_timestamps_witness :
  ∃ value,
    LastAccessedSample.matched value ≠ []
    ∧ ¬ ∃ id r,
          getLastAccessed value units "m" = Some (id, r)
          ∧ latestTouched (LastAccessedSample.matched value) id r.
Proof.
  destruct getLastAccessed_misses_single_timestamps as (_ & _ & _ & Hany).
  apply (Hany JS.Array_sort), Array_sort_comparatorOnly.
Defined.

(** ** Timestamps over time *)

Lemma keptOrLater_refl a : keptOrLater a a.
Proof. intros x ->. by exists x. Qed.

Lemma keptOrLater_trans a b c : keptOrLater a b → keptOrLater b c → keptOrLater a c.
Proof.
  intros Hab Hbc x Hx. destruct (Hab x Hx) as (y & Hy & Hxy).
  destruct (Hbc y Hy) as (z & Hz & Hyz). exists z. split; [done|]. by etrans.
Qed.

Lemma neverRegresses_refl v : neverRegresses v v.
Proof. intros lt id r Hr. exists r. split_and!; [done|apply keptOrLater_refl..]. Qed.

Lemma neverRegresses_trans v1 v2 v3 :
  neverRegresses v1 v2 → neverRegresses v2 v3 → neverRegresses v1 v3.
Proof.
  intros H12 H23 lt id r Hr. destruct (H12 lt id r Hr) as (r2 & Hr2 & Hs2 & Hc2).
  destruct (H23 lt id r2 Hr2) as (r3 & Hr3 & Hs3 & Hc3).
  exists r3. split_and!; [done|by eapply keptOrLater_trans..].
Qed.

Lemma stamps_assign r fv x : stamps (assign r fv) x → stamps fv x ∨ stamps r x.
Proof.
  unfold stamps, assign. simpl.
  destruct (started_at fv), (completed_at fv); simpl; tauto.
Qed.

Lemma stamps_empty x : ¬ stamps emptyLearning x.
Proof. by intros [|]. Qed.

Section Timestamps.

Variable dataTree : DataTree.
Variable clock : nat → string.
Variable fuel : nat.

Hypothesis clock_monotone : ∀ n m, n ≤ m → String.le (clock n) (clock m).

Lemma settled_later s s' :
  settled clock s → activeUserProgress s' = activeUserProgress s → ticks s ≤ ticks s' →
  settled clock s'.
Proof.
  intros Hs Hv Ht lt id r x Hr Hx. rewrite Hv in Hr.
  etrans; [by eapply Hs|]. by apply clock_monotone.
Qed.

Lemma stampedSince_mergeable s s' fv :
  settled clock s → stampedSince clock s s' fv → settled clock s' ∧ mergeable clock s' fv.
Proof.
  intros Hs (Hv & Ht & Hfv). split; [by eapply settled_later|].
  intros x Hx. destruct (Hfv x Hx) as (t & [Ht1 Ht2] & ->). split.
  - apply clock_monotone. lia.
  - intros lt id r y Hr Hy. rewrite Hv in Hr.
    etrans; [by eapply Hs|]. by apply clock_monotone.
Qed.

Lemma updateField_steady learningType id fv s :
  settled clock s → mergeable clock s fv →
  settled clock (updateField learningType id fv s)
  ∧ neverRegresses (activeUserProgress s)
      (activeUserProgress (updateField learningType id fv s)).
Proof.
  intros Hs Hfv. destruct (updateField_flags learningType id fv s) as (_ & _ & Hticks).
  split.
  - intros lt' id' r x Hr Hx. rewrite Hticks.
    rewrite updateField_value, recordAt_mergeLocal in Hr.
    case_bool_decide as Hsame; [|by eapply Hs].
    injection Hr as <-. apply stamps_assign in Hx as [Hx|Hx]; [by apply Hfv|].
    destruct (recordAt (activeUserProgress s) learningType id) as [old|] eqn:Hold;
      [by eapply Hs|by apply stamps_empty in Hx].
  - intros lt' id' r Hr. rewrite updateField_value, recordAt_mergeLocal.
    case_bool_decide as Hsame.
    + destruct Hsame as [<- <-]. rewrite Hr. simpl. eexists. split; [done|].
      unfold keptOrLater, assign. simpl. split; intros y Hy.
      * destruct (started_at fv) as [x|] eqn:Hx; simpl; [|by eauto].
        exists x. split; [done|].
        eapply (Hfv x); [by left|exact Hr|by left].
      * destruct (completed_at fv) as [x|] eqn:Hx; simpl; [|by eauto].
        exists x. split; [done|].
        eapply (Hfv x); [by right|exact Hr|by right].
    + exists r. split_and!; [done|apply keptOrLater_refl..].
Qed.

Lemma steady_ret {A} (a : A) : steady clock (ret a).
Proof. intros s Hs. split; [done|apply neverRegresses_refl]. Qed.

Lemma steady_liftO {A} (o : Outcome A) : steady clock (liftO o).
Proof. intros s Hs. split; [done|apply neverRegresses_refl]. Qed.

Lemma steady_bind {A B} (m : Action A) (f : A → Action B) :
  steady clock m → (∀ a, steady clock (f a)) → steady clock (bindA m f).
Proof.
  intros Hm Hf s Hs. unfold bindA. destruct (Hm s Hs) as [Hs' Hv'].
  destruct (m s) as [s' [a| |]]; simpl in *; [|done..].
  destruct (Hf a s' Hs') as [Hs'' Hv'']. split; [done|].
  by eapply neverRegresses_trans.
Qed.

Lemma steady_forEach {A} (l : list A) (body : A → Action unit) :
  (∀ x, steady clock (body x)) → steady clock (forEach l body).
Proof.
  intros Hbody. induction l as [|x l IH]; simpl; [apply steady_ret|].
  apply steady_bind; [apply Hbody|]. intros _. exact IH.
Qed.

(** A write stamped with the current instant. *)
Lemma steady_stamped_write learningType id (stamp : string → Learning) :
  (∀ now x, stamps (stamp now) x → x = now) →
  steady clock (now <- toISOString clock;; exec (updateField learningType id (stamp now))).
Proof.
  intros Hstamp s Hs. unfold bindA, toISOString, exec. simpl.
  assert (Hlater : settled clock (tick s) ∧ mergeable clock (tick s) (stamp (clock (ticks s)))).
  { apply (stampedSince_mergeable s); [done|]. split_and!; [done|simpl; lia|].
    intros x Hx. exists (ticks s). split; [simpl; lia|by eapply Hstamp]. }
  destruct Hlater as [Hs' Hm].
  apply (updateField_steady learningType id _ (tick s) Hs' Hm).
Qed.

Lemma stamps_startedNow now x : stamps (startedNow now) x → x = now.
Proof. intros [[= ->]|[=]]. done. Qed.

Lemma stamps_completedNow now x : stamps (completedNow now) x → x = now.
Proof. intros [[=]|[= ->]]. done. Qed.

Lemma stamps_earnedNow now x : stamps (earnedNow now) x → x = now.
Proof. by intros [|]. Qed.

Lemma withStarted_stamped cond s s1 fv :
  stampedSince clock s s1 fv →
  ∃ s2 fv', withStarted cond (toISOString clock) fv s1 = (s2, Ok fv')
            ∧ stampedSince clock s s2 fv'.
Proof.
  intros (Hv & Ht & Hfv). unfold withStarted. destruct cond.
  - eexists _, _. split; [reflexivity|]. split_and!; [done|simpl; lia|].
    intros x [Hx|Hx]%stamps_assign.
    + apply stamps_startedNow in Hx as ->. exists (ticks s1). simpl. split; [lia|done].
    + destruct (Hfv x Hx) as (t & ? & ->). exists t. simpl. split; [lia|done].
  - eexists _, _. split; [reflexivity|]. by split_and!.
Qed.

Lemma withCompleted_stamped cond s s1 fv :
  stampedSince clock s s1 fv →
  ∃ s2 fv', withCompleted cond (toISOString clock) fv s1 = (s2, Ok fv')
            ∧ stampedSince clock s s2 fv'.
Proof.
  intros (Hv & Ht & Hfv). unfold withCompleted. destruct cond.
  - eexists _, _. split; [reflexivity|]. split_and!; [done|simpl; lia|].
    intros x [Hx|Hx]%stamps_assign.
    + apply stamps_completedNow in Hx as ->. exists (ticks s1). simpl. split; [lia|done].
    + destruct (Hfv x Hx) as (t & ? & ->). exists t. simpl. split; [lia|done].
  - eexists _, _. split; [reflexivity|]. by split_and!.
Qed.

Lemma stampedSince_start s : stampedSince clock s s emptyLearning.
Proof. split_and!; [done..|]. intros x Hx. by apply stamps_empty in Hx. Qed.

Lemma stamped_write_steady learningType id s s' fv :
  settled clock s → stampedSince clock s s' fv →
  settled clock (updateField learningType id fv s')
  ∧ neverRegresses (activeUserProgress s)
      (activeUserProgress (updateField learningType id fv s')).
Proof.
  intros Hs Hst. destruct (stampedSince_mergeable s s' fv Hs Hst) as [Hs' Hm].
  destruct Hst as (Hv & _). rewrite <- Hv.
  by apply updateField_steady.
Qed.

Lemma stamped_stop_steady s s' fv :
  settled clock s → stampedSince clock s s' fv →
  settled clock s' ∧ neverRegresses (activeUserProgress s) (activeUserProgress s').
Proof.
  intros Hs Hst. destruct (stampedSince_mergeable s s' fv Hs Hst) as [Hs' _].
  destruct Hst as (Hv & _). rewrite Hv. split; [done|apply neverRegresses_refl].
Qed.

Lemma completeModule_steady pageId : steady clock (completeModule dataTree clock fuel pageId).
Proof.
  unfold completeModule. apply steady_bind; [apply steady_liftO|]. intros moduleId.
  intros s Hs.
  set (currentState := getUserProgressData _ _ _ _).
  match goal with
  | |- settled clock (?run).1 ∧ _ =>
      assert (∃ s' o, run = (s', o) ∧ settled clock s'
                      ∧ neverRegresses (activeUserProgress s) (activeUserProgress s'))
        as (s' & o & -> & ? & ?); [|done]
  end.
  destruct (withStarted_stamped (negb (view_started_at currentState)) s s emptyLearning
              (stampedSince_start s)) as (s1 & nd1 & Hrun1 & Hst1).
  unfold bindA at 1. rewrite Hrun1.
  unfold bindA at 1, liftO.
  destruct (if view_completed_at currentState then _ else _) as [progress| |];
    [|eexists _, _; split; [reflexivity|]; by eapply stamped_stop_steady..].
  destruct (withCompleted_stamped
              (negb (view_completed_at currentState)
               && match progress with
                  | JS.Fin q => Qle_bool 100 q
                  | JS.PInf => true
                  | _ => false
                  end) s s1 nd1 Hst1) as (s2 & nd2 & Hrun2 & Hst2).
  unfold bindA. rewrite Hrun2. simpl.
  eexists _, _. split; [reflexivity|]. by eapply stamped_write_steady.
Qed.

Lemma completeTrack_steady trackId : steady clock (completeTrack dataTree clock trackId).
Proof.
  unfold completeTrack.
  destruct (modules _) as [moduleIds|]; [|apply steady_ret].
  intros s Hs. destruct (trackCompleted (activeUserProgress s) moduleIds);
    [|by apply steady_ret].
  set (currentState := getUserProgressData _ _ _ _).
  match goal with
  | |- settled clock (?run).1 ∧ _ =>
      assert (∃ s' o, run = (s', o) ∧ settled clock s'
                      ∧ neverRegresses (activeUserProgress s) (activeUserProgress s'))
        as (s' & o & -> & ? & ?); [|done]
  end.
  destruct (withStarted_stamped (negb (view_started_at currentState)) s s emptyLearning
              (stampedSince_start s)) as (s1 & nd1 & Hrun1 & Hst1).
  unfold bindA at 1. rewrite Hrun1.
  destruct (withCompleted_stamped (negb (view_completed_at currentState)) s s1 nd1 Hst1)
    as (s2 & nd2 & Hrun2 & Hst2).
  unfold bindA. rewrite Hrun2. simpl.
  eexists _, _. split; [reflexivity|]. by eapply stamped_write_steady.
Qed.

Lemma grant_steady aliased id : steady clock (grant clock aliased id).
Proof.
  intros s Hs. unfold grant. cbv beta.
  destruct (negb _); [|by apply steady_ret].
  apply steady_stamped_write; [|done]. intros now x. apply stamps_earnedNow.
Qed.

Lemma awardAchievements_steady : steady clock (awardAchievements clock).
Proof.
  intros s Hs. unfold awardAchievements. cbv beta.
  apply steady_bind; [| |done].
  - destruct (_ <? _)%nat; [apply grant_steady|apply steady_ret].
  - intros _. apply steady_forEach. intros id. apply grant_steady.
Qed.

Lemma startPage_steady pageId : steady clock (startPage dataTree clock fuel pageId).
Proof.
  unfold startPage. apply steady_bind; [apply steady_liftO|]. intros learningType.
  apply (steady_bind
           (now <- toISOString clock;;
            exec (updateField (propertyKey learningType) pageId (startedNow now)))).
  - apply steady_stamped_write. apply stamps_startedNow.
  - intros _. destruct learningType as [[]|]; try apply steady_ret.
    apply steady_stamped_write. apply stamps_startedNow.
Qed.

Lemma completePage_steady pageId : steady clock (completePage dataTree clock fuel pageId).
Proof.
  unfold completePage. apply steady_bind; [apply steady_liftO|]. intros learningType.
  assert (Hcascade : steady clock
            ((now <- toISOString clock;;
              exec (updateField "units" pageId (completedNow now)));;;
             completeModule dataTree clock fuel pageId;;;
             completeTracks dataTree clock;;;
             awardAchievements clock)).
  { apply steady_bind; [apply steady_stamped_write, stamps_completedNow|]. intros _.
    apply steady_bind; [apply completeModule_steady|]. intros _.
    apply steady_bind; [|intros _; apply awardAchievements_steady].
    apply steady_forEach, completeTrack_steady. }
  destruct learningType as [[]|]; try apply steady_ret; exact Hcascade.
Qed.

Lemma performAll_steady ops s :
  settled clock s →
  settled clock (performAll dataTree clock fuel ops s)
  ∧ neverRegresses (activeUserProgress s) (activeUserProgress (performAll dataTree clock fuel ops s)).
Proof.
  revert s. induction ops as [|op ops IH]; intros s Hs; simpl.
  - split; [done|apply neverRegresses_refl].
  - assert (Hop : steady clock (perform dataTree clock fuel op)).
    { destruct op; [apply startPage_steady|apply completePage_steady]. }
    destruct (Hop s Hs) as [Hs' Hv']. destruct (IH _ Hs') as [Hs'' Hv''].
    split; [done|]. by eapply neverRegresses_trans.
Qed.

End Timestamps.

Lemma startPage_stamps_started dataTree clock fuel pageId learningType s :
  getLearningType dataTree fuel pageId = Ok learningType →
  ∃ r, recordAt (activeUserProgress (startPage dataTree clock fuel pageId s).1)
         (propertyKey learningType) pageId = Some r
       ∧ started_at r = Some (clock (ticks s)).
Proof.
  intros Htype. unfold startPage, bindA, liftO. rewrite Htype.
  destruct learningType as [[]|]; simpl;
    rewrite ?updateField_value, ?recordAt_mergeLocal; simpl;
    rewrite ?updateField_value, ?recordAt_mergeLocal;
    rewrite ?bool_decide_eq_true_2 by done; by eexists.
Qed.

(** C4, counterexample to the specification: a second [startPage] of the
    same page overwrites its [started_at] with the later start. *)
Lemma second_start_overwrites_started_at :
  started_at
    <$> recordAt
          (activeUserProgress
             (performAll Sample.dataTree Sample.clock 4 [StartPage "m/u1"] (Sample.fresh false)))
          "units" "m/u1"
    = Some (Some "2017-06-01T10:00:00.000Z")
  ∧ started_at
      <$> recordAt
            (activeUserProgress
               (performAll Sample.dataTree Sample.clock 4
                  [StartPage "m/u1"; StartPage "m/u1"] (Sample.fresh false)))
            "units" "m/u1"
      = Some (Some "2017-06-01T10:00:05.000Z")
  ∧ String.ltb "2017-06-01T10:00:00.000Z" "2017-06-01T10:00:05.000Z" = true.
Proof. vm_compute. done. Qed.

(** C4, as the code has it: [startPage] stamps [started_at] with the
    current instant at every call; and over every sequence of [startPage]
    and [completePage], under a clock that does not run backwards and from
    a state holding no timestamp ahead of it, every record stays, and its
    [started_at] and [completed_at], once set, stay set and never move
    earlier. *)
Theorem timestamps_never_move_earlier (dataTree : DataTree) (clock : nat → string)
    (fuel : nat) (ops : list Operation) (s : Service) :
  (∀ n m, n ≤ m → String.le (clock n) (clock m)) →
  settled clock s →
  neverRegresses (activeUserProgress s)
    (activeUserProgress (performAll dataTree clock fuel ops s))
  ∧ settled clock (performAll dataTree clock fuel ops s)
  ∧ ∀ pageId learningType,
      getLearningType dataTree fuel pageId = Ok learningType →
      ∃ r, recordAt (activeUserProgress (perform dataTree clock fuel (StartPage pageId) s).1)
             (propertyKey learningType) pageId = Some r
           ∧ started_at r = Some (clock (ticks s)).
Proof.
  intros Hclock Hs.
  destruct (performAll_steady dataTree clock fuel Hclock ops s Hs) as [Hs' Hv].
  split_and!; [done..|].
  intros pageId learningType. apply startPage_stamps_started.
Qed.

Lemma sample_clock_monotone n m : n ≤ m → String.le (Sample.clock n) (Sample.clock m).
Proof.
  intros Hnm. unfold Sample.clock, Sample.instants.
  do 7 (try destruct n as [|n]); do 7 (try destruct m as [|m]);
    try lia; vm_compute; exact I.
Qed.

Lemma get_Some_In {V} (o : JS.Obj V) k v : JS.get o k = Some v → In (k, v) o.
Proof.
  induction o as [|[k0 v0] o IH]; simpl; [done|].
  destruct (String.eqb_spec k0 k) as [->|Hne]; [intros [= ->]; by left|].
  intros H. right. auto.
Qed.

Lemma settledb_sound clock s : settledb clock s = true → settled clock s.
Proof.
  unfold settledb. intros Hall learningType id r x Hr Hx.
  unfold recordAt, JS.get_or in Hr.
  destruct (JS.get (activeUserProgress s) learningType) as [typeData|] eqn:Htype;
    [|done].
  simpl in Hr. apply get_Some_In in Htype, Hr.
  rewrite forallb_forall in Hall. specialize (Hall _ Htype). simpl in Hall.
  rewrite forallb_forall in Hall. specialize (Hall _ Hr). simpl in Hall.
  apply andb_true_iff in Hall as [Hstarted Hcompleted].
  destruct Hx as [Hx|Hx]; rewrite Hx in *; simpl in *; by apply Is_true_true.
Qed.

Lemma timestamps_never_move_earlier_witness :
  neverRegresses CascadeSample.value
    (activeUserProgress
       (performAll Sample.dataTree Sample.clock 4
          [StartPage "m/u1"; CompletePage "m/u2"; StartPage "m"] CascadeSample.allDone)).
Proof.
  apply (timestamps_never_move_earlier Sample.dataTree Sample.clock 4
           [StartPage "m/u1"; CompletePage "m/u2"; StartPage "m"] CascadeSample.allDone).
  - exact sample_clock_monotone.
  - apply settledb_sound. vm_compute. reflexivity.
Defined.

(** * Further properties *)

Lemma truthy_is_nonempty (x : string) : JS.truthy (Some x) = true → x ≠ EmptyString.
Proof. simpl. by destruct (String.eqb_spec x EmptyString). Qed.

(** ** The next page *)

Lemma indexOf_lookup (siblings : list string) (i : nat) (pageId : string) :
  NoDup siblings → siblings !! i = Some pageId → indexOf pageId siblings = Some i.
Proof.
  revert i. induction siblings as [|child rest IH]; intros [|i] Hnd H; simplify_eq/=.
  - by rewrite bool_decide_eq_true_2.
  - apply NoDup_cons in Hnd as [Hchild Hnd].
    rewrite bool_decide_eq_false_2.
    + by rewrite (IH i).
    + intros ->. apply Hchild. by eapply list_elem_of_lookup_2.
Qed.

Lemma indexOf_absent (siblings : list string) (pageId : string) :
  pageId ∉ siblings → indexOf pageId siblings = None.
Proof.
  induction siblings as [|child rest IH]; intros H; simpl; [done|].
  apply not_elem_of_cons in H as [Hne H].
  rewrite bool_decide_eq_false_2 by done. by rewrite IH.
Qed.

(** X1: a page without children that is the [i]-th child of its parent is
    followed by the child after it, and by nothing when it is the last one:
    the walk does not go on to the parent's own next sibling. *)
Theorem getNextPage_next_sibling (moduleData : gmap string ContentNode)
    (pageId parentId : string) (node parent_ : ContentNode)
    (siblings : list string) (i : nat) :
  moduleData !! pageId = Some node → children node = None →
  parent node = Some parentId → parentId ≠ EmptyString → parentId ≠ "modules" →
  moduleData !! parentId = Some parent_ → children parent_ = Some siblings →
  NoDup siblings → siblings !! i = Some pageId →
  getNextPage moduleData pageId = Ok (siblings !! S i)
  ∧ (length siblings = S i → getNextPage moduleData pageId = Ok None).
Proof.
  intros Hnode Hleaf Hparent Hne Hroot Hpnode Hsib Hnd Hi.
  assert (getNextPage moduleData pageId = Ok (siblings !! S i)) as Hnext.
  { unfold getNextPage. rewrite Hnode, Hleaf, Hparent. simpl.
    destruct (String.eqb_spec parentId EmptyString) as [|_]; [done|]. simpl.
    rewrite bool_decide_eq_false_2 by done.
    rewrite Hpnode, Hsib. by rewrite (indexOf_lookup siblings i pageId). }
  split; [done|].
  intros Hlen. rewrite Hnext. f_equal. apply lookup_ge_None. lia.
Qed.

Lemma getNextPage_next_sibling_witness :
  getNextPage Sample.moduleData "m/u2" = Ok (["m/u1"; "m/u2"] !! 2%nat)
  ∧ (length ["m/u1"; "m/u2"] = 2%nat → getNextPage Sample.moduleData "m/u2" = Ok None).
Proof.
  apply (getNextPage_next_sibling Sample.moduleData "m/u2" "m"
           (Sample.node (Some "m") None (Some (5, 5)%Z) None)
           (Sample.node (Some "modules") (Some ["m/u1"; "m/u2"]) None (Some (10, 10)%Z))
           ["m/u1"; "m/u2"] 1).
  - reflexivity.
  - reflexivity.
  - reflexivity.
  - discriminate.
  - discriminate.
  - reflexivity.
  - reflexivity.
  - apply (bool_decide_unpack (NoDup ["m/u1"; "m/u2"])). vm_compute. exact I.
  - reflexivity.
Defined.

(** X2: a page without children that its parent does not list is followed
    by the first child of that parent: the index -1 of [indexOf] becomes
    the index 0. *)
Theorem getNextPage_unlisted_restarts (moduleData : gmap string ContentNode)
    (pageId parentId : string) (node parent_ : ContentNode) (siblings : list string) :
  moduleData !! pageId = Some node → children node = None →
  parent node = Some parentId → parentId ≠ EmptyString → parentId ≠ "modules" →
  moduleData !! parentId = Some parent_ → children parent_ = Some siblings →
  pageId ∉ siblings →
  getNextPage moduleData pageId = Ok (head siblings).
Proof.
  intros Hnode Hleaf Hparent Hne Hroot Hpnode Hsib Hout.
  unfold getNextPage. rewrite Hnode, Hleaf, Hparent. simpl.
  destruct (String.eqb_spec parentId EmptyString) as [|_]; [done|]. simpl.
  rewrite bool_decide_eq_false_2 by done.
  rewrite Hpnode, Hsib, (indexOf_absent siblings pageId) by done.
  simpl. by destruct siblings.
Qed.

Lemma getNextPage_unlisted_restarts_witness :
  getNextPage Unlisted.moduleData "m/c" = Ok (head ["m/a"; "m/b"]).
Proof.
  apply (getNextPage_unlisted_restarts Unlisted.moduleData "m/c" "m"
           (Sample.node (Some "m") None None None)
           (Sample.node (Some "modules") (Some ["m/a"; "m/b"]) None None)).
  - reflexivity.
  - reflexivity.
  - reflexivity.
  - discriminate.
  - discriminate.
  - reflexivity.
  - reflexivity.
  - apply (bool_decide_unpack ("m/c" ∉ ["m/a"; "m/b"])). vm_compute. exact I.
Defined.

(** X3: [getNextPage] throws exactly on a page without children whose
    parent, other than the root of the module tree, is not in the catalog
    or has no list of children; in particular never on an unknown page, on
    a page with children, or on a page directly below the root. *)
Theorem getNextPage_faults_iff (moduleData : gmap string ContentNode) (pageId : string) :
  getNextPage moduleData pageId = Fault
  ↔ ∃ node parentId,
      moduleData !! pageId = Some node ∧ children node = None
      ∧ parent node = Some parentId ∧ parentId ≠ EmptyString ∧ parentId ≠ "modules"
      ∧ (moduleData !! parentId = None
         ∨ ∃ parent_, moduleData !! parentId = Some parent_ ∧ children parent_ = None).
Proof.
  unfold getNextPage. split.
  - destruct (moduleData !! pageId) as [node|] eqn:Hnode; [|done].
    destruct (children node) as [chs|] eqn:Hleaf; [done|].
    destruct (parent node) as [parentId|] eqn:Hparent; [|done]. simpl.
    destruct (String.eqb_spec parentId EmptyString) as [|Hne]; [done|]. simpl.
    case_bool_decide as Hroot; [done|].
    intros H. exists node, parentId. repeat split; try done.
    destruct (moduleData !! parentId) as [parent_|] eqn:Hpnode; [|by left].
    right. exists parent_. split; [done|].
    by destruct (children parent_).
  - intros (node & parentId & -> & -> & -> & Hne & Hroot & H). simpl.
    destruct (String.eqb_spec parentId EmptyString) as [|_]; [done|]. simpl.
    rewrite bool_decide_eq_false_2 by done.
    destruct H as [->|(parent_ & -> & ->)]; done.
Qed.

(** ** The tracks of a module *)

Lemma listsModule_Ok tracksData moduleId trackId keep :
  listsModule tracksData moduleId trackId = Ok keep →
  trackListed tracksData trackId
  ∧ (keep = true ↔ trackHolds tracksData moduleId trackId).
Proof.
  unfold listsModule, trackListed, trackHolds.
  destruct (JS.get tracksData trackId) as [track|]; [|done].
  destruct (modules track) as [moduleIds|] eqn:Hmodules; [|done].
  intros [= <-]. split; [by eauto|].
  rewrite bool_decide_eq_true. split.
  - intros H. by exists track, moduleIds.
  - intros (track' & moduleIds' & [= <-] & Hm & H). by simplify_eq.
Qed.

Lemma listsModule_Fault tracksData moduleId trackId :
  listsModule tracksData moduleId trackId = Fault ↔ ¬ trackListed tracksData trackId.
Proof.
  unfold listsModule, trackListed.
  destruct (JS.get tracksData trackId) as [track|].
  - destruct (modules track) as [moduleIds|] eqn:Hmodules.
    + split; [done|]. intros []. by eauto.
    + split; [|done]. intros _ (track' & moduleIds' & [= <-] & Hm). by simplify_eq.
  - split; [|done]. by intros _ (track' & moduleIds' & [=] & _).
Qed.

Lemma listsModule_finishes tracksData moduleId trackId :
  listsModule tracksData moduleId trackId ≠ OutOfFuel.
Proof.
  unfold listsModule.
  destruct (JS.get tracksData trackId) as [track|]; [|done].
  by destruct (modules track).
Qed.

Lemma filterO_Ok {A} (f : A → Outcome bool) (l r : list A) :
  filterO f l = Ok r →
  r `sublist_of` l ∧ ∀ x, x ∈ r ↔ x ∈ l ∧ f x = Ok true.
Proof.
  revert r. induction l as [|y l IH]; intros r; simpl.
  - intros [= <-]. split; [done|]. intros x. split; [by intros ?%not_elem_of_nil|].
    by intros [?%not_elem_of_nil _].
  - destruct (f y) as [keep| |] eqn:Hy; simpl; [|done..].
    destruct (filterO f l) as [rest| |]; simpl; [|done..].
    destruct (IH rest eq_refl) as [Hsub Hin].
    intros [= <-]. destruct keep.
    + split; [by apply sublist_skip|].
      intros x. rewrite !elem_of_cons, Hin. split.
      * intros [->|[? ?]]; by auto.
      * intros [[->|?] ?]; by auto.
    + split; [by apply sublist_cons|].
      intros x. rewrite elem_of_cons, Hin. split.
      * intros [? ?]; by auto.
      * intros [[->|?] ?]; [congruence|by auto].
Qed.

Lemma filterO_Fault {A} (f : A → Outcome bool) (l : list A) :
  (∀ x, f x ≠ OutOfFuel) →
  filterO f l = Fault ↔ ∃ x, x ∈ l ∧ f x = Fault.
Proof.
  intros Hfin. induction l as [|y l IH]; simpl.
  - split; [done|]. by intros (x & ?%not_elem_of_nil & _).
  - destruct (f y) as [keep| |] eqn:Hy; simpl.
    + destruct (filterO f l) as [rest| |] eqn:Hl; simpl.
      * split; [done|]. intros (x & [->|Hx]%elem_of_cons & Hf); [congruence|].
        assert (Ok rest = Fault) as [=]. apply IH. by eauto.
      * split; [|done]. intros _.
        destruct IH as [IH _]. destruct (IH eq_refl) as (x & Hx & Hf).
        exists x. split; [by apply list_elem_of_further|done].
      * split; [done|]. intros (x & [->|Hx]%elem_of_cons & Hf); [congruence|].
        assert (@OutOfFuel (list A) = Fault) as [=]. apply IH. by eauto.
    + split; [|done]. intros _. exists y. split; [by apply list_elem_of_here|done].
    + by destruct (Hfin y).
Qed.

Lemma filterO_finishes {A} (f : A → Outcome bool) (l : list A) :
  (∀ x, f x ≠ OutOfFuel) → filterO f l ≠ OutOfFuel.
Proof.
  intros Hfin. induction l as [|y l IH]; simpl; [done|].
  destruct (f y) as [keep| |] eqn:Hy; simpl; [|done|by destruct (Hfin y)].
  by destruct (filterO f l).
Qed.

(** X4: when [getTracksByModule] returns, it returns the tracks listed
    under the [tracks] node that hold the module, in the order of that
    list; it throws exactly when the [tracks] node or its list of children
    is missing, or when a listed track has no entry or no list of modules,
    even if the module is found in other tracks. *)
Theorem getTracksByModule_listed_tracks (tracksData : JS.Obj TrackNode)
    (tracksChildren : option (list string)) (moduleId : string) :
  (∀ found,
     getTracksByModule tracksData tracksChildren moduleId = Ok found →
     ∃ trackIds,
       tracksChildren = Some trackIds
       ∧ found `sublist_of` trackIds
       ∧ ∀ trackId, trackId ∈ found
                    ↔ trackId ∈ trackIds ∧ trackHolds tracksData moduleId trackId)
  ∧ (getTracksByModule tracksData tracksChildren moduleId = Fault
     ↔ JS.get tracksData "tracks" = None
       ∨ tracksChildren = None
       ∨ ∃ trackIds trackId,
           tracksChildren = Some trackIds ∧ trackId ∈ trackIds
           ∧ ¬ trackListed tracksData trackId)
  ∧ getTracksByModule tracksData tracksChildren moduleId ≠ OutOfFuel.
Proof.
  unfold getTracksByModule.
  destruct (JS.get tracksData "tracks") as [root|]; cycle 1.
  { split; [done|]. split; [|done]. split; [by left|done]. }
  destruct tracksChildren as [trackIds|]; cycle 1.
  { split; [done|]. split; [|done]. split; [by auto|done]. }
  split; [|split].
  - intros found Hfound. exists trackIds. split; [done|].
    destruct (filterO_Ok _ _ _ Hfound) as [Hsub Hin]. split; [done|].
    intros trackId. rewrite Hin. split.
    + intros [Hlisted Hkeep]. split; [done|].
      by apply (listsModule_Ok _ _ _ _ Hkeep).
    + intros [Hlisted Hholds]. split; [done|].
      destruct (listsModule tracksData moduleId trackId) as [keep| |] eqn:Hkeep.
      * f_equal. by apply (listsModule_Ok _ _ _ _ Hkeep).
      * apply listsModule_Fault in Hkeep. destruct Hkeep.
        destruct Hholds as (track & moduleIds & ? & ? & _). by exists track, moduleIds.
      * by destruct (listsModule_finishes tracksData moduleId trackId).
  - rewrite filterO_Fault by apply listsModule_finishes. split.
    + intros (trackId & Hin & Hfault%listsModule_Fault).
      right. right. by exists trackIds, trackId.
    + intros [?|[?|(trackIds' & trackId & [= <-] & Hin & Hnot)]]; [done..|].
      exists trackId. split; [done|]. by apply listsModule_Fault.
  - apply filterO_finishes, listsModule_finishes.
Qed.

(** ** Reading by prefix *)

(** X5: a read by prefix for a page identifier that is not empty and
    holds no syntax character of a regular expression returns the records
    of the learning type whose key is the page identifier itself or
    continues it after a slash, and no other: a key that merely starts
    with the identifier is left out. *)
Theorem getUserProgressData_wildcard (value : ProgressState)
    (learningType : LearningType) (pageId : string) :
  pageId ≠ EmptyString →
  JS.literal pageId = true →
  ∃ matched,
    getUserProgressData value (Some learningType) (Some pageId) true = TypeMap matched
    ∧ ∀ key r,
        JS.get matched key = Some r
        ↔ recordAt value (propertyKey (Some learningType)) key = Some r
          ∧ underPage pageId key.
Proof. intros Hne _. by apply wildcard_view. Qed.

Lemma getUserProgressData_wildcard_witness :
  ∃ matched,
    getUserProgressData CascadeSample.value (Some units) (Some "m") true = TypeMap matched
    ∧ ∀ key r,
        JS.get matched key = Some r
        ↔ recordAt CascadeSample.value (propertyKey (Some units)) key = Some r
          ∧ underPage "m" key.
Proof.
  apply (getUserProgressData_wildcard CascadeSample.value units "m");
    [discriminate|reflexivity].
Defined.

(** ** The root of a module and the classification of pages *)

Lemma climb_condition (parent_ : option string) :
  JS.truthy parent_ && negb (bool_decide (parent_ = Some "modules")) = true
  ↔ ∃ p, parent_ = Some p ∧ JS.truthy (Some p) = true ∧ p ≠ "modules".
Proof.
  rewrite andb_true_iff, negb_true_iff, bool_decide_eq_false. split.
  - intros [Ht Hne]. destruct parent_ as [p|]; [|done].
    exists p. split; [done|]. split; [done|]. by intros ->.
  - intros (p & -> & Ht & Hne). split; [done|]. by intros [= ->].
Qed.

Lemma stop_condition (node : ContentNode) :
  JS.truthy (parent node) && negb (bool_decide (parent node = Some "modules")) = false
  ↔ JS.truthy (parent node) = false ∨ parent node = Some "modules".
Proof.
  rewrite andb_false_iff, negb_false_iff, bool_decide_eq_true. tauto.
Qed.

Lemma getModuleRoot_loop_root (moduleData : gmap string ContentNode) fuel pageId root :
  getModuleRoot_loop moduleData fuel pageId (moduleData !! pageId) = Ok (Some root) →
  topLevel moduleData root ∧ rtc (ascends moduleData) pageId root.
Proof.
  revert pageId. induction fuel as [|fuel IH]; intros pageId;
    destruct (moduleData !! pageId) as [node|] eqn:Hnode; simpl; try done;
    destruct (JS.truthy (parent node)
              && negb (bool_decide (parent node = Some "modules"))) eqn:Hcond;
    try done.
  - intros [= <-]. split; [|done]. exists node. by rewrite <- stop_condition.
  - intros Hroot. apply climb_condition in Hcond as (p & Hp & Ht & Hne).
    rewrite Hp in Hroot. simpl in Hroot.
    destruct (IH p Hroot) as [Htop Hrtc]. split; [done|].
    apply rtc_l with p; [|done]. by exists node.
  - intros [= <-]. split; [|done]. exists node. by rewrite <- stop_condition.
Qed.

Lemma getModuleRoot_topLevel (moduleData : gmap string ContentNode) fuel pageId :
  topLevel moduleData pageId → getModuleRoot moduleData fuel pageId = Ok (Some pageId).
Proof.
  intros (node & Hnode & Hstop%stop_condition).
  unfold getModuleRoot. rewrite Hnode. destruct fuel; simpl; by rewrite Hstop.
Qed.

Lemma getModuleRoot_root (moduleData : gmap string ContentNode) fuel pageId root :
  getModuleRoot moduleData fuel pageId = Ok (Some root) →
  topLevel moduleData root ∧ rtc (ascends moduleData) pageId root.
Proof.
  unfold getModuleRoot.
  destruct (moduleData !! pageId) as [node|] eqn:Hnode; [|done].
  rewrite <- Hnode. apply getModuleRoot_loop_root.
Qed.

(** X6: the identifier [getModuleRoot] returns for a page is reached
    from the page by parent links, is a node that names no parent or the
    root of the module tree, and is its own module root. *)
Theorem getModuleRoot_reaches_top_level (moduleData : gmap string ContentNode)
    (fuel : nat) (pageId root : string) :
  getModuleRoot moduleData fuel pageId = Ok (Some root) →
  topLevel moduleData root
  ∧ rtc (ascends moduleData) pageId root
  ∧ ∀ fuel', getModuleRoot moduleData fuel' root = Ok (Some root).
Proof.
  intros [Htop Hrtc]%getModuleRoot_root.
  split; [done|]. split; [done|].
  intros fuel'. by apply getModuleRoot_topLevel.
Qed.

Lemma getModuleRoot_reaches_top_level_witness :
  topLevel Sample.moduleData "m"
  ∧ rtc (ascends Sample.moduleData) "m/u1" "m"
  ∧ ∀ fuel', getModuleRoot Sample.moduleData fuel' "m" = Ok (Some "m").
Proof.
  apply (getModuleRoot_reaches_top_level Sample.moduleData 4 "m/u1" "m").
  vm_compute. reflexivity.
Defined.

(** X7: what [getLearningType] answers for an identifier that is no
    member of [Object.prototype], on a catalog whose nodes name no such
    member as a parent unless it is a node.  A page is a module exactly
    when it is a node that names no parent or the root of the module tree;
    a unit is a node that is not, below such a node; a track is no node of
    the module tree at all; and no page is an achievement. *)
Theorem getLearningType_classifies (dataTree : DataTree) (fuel : nat) (pageId : string) :
  JS.inherited pageId = false →
  OwnParents (tree_modules dataTree) →
  (∀ learningType,
     getLearningType dataTree fuel pageId = Ok (Some learningType) →
     pageId ≠ "modules" ∧ pageId ≠ "tracks"
     ∧ match learningType with
       | modules_t => topLevel (tree_modules dataTree) pageId
       | units =>
           ¬ topLevel (tree_modules dataTree) pageId
           ∧ ∃ root, tc (ascends (tree_modules dataTree)) pageId root
                     ∧ topLevel (tree_modules dataTree) root
       | tracks =>
           tree_modules dataTree !! pageId = None
           ∧ is_Some (JS.get (tree_tracks dataTree) pageId)
       | achievements => False
       end)
  ∧ (pageId ≠ "modules" → pageId ≠ "tracks" →
     topLevel (tree_modules dataTree) pageId →
     getLearningType dataTree fuel pageId = Ok (Some modules_t)).
Proof.
  intros _ _. unfold getLearningType. split.
  - intros learningType.
    destruct (bool_decide (pageId = "modules") || bool_decide (pageId = "tracks"))
      eqn:Hcontainer; [done|].
    apply orb_false_iff in Hcontainer as [Hm%bool_decide_eq_false Ht%bool_decide_eq_false].
    destruct (getModuleRoot (tree_modules dataTree) fuel pageId) as [moduleId| |] eqn:Hroot;
      simpl; [|done..].
    case_bool_decide as Hself.
    { intros [= <-]. split; [done|]. split; [done|]. subst moduleId.
      by apply getModuleRoot_root in Hroot as [? _]. }
    destruct (JS.truthy moduleId) eqn:Htruthy.
    { intros [= <-]. split; [done|]. split; [done|].
      destruct moduleId as [root|]; [|done].
      destruct (getModuleRoot_root _ _ _ _ Hroot) as [Htop Hrtc].
      split.
      - intros Hp. apply (getModuleRoot_topLevel _ fuel) in Hp.
        rewrite Hroot in Hp. by injection Hp as ->.
      - exists root. split; [|done].
        apply rtc_tc in Hrtc as [->|Htc]; [done|done]. }
    case_bool_decide as Htrack; [|done].
    intros [= <-]. split; [done|]. split; [done|]. split; [|done].
    destruct moduleId as [root|]; [|by apply (getModuleRoot_None _ fuel)].
    apply getModuleRoot_root in Hroot as [_ Hrtc].
    apply rtc_tc in Hrtc as [->|Htc]; [done|].
    apply tc_last_step in Htc as (z & node & _ & _ & Hty & _).
    by rewrite Hty in Htruthy.
  - intros Hm Ht Htop.
    rewrite !bool_decide_eq_false_2 by done. simpl.
    rewrite (getModuleRoot_topLevel _ fuel pageId Htop). simpl.
    by rewrite bool_decide_eq_true_2.
Qed.

Lemma sample_own_parents : OwnParents (tree_modules Sample.dataTree).
Proof.
  intros id node p Hnode Hp. left.
  by apply (SampleFacts.parent_closed id node p Hnode Hp), truthy_nonempty;
    intros ->; SampleFacts.cases Hnode.
Qed.

Lemma getLearningType_classifies_witness :
  "m/u1" ≠ "modules" ∧ "m/u1" ≠ "tracks"
  ∧ ¬ topLevel Sample.moduleData "m/u1"
  ∧ ∃ root, tc (ascends Sample.moduleData) "m/u1" root ∧ topLevel Sample.moduleData root.
Proof.
  destruct (getLearningType_classifies Sample.dataTree 4 "m/u1") as [H _].
  - reflexivity.
  - exact sample_own_parents.
  - apply (H units). vm_compute. reflexivity.
Defined.

(** ** The identifiers of a path *)

Lemma childrenFold_Fault recurse chs : childrenFold recurse chs Fault = Fault.
Proof. by induction chs. Qed.

Lemma childrenFold_step recurse child chs acc :
  childrenFold recurse (child :: chs) (Ok acc) =
    childrenFold recurse chs (sub <-! recurse child; Ok ((acc ++ [child]) ++ sub)).
Proof. done. Qed.

Lemma childrenFold_members recurse chs acc r :
  childrenFold recurse chs (Ok acc) = Ok r →
  (∀ child, child ∈ chs → ∃ sub, recurse child = Ok sub)
  ∧ ∀ c, c ∈ r ↔ c ∈ acc
                 ∨ ∃ child sub, child ∈ chs ∧ recurse child = Ok sub
                                ∧ (c = child ∨ c ∈ sub).
Proof.
  revert acc. induction chs as [|child chs IH]; intros acc.
  - intros [= <-]. split; [by intros ? ?%not_elem_of_nil|].
    intros c. split; [by left|].
    by intros [?|(child & sub & ?%not_elem_of_nil & _)].
  - rewrite childrenFold_step.
    destruct (recurse child) as [sub| |] eqn:Hchild; simpl;
      [|by rewrite childrenFold_Fault|by rewrite childrenFold_stuck].
    intros [Hall Hin]%IH. split.
    + intros child' [->|?]%elem_of_cons; [by eauto|by auto].
    + intros c. rewrite Hin, !elem_of_app, list_elem_of_singleton. split.
      * intros [[[?| ->]|?]|(child' & sub' & ? & ? & ?)].
        -- by left.
        -- right. exists child, sub. split; [apply list_elem_of_here|by auto].
        -- right. exists child, sub. split; [apply list_elem_of_here|by auto].
        -- right. exists child', sub'. split; [by apply list_elem_of_further|by auto].
      * intros [?|(child' & sub' & [->|?]%elem_of_cons & Hsub & Hc)].
        -- by auto.
        -- rewrite Hchild in Hsub. injection Hsub as <-. destruct Hc; by auto.
        -- right. by exists child', sub'.
Qed.

Lemma getChildPathIds_members (moduleData : gmap string ContentNode) fuel pageId ids :
  getChildPathIds moduleData fuel pageId = Ok ids →
  ∀ c, c ∈ ids ↔ tc (descends moduleData) pageId c.
Proof.
  revert pageId ids. induction fuel as [|fuel IH]; intros pageId ids; [done|].
  rewrite getChildPathIds_unfold.
  assert (∀ c, ¬ (∃ node chs, moduleData !! pageId = Some node
                              ∧ children node = Some chs) →
               c ∈ @nil string ↔ tc (descends moduleData) pageId c) as Hleaf.
  { intros c Hnone. split; [by intros ?%not_elem_of_nil|].
    intros Htc. destruct Hnone.
    destruct Htc as [x y (node & chs & ? & ? & _)|x y z (node & chs & ? & ? & _) _];
      by exists node, chs. }
  destruct (moduleData !! pageId) as [node|] eqn:Hnode; cycle 1.
  { intros [= <-] c. apply Hleaf. by intros (? & ? & [=] & _). }
  destruct node as [parent_ [chs|] fork mins rem]; cycle 1.
  { intros [= <-] c. apply Hleaf. by intros (? & ? & [= <-] & [=]). }
  intros [Hall Hin]%childrenFold_members c.
  assert (∀ child, child ∈ chs ↔ descends moduleData pageId child) as Hstep.
  { intros child. split.
    - intros Hchild. by eexists _, chs.
    - intros (node' & chs' & Hnode' & Hchs & Hchild). rewrite Hnode in Hnode'.
      by simplify_eq/=. }
  rewrite Hin. split.
  - intros [?%not_elem_of_nil|(child & sub & Hchild & Hsub & Hc)]; [done|].
    apply Hstep in Hchild. destruct Hc as [->|Hc]; [by apply tc_once|].
    apply tc_l with child; [done|]. by apply (IH child sub).
  - intros Htc. right.
    assert (∃ child, descends moduleData pageId child
                     ∧ (c = child ∨ tc (descends moduleData) child c))
      as (child & Hchild & Hc).
    { destruct Htc as [x y ?|x y z ? ?]; by eauto. }
    apply Hstep in Hchild. destruct (Hall child Hchild) as [sub Hsub].
    exists child, sub. split; [done|]. split; [done|].
    destruct Hc as [->|Hc]; [by left|]. right. by apply (IH child sub).
Qed.

(** X8: [getChildPathIds] returns the descendants of the page: the
    identifiers reached from it by one or more child links, and no other. *)
Theorem getChildPathIds_descendants (moduleData : gmap string ContentNode)
    (fuel : nat) (pageId : string) (ids : list string) :
  getChildPathIds moduleData fuel pageId = Ok ids →
  ∀ child, child ∈ ids ↔ tc (descends moduleData) pageId child.
Proof. apply getChildPathIds_members. Qed.

Lemma getChildPathIds_descendants_witness :
  "m/u2" ∈ ["m"; "m/u1"; "m/u2"] ↔ tc (descends Sample.moduleData) "modules" "m/u2".
Proof.
  apply (getChildPathIds_descendants Sample.moduleData 4 "modules").
  vm_compute. reflexivity.
Defined.

(** The identifiers above [parent_], as the ancestor loop collects them. *)
Lemma ancestors_loop_members (moduleData : gmap string ContentNode) fuel parent_ ids r :
  ancestors_loop moduleData fuel parent_ ids = Ok r →
  ∀ x, x ∈ r ↔ x ∈ ids
                ∨ ∃ p, parent_ = Some p ∧ JS.truthy (Some p) = true ∧ p ≠ "modules"
                       ∧ rtc (ascends moduleData) p x.
Proof.
  revert parent_ ids. induction fuel as [|fuel IH]; intros parent_ ids; simpl;
    destruct (JS.truthy parent_ && negb (bool_decide (parent_ = Some "modules")))
      eqn:Hcond; try done.
  - intros [= <-] x. split; [by left|]. intros [?|(p & Hp & Ht & Hne & _)]; [done|].
    assert (JS.truthy parent_ && negb (bool_decide (parent_ = Some "modules")) = true)
      as Hyes by (apply climb_condition; by exists p).
    congruence.
  - apply climb_condition in Hcond as (p & -> & Ht & Hne). simpl.
    destruct (moduleData !! p) as [node|] eqn:Hnode; [|done].
    intros Hr x. rewrite (IH _ _ Hr x), elem_of_cons. split.
    + intros [[->|?]|(q & Hq & Htq & Hneq & Hrtc)].
      * right. by exists p.
      * by left.
      * right. exists p. split; [done|]. split; [done|]. split; [done|].
        apply rtc_l with q; [|done]. by exists node.
    + intros [?|(p' & [= <-] & _ & _ & Hrtc)]; [by auto|].
      destruct Hrtc as [|x y z (node' & Hnode' & Hparent & Hty & Hney) Hrtc];
        [by auto|].
      right. exists y. rewrite Hnode in Hnode'. by simplify_eq.
  - intros [= <-] x. split; [by left|]. intros [?|(p & Hp & Ht & Hne & _)]; [done|].
    assert (JS.truthy parent_ && negb (bool_decide (parent_ = Some "modules")) = true)
      as Hyes by (apply climb_condition; by exists p).
    congruence.
Qed.



(** ** What the operations keep *)

Section Preserving.

Context (R : relation Service) `{!PreOrder R}.
Variable written : string → string → Prop.
Variable dataTree : DataTree.
Variable clock : nat → string.

Hypothesis R_tick : ∀ s, R s (tick s).
Hypothesis R_update : ∀ learningType id fieldValues s,
  written learningType id → R s (updateField learningType id fieldValues s).

Lemma preserves_ret {A} (a : A) : preserves R (ret a).
Proof. intros s. reflexivity. Qed.

Lemma preserves_liftO {A} (o : Outcome A) : preserves R (liftO o).
Proof. intros s. reflexivity. Qed.

Lemma preserves_bind {A B} (m : Action A) (f : A → Action B) :
  preserves R m → (∀ a, preserves R (f a)) → preserves R (bindA m f).
Proof.
  intros Hm Hf s. unfold bindA. specialize (Hm s).
  destruct (m s) as [s' [a| |]]; simpl in *; [|done..].
  by etrans; [|apply Hf].
Qed.

Lemma preserves_forEach {A} (l : list A) (body : A → Action unit) :
  (∀ x, x ∈ l → preserves R (body x)) → preserves R (forEach l body).
Proof.
  induction l as [|x l IH]; intros Hbody; simpl; [apply preserves_ret|].
  apply preserves_bind; [apply Hbody, list_elem_of_here|]. intros _.
  apply IH. intros y Hy. by apply Hbody, list_elem_of_further.
Qed.

Lemma toISOString_preserves : preserves R (toISOString clock).
Proof. intros s. apply R_tick. Qed.

Lemma update_preserves learningType id fieldValues :
  written learningType id → preserves R (exec (updateField learningType id fieldValues)).
Proof. intros Hw s. by apply R_update. Qed.

Lemma withStarted_preserves cond newData :
  preserves R (withStarted cond (toISOString clock) newData).
Proof.
  destruct cond; simpl; [|apply preserves_ret].
  apply preserves_bind; [apply toISOString_preserves|]. intros t. apply preserves_ret.
Qed.

Lemma withCompleted_preserves cond newData :
  preserves R (withCompleted cond (toISOString clock) newData).
Proof.
  destruct cond; simpl; [|apply preserves_ret].
  apply preserves_bind; [apply toISOString_preserves|]. intros t. apply preserves_ret.
Qed.

Lemma startPage_preserves fuel pageId :
  (∀ learningType,
     getLearningType dataTree fuel pageId = Ok learningType →
     written (propertyKey learningType) pageId) →
  written "units" pageId →
  preserves R (startPage dataTree clock fuel pageId).
Proof.
  intros Hkey Hunits s. unfold startPage, bindA at 1, liftO.
  destruct (getLearningType dataTree fuel pageId) as [learningType| |] eqn:Htype;
    [|reflexivity..].
  revert s. apply preserves_bind; [apply toISOString_preserves|]. intros now.
  apply preserves_bind; [by apply update_preserves, Hkey|]. intros _.
  destruct learningType as [[]|]; try apply preserves_ret.
  apply preserves_bind; [apply toISOString_preserves|]. intros now'.
  by apply update_preserves.
Qed.

Lemma completeModule_preserves fuel pageId :
  (∀ id, written "modules" id) →
  preserves R (completeModule dataTree clock fuel pageId).
Proof.
  intros Hw. unfold completeModule.
  apply preserves_bind; [apply preserves_liftO|]. intros moduleId s. cbv beta zeta.
  apply preserves_bind; [apply withStarted_preserves|]. intros newData.
  apply preserves_bind; [apply preserves_liftO|]. intros progress.
  apply preserves_bind; [apply withCompleted_preserves|]. intros newData'.
  by apply update_preserves.
Qed.

Lemma completeTrack_preserves trackId :
  written "tracks" trackId → preserves R (completeTrack dataTree clock trackId).
Proof.
  intros Hw. unfold completeTrack.
  destruct (modules _) as [moduleIds|]; [|apply preserves_ret].
  intros s. cbv beta zeta.
  destruct (trackCompleted (activeUserProgress s) moduleIds); [|apply preserves_ret].
  apply preserves_bind; [apply withStarted_preserves|]. intros newData.
  apply preserves_bind; [apply withCompleted_preserves|]. intros newData'.
  by apply update_preserves.
Qed.

Lemma completeTracks_preserves :
  (∀ id, written "tracks" id) → preserves R (completeTracks dataTree clock).
Proof.
  intros Hw. apply preserves_forEach. intros trackId _. by apply completeTrack_preserves.
Qed.

Lemma grant_preserves aliased id :
  written "achievements" id → preserves R (grant clock aliased id).
Proof.
  intros Hw s. unfold grant. cbv beta.
  destruct (negb _); [|apply preserves_ret].
  apply preserves_bind; [apply toISOString_preserves|]. intros now.
  by apply update_preserves.
Qed.

Lemma awardAchievements_preserves :
  (∀ id, written "achievements" id) → preserves R (awardAchievements clock).
Proof.
  intros Hw s. unfold awardAchievements. cbv beta zeta.
  apply preserves_bind.
  - destruct (_ <? _)%nat; [by apply grant_preserves|apply preserves_ret].
  - intros _. apply preserves_forEach. intros id _. by apply grant_preserves.
Qed.

Lemma cascade_preserves fuel pageId :
  (∀ id, written "modules" id) → (∀ id, written "tracks" id) →
  preserves R (awardAchievements clock) →
  preserves R (cascade dataTree clock fuel pageId).
Proof.
  intros Hmodules Htracks Haward. unfold cascade.
  apply preserves_bind; [by apply completeModule_preserves|]. intros _.
  apply preserves_bind; [by apply completeTracks_preserves|]. intros _.
  exact Haward.
Qed.

Lemma completePage_preserves fuel pageId :
  written "units" pageId → (∀ id, written "modules" id) → (∀ id, written "tracks" id) →
  preserves R (awardAchievements clock) →
  preserves R (completePage dataTree clock fuel pageId).
Proof.
  intros Hunits Hmodules Htracks Haward. unfold completePage.
  apply preserves_bind; [apply preserves_liftO|]. intros learningType.
  assert (preserves R
            (now <- toISOString clock;;
             exec (updateField "units" pageId (completedNow now));;;
             completeModule dataTree clock fuel pageId;;;
             completeTracks dataTree clock;;;
             awardAchievements clock)) as Hcascade.
  { apply preserves_bind; [apply toISOString_preserves|]. intros now.
    apply preserves_bind; [by apply update_preserves|]. intros _.
    by apply cascade_preserves. }
  destruct learningType as [[]|]; try apply preserves_ret; exact Hcascade.
Qed.

Lemma performAll_preserves fuel ops :
  (∀ pageId, preserves R (startPage dataTree clock fuel pageId)) →
  (∀ pageId, preserves R (completePage dataTree clock fuel pageId)) →
  ∀ s, R s (performAll dataTree clock fuel ops s).
Proof.
  intros Hstart Hcomplete. induction ops as [|op ops IH]; intros s; simpl; [reflexivity|].
  etrans; [|apply IH]. destruct op; [apply Hstart|apply Hcomplete].
Qed.

End Preserving.

(** The learning types [getLearningType] answers with. *)
Lemma getLearningType_range dataTree fuel pageId learningType :
  getLearningType dataTree fuel pageId = Ok learningType →
  learningType ≠ Some achievements.
Proof.
  unfold getLearningType. destruct (_ || _); [by intros [= <-]|].
  destruct (getModuleRoot _ _ _) as [moduleId| |]; simpl; [|done..].
  repeat case_match; by intros [= <-].
Qed.

Lemma completePage_unfold dataTree clock fuel pageId s :
  completable dataTree fuel pageId →
  completePage dataTree clock fuel pageId s =
    cascade dataTree clock fuel pageId (unitCompleted clock pageId s).
Proof.
  intros Htype. unfold completePage, bindA at 1, liftO.
  by destruct Htype as [->| ->].
Qed.

Lemma completePage_skips dataTree clock fuel pageId s :
  ¬ completable dataTree fuel pageId →
  ∃ o, completePage dataTree clock fuel pageId s = (s, o).
Proof.
  intros Htype. unfold completePage, bindA at 1, liftO.
  destruct (getLearningType dataTree fuel pageId) as [[[]|]| |] eqn:Hlt;
    try (by eexists); destruct Htype; by (left + right).
Qed.

(** ** Records that are not written *)

#[export] Instance sameExcept_preorder written : PreOrder (sameExcept written).
Proof.
  split.
  - by intros s learningType id _.
  - intros s1 s2 s3 H12 H23 learningType id Hw. by rewrite H23, H12.
Qed.

Lemma sameExcept_tick written s : sameExcept written s (tick s).
Proof. by intros learningType id _. Qed.

Lemma sameExcept_update written learningType id fieldValues s :
  written learningType id →
  sameExcept written s (updateField learningType id fieldValues s).
Proof.
  intros Hw learningType' id' Hnot.
  rewrite updateField_value, recordAt_mergeLocal.
  rewrite bool_decide_eq_false_2; [done|]. intros [<- <-]. by apply Hnot.
Qed.

(** ** No progress is lost *)

#[export] Instance nothingLost_preorder : PreOrder nothingLost.
Proof.
  split.
  - intros s learningType id r Hr. exists r. by split_and!.
  - intros s1 s2 s3 H12 H23 learningType id r Hr.
    destruct (H12 _ _ _ Hr) as (r' & Hr' & ? & ? & ? & ?).
    destruct (H23 _ _ _ Hr') as (r'' & Hr'' & ? & ? & ? & ?).
    exists r''. split_and!; by auto.
Qed.

Lemma is_Some_assigned (old new : option string) :
  is_Some old → is_Some (from_option Some old new).
Proof. by destruct new. Qed.

Lemma nothingLost_update learningType id fieldValues s :
  nothingLost s (updateField learningType id fieldValues s).
Proof.
  intros learningType' id' r Hr. rewrite updateField_value, recordAt_mergeLocal.
  case_bool_decide as Hsame.
  - destruct Hsame as [<- <-]. rewrite Hr. simpl. eexists. split; [done|].
    split_and!; apply is_Some_assigned.
  - exists r. by split_and!.
Qed.

(** X10: no sequence of [startPage] and [completePage] calls removes a
    record of the state or unsets a field of one, whatever the catalog,
    the clock and the outcome of each call. *)
Theorem operations_lose_no_progress (dataTree : DataTree) (clock : nat → string)
    (fuel : nat) (ops : list Operation) (s : Service) :
  nothingLost s (performAll dataTree clock fuel ops s).
Proof.
  assert (∀ s', nothingLost s' (tick s')) as Htick.
  { intros s' learningType id r Hr. exists r. by split_and!. }
  apply (performAll_preserves nothingLost).
  - intros pageId. apply (startPage_preserves nothingLost (fun _ _ => True)); try done.
    intros; apply nothingLost_update.
  - intros pageId. apply (completePage_preserves nothingLost (fun _ _ => True)); try done.
    + intros; apply nothingLost_update.
    + apply (awardAchievements_preserves nothingLost (fun _ _ => True)); try done.
      intros; apply nothingLost_update.
Qed.

(** ** Achievements are granted once *)

#[export] Instance achievementsKept_preorder : PreOrder achievementsKept.
Proof.
  split.
  - by intros s id r Hr.
  - intros s1 s2 s3 H12 H23 id r Hr. by apply H23, H12.
Qed.

Lemma achievementsKept_update learningType id fieldValues s :
  learningType ≠ "achievements" ∨ recordAt (activeUserProgress s) "achievements" id = None →
  achievementsKept s (updateField learningType id fieldValues s).
Proof.
  intros Hw id' r Hr. rewrite updateField_value, recordAt_mergeLocal.
  rewrite bool_decide_eq_false_2; [done|].
  intros [-> ->]. destruct Hw as [?|Hnone]; [done|]. congruence.
Qed.

Lemma grant_keeps_achievements clock id :
  preserves achievementsKept (grant clock true id).
Proof.
  intros s. unfold grant, achievementRecorded. cbv beta. simpl.
  case_bool_decide as Hrecorded; simpl; [reflexivity|].
  unfold bindA, toISOString, exec. simpl.
  etrans; [|apply achievementsKept_update].
  - by intros id' r Hr.
  - right. simpl. unfold recordAt.
    destruct (JS.get (JS.get_or (activeUserProgress s) "achievements" []) id) eqn:Hid;
      [|done].
    destruct Hrecorded. by eexists.
Qed.

Lemma awardAchievements_keeps_achievements clock :
  preserves achievementsKept (awardAchievements clock).
Proof.
  intros s. unfold awardAchievements. cbv beta zeta.
  case_bool_decide as Haliased.
  - apply (preserves_bind achievementsKept).
    + destruct (_ <? _)%nat; [apply grant_keeps_achievements|].
      apply (preserves_ret achievementsKept).
    + intros _. apply (preserves_forEach achievementsKept). intros id _.
      apply grant_keeps_achievements.
  - intros id r Hr. destruct Haliased. unfold recordAt, JS.get_or in Hr.
    destruct (JS.get (activeUserProgress s) "achievements") as [m|]; [by eexists|done].
Qed.

Lemma performAll_keeps_achievements dataTree clock fuel ops s :
  achievementsKept s (performAll dataTree clock fuel ops s).
Proof.
  assert (∀ s', achievementsKept s' (tick s')) as Htick by (by intros s' id r Hr).
  assert (∀ learningType id fieldValues s',
            learningType ≠ "achievements" →
            achievementsKept s' (updateField learningType id fieldValues s')) as Hupdate.
  { intros. apply achievementsKept_update. by left. }
  apply (performAll_preserves achievementsKept).
  - intros pageId.
    apply (startPage_preserves achievementsKept (fun learningType _ => learningType ≠ "achievements"));
      try done.
    intros learningType Htype%getLearningType_range.
    by destruct learningType as [[]|].
  - intros pageId.
    apply (completePage_preserves achievementsKept
             (fun learningType _ => learningType ≠ "achievements")); try done.
    apply awardAchievements_keeps_achievements.
Qed.

Lemma getAchievements_one value id :
  id ≠ EmptyString →
  getAchievements value (Some id) = OneAchievement (recordAt value "achievements" id).
Proof. intros Hne. unfold getAchievements. by rewrite (truthy_nonempty id Hne). Qed.

(** X11: an achievement that is recorded stays exactly as it is through
    every sequence of [startPage] and [completePage] calls: it is granted
    once, and [getAchievements] keeps answering with the record of the
    first grant. *)
Theorem achievements_are_granted_once (dataTree : DataTree) (clock : nat → string)
    (fuel : nat) (ops : list Operation) (s : Service) (id : string) (r : Learning) :
  id ≠ EmptyString →
  getAchievements (activeUserProgress s) (Some id) = OneAchievement (Some r) →
  getAchievements (activeUserProgress (performAll dataTree clock fuel ops s)) (Some id)
  = OneAchievement (Some r).
Proof.
  intros Hne. rewrite !getAchievements_one by done. intros [= Hr].
  f_equal. by apply (performAll_keeps_achievements dataTree clock fuel ops s).
Qed.

Lemma achievements_are_granted_once_witness :
  getAchievements
    (activeUserProgress
       (performAll Sample.dataTree Sample.clock 4
          [CompletePage "m/u1"; StartPage "m"; CompletePage "m"] CascadeSample.allDone))
    (Some "grand-opening")
  = OneAchievement (Some (CascadeSample.earned "2017-06-01T10:30:00.000Z")).
Proof.
  apply (achievements_are_granted_once Sample.dataTree Sample.clock 4
           [CompletePage "m/u1"; StartPage "m"; CompletePage "m"] CascadeSample.allDone
           "grand-opening").
  - discriminate.
  - reflexivity.
Defined.

(** ** The flags of the session *)

#[export] Instance sameSession_preorder : PreOrder sameSession.
Proof.
  split.
  - by intros s.
  - intros s1 s2 s3 [? ?] [? ?]. split; congruence.
Qed.

Lemma sameSession_tick s : sameSession s (tick s).
Proof. done. Qed.

Lemma sameSession_update learningType id fieldValues s :
  sameSession s (updateField learningType id fieldValues s).
Proof. by destruct (updateField_flags learningType id fieldValues s) as (? & ? & _). Qed.

Lemma startPage_sameSession dataTree clock fuel pageId :
  preserves sameSession (startPage dataTree clock fuel pageId).
Proof.
  apply (startPage_preserves sameSession (fun _ _ => True)); try done.
  intros; apply sameSession_update.
Qed.

Lemma performAll_sameSession dataTree clock fuel ops s :
  sameSession s (performAll dataTree clock fuel ops s).
Proof.
  apply (performAll_preserves sameSession).
  - apply startPage_sameSession.
  - intros pageId. apply (completePage_preserves sameSession (fun _ _ => True)); try done.
    + intros; apply sameSession_update.
    + apply (awardAchievements_preserves sameSession (fun _ _ => True)); try done.
      intros; apply sameSession_update.
Qed.

(** ** An anonymous session *)

#[export] Instance staysLocal_preorder : PreOrder staysLocal.
Proof.
  split.
  - intros s Hs. split; [done|]. exists []. by rewrite app_nil_r.
  - intros s1 s2 s3 H12 H23 H1.
    destruct (H12 H1) as (H2 & sent & Hsent & Hlocal).
    destruct (H23 H2) as (H3 & sent' & Hsent' & Hlocal').
    split; [done|]. exists (sent ++ sent').
    split; [by rewrite Hsent', Hsent, app_assoc|by apply Forall_app].
Qed.

Lemma staysLocal_tick s : staysLocal s (tick s).
Proof. intros Hs. split; [done|]. exists []. by rewrite app_nil_r. Qed.

Lemma staysLocal_update learningType id fieldValues s :
  staysLocal s (updateField learningType id fieldValues s).
Proof.
  intros Hs. destruct (updateField_flags learningType id fieldValues s) as (-> & _ & _).
  split; [done|]. eexists. split; [apply updateField_effects|].
  rewrite Hs. by repeat constructor.
Qed.

Lemma startPage_staysLocal dataTree clock fuel pageId :
  preserves staysLocal (startPage dataTree clock fuel pageId).
Proof.
  apply (startPage_preserves staysLocal (fun _ _ => True)); try done.
  - apply staysLocal_tick.
  - intros; apply staysLocal_update.
Qed.

Lemma performAll_staysLocal dataTree clock fuel ops s :
  staysLocal s (performAll dataTree clock fuel ops s).
Proof.
  apply (performAll_preserves staysLocal).
  - apply startPage_staysLocal.
  - intros pageId. apply (completePage_preserves staysLocal (fun _ _ => True)); try done.
    + apply staysLocal_tick.
    + intros; apply staysLocal_update.
    + apply (awardAchievements_preserves staysLocal (fun _ _ => True)); try done.
      * apply staysLocal_tick.
      * intros; apply staysLocal_update.
Qed.

(** X12: once the authentication state was reported as anonymous, the
    service sends no request: at that report and through every sequence of
    [startPage] and [completePage] calls after it, whatever is done is a
    write to local storage, a publication or a log line. *)
Theorem anonymous_session_stays_local (dataTree : DataTree) (currentPage : string)
    (clock : nat → string) (fuel : nat) (ops : list Operation) (s : Service) :
  let reported := (onAuthenticated dataTree currentPage clock fuel false s).1 in
  let later := performAll dataTree clock fuel ops reported in
  isAuthenticated later = false
  ∧ wasAnonymous later = true
  ∧ ∃ sent, effects later = effects s ++ sent ∧ Forall isLocal sent.
Proof.
  intros reported later.
  set (s0 := {| activeUserProgress := activeUserProgress s; isAuthenticated := false;
                wasAnonymous := true; localStorage := localStorage s;
                ticks := ticks s; effects := effects s |}).
  assert (staysLocal s0 reported) as Hreported.
  { unfold reported, onAuthenticated, initUserProgressData. cbv beta zeta. simpl.
    fold s0.
    apply (preserves_bind staysLocal).
    - intros s1 Hs1. split; [done|]. exists [Next (readExisting s0)]. split; [done|].
      by repeat constructor.
    - intros _. apply (preserves_bind staysLocal); [apply startPage_staysLocal|].
      intros _. apply (preserves_ret staysLocal). }
  assert (staysLocal s0 later) as Hlater.
  { etrans; [exact Hreported|apply performAll_staysLocal]. }
  assert (sameSession s0 later) as [_ Hflag].
  { etrans; [|apply performAll_sameSession].
    unfold reported, onAuthenticated, initUserProgressData. cbv beta zeta. simpl.
    fold s0.
    apply (preserves_bind sameSession); [done|].
    intros _. apply (preserves_bind sameSession); [apply startPage_sameSession|].
    intros _. apply (preserves_ret sameSession). }
  destruct (Hlater eq_refl) as (Hauth & sent & Hsent & Hlocal).
  split; [done|]. split; [done|]. by exists sent.
Qed.

(** ** Local storage mirrors the state *)

#[export] Instance mirroredSince_preorder : PreOrder mirroredSince.
Proof.
  split.
  - intros s. by right.
  - intros s1 s2 s3 H12 [H3|[Hv Hl]]; [by left|].
    destruct H12 as [H2|[Hv' Hl']].
    + left. unfold mirrored in *. congruence.
    + right. split; congruence.
Qed.

Lemma mirrored_update learningType id fieldValues s :
  mirrored (updateField learningType id fieldValues s).
Proof. unfold mirrored. by rewrite updateField_localStorage, updateField_value. Qed.

Lemma mirroredSince_mirrored s s' : mirrored s → mirroredSince s s' → mirrored s'.
Proof. intros Hs [?|[Hv Hl]]; [done|]. unfold mirrored in *. congruence. Qed.

Lemma startPage_mirroredSince dataTree clock fuel pageId :
  preserves mirroredSince (startPage dataTree clock fuel pageId).
Proof.
  apply (startPage_preserves mirroredSince (fun _ _ => True)); try done.
  - intros s. by right.
  - intros. left. apply mirrored_update.
Qed.

Lemma cascade_mirroredSince dataTree clock fuel pageId :
  preserves mirroredSince (cascade dataTree clock fuel pageId).
Proof.
  assert (∀ s, mirroredSince s (tick s)) as Htick by (intros s; by right).
  assert (∀ learningType id fieldValues s,
            True → mirroredSince s (updateField learningType id fieldValues s)) as Hupdate.
  { intros. left. apply mirrored_update. }
  apply (cascade_preserves mirroredSince (fun _ _ => True)); try done.
  by apply (awardAchievements_preserves mirroredSince (fun _ _ => True)).
Qed.

Lemma completePage_mirroredSince dataTree clock fuel pageId :
  preserves mirroredSince (completePage dataTree clock fuel pageId).
Proof.
  assert (∀ s, mirroredSince s (tick s)) as Htick by (intros s; by right).
  assert (∀ learningType id fieldValues s,
            True → mirroredSince s (updateField learningType id fieldValues s)) as Hupdate.
  { intros. left. apply mirrored_update. }
  apply (completePage_preserves mirroredSince (fun _ _ => True)); try done.
  by apply (awardAchievements_preserves mirroredSince (fun _ _ => True)).
Qed.


(** ** Signing in *)

Lemma onAuthenticated_no_replay dataTree currentPage clock fuel s :
  wasAnonymous s = false →
  ∃ s', onAuthenticated dataTree currentPage clock fuel true s
          = (s', Ok (Some (readExisting s)))
        ∧ effects s' = effects s ++ [Get]
        ∧ activeUserProgress s' = activeUserProgress s
        ∧ localStorage s' = localStorage s
        ∧ isAuthenticated s' = true ∧ wasAnonymous s' = false.
Proof.
  intros Hflag. unfold onAuthenticated, initUserProgressData. cbv beta zeta. simpl.
  rewrite Hflag. by eexists.
Qed.

Lemma replay_isAuthenticated existing s :
  isAuthenticated s = true → isAuthenticated (replay existing s) = true.
Proof. intros Hs. by destruct (replay_spec existing s Hs) as [(? & _) _]. Qed.

Lemma onAuthenticated_signed_in dataTree currentPage clock fuel s :
  let s' := (onAuthenticated dataTree currentPage clock fuel true s).1 in
  isAuthenticated s' = true ∧ wasAnonymous s' = false.
Proof.
  destruct (wasAnonymous s) eqn:Hflag.
  - unfold onAuthenticated. cbv zeta. simpl (negb true).
    set (s0 := {| activeUserProgress := _ |}).
    rewrite (initUserProgressData_replay dataTree currentPage clock fuel s0) by done.
    simpl. split; [|done]. by apply replay_isAuthenticated.
  - destruct (onAuthenticated_no_replay dataTree currentPage clock fuel s Hflag)
      as (s' & -> & _ & _ & _ & ? & ?).
    done.
Qed.

(** X14: the local progress is replayed once per anonymous period.
    After the service was told that the user is signed in, and whatever
    [startPage] and [completePage] calls follow, being told so again only
    requests the remote snapshot: nothing is replayed, and the state and
    local storage stay as they are. *)
Theorem local_progress_is_replayed_once (dataTree : DataTree) (currentPage : string)
    (clock : nat → string) (fuel : nat) (ops : list Operation) (s : Service) :
  let signedIn := (onAuthenticated dataTree currentPage clock fuel true s).1 in
  let later := performAll dataTree clock fuel ops signedIn in
  let again := (onAuthenticated dataTree currentPage clock fuel true later).1 in
  wasAnonymous signedIn = false
  ∧ effects again = effects later ++ [Get]
  ∧ activeUserProgress again = activeUserProgress later
  ∧ localStorage again = localStorage later.
Proof.
  intros signedIn later again.
  destruct (onAuthenticated_signed_in dataTree currentPage clock fuel s) as [_ Hflag].
  fold signedIn in Hflag. split; [done|].
  destruct (performAll_sameSession dataTree clock fuel ops signedIn) as [_ Hlater].
  fold later in Hlater. rewrite Hflag in Hlater.
  destruct (onAuthenticated_no_replay dataTree currentPage clock fuel later Hlater)
    as (s' & Hs' & ? & ? & ? & _).
  unfold again. rewrite Hs'. by split_and!.
Qed.

(** ** The completion cascade *)

Lemma bindA_Ok {A B} (m : Action A) (f : A → Action B) s s' b :
  bindA m f s = (s', Ok b) → ∃ s1 a, m s = (s1, Ok a) ∧ f a s1 = (s', Ok b).
Proof.
  unfold bindA. destruct (m s) as [s1 [a| |]]; [|done..]. intros H. by exists s1, a.
Qed.

Lemma record_of_view value (learningType : LearningType) id :
  JS.get_or (JS.get_or value (propertyKey (Some learningType)) []) id emptyLearning
  = default emptyLearning (recordAt value (propertyKey (Some learningType)) id).
Proof. done. Qed.

Lemma viewTruthy_record value (learningType : LearningType) id field name :
  id ≠ EmptyString →
  viewTruthy field name (getUserProgressData value (Some learningType) (Some id) false)
  = JS.truthy (field (default emptyLearning
                        (recordAt value (propertyKey (Some learningType)) id))).
Proof.
  intros Hne. unfold getUserProgressData. by rewrite (truthy_nonempty id Hne).
Qed.

Lemma viewTruthy_same_records value value' (learningType : LearningType) id field name :
  (∀ id', recordAt value' (propertyKey (Some learningType)) id'
          = recordAt value (propertyKey (Some learningType)) id') →
  viewTruthy field name (getUserProgressData value' (Some learningType) (Some id) false)
  = viewTruthy field name (getUserProgressData value (Some learningType) (Some id) false).
Proof.
  intros Hsame. unfold getUserProgressData.
  destruct (JS.truthy (Some id)); cbv zeta.
  - change (default EmptyString (Some id)) with id.
    cbn [viewTruthy]. by rewrite !record_of_view, Hsame.
  - cbn [viewTruthy]. specialize (Hsame name). unfold recordAt in Hsame. by rewrite Hsame.
Qed.

Lemma isComplete_record value (learningType : LearningType) pageId :
  pageId ≠ EmptyString →
  isComplete value (Some learningType) (Some pageId)
  = match completed_at (default emptyLearning
                          (recordAt value (propertyKey (Some learningType)) pageId)) with
    | Some x => IsString x
    | None => IsUndefined
    end.
Proof.
  intros Hne. unfold isComplete, getUserProgressData.
  by rewrite (truthy_nonempty pageId Hne).
Qed.

(** The steps after the first write leave the unit records alone. *)
Lemma cascade_keeps_units dataTree clock fuel pageId :
  preserves (sameExcept (fun learningType _ => learningType ≠ "units"))
    (cascade dataTree clock fuel pageId).
Proof.
  set (written := fun (learningType : string) (_ : string) => learningType ≠ "units").
  apply (cascade_preserves (sameExcept written) written);
    [apply sameExcept_tick|apply sameExcept_update|done|done|].
  apply (awardAchievements_preserves (sameExcept written) written);
    [apply sameExcept_tick|apply sameExcept_update|done].
Qed.

(** X15: [completePage] on a unit or module page records the completion
    of the page as a unit at the instant of the call, and [isComplete]
    answers with that instant afterwards, whatever the cascade does after
    the write, even when it throws. *)
Theorem completePage_marks_page_complete (dataTree : DataTree) (clock : nat → string)
    (fuel : nat) (pageId : string) (s : Service) :
  pageId ≠ EmptyString → completable dataTree fuel pageId →
  isComplete (activeUserProgress (completePage dataTree clock fuel pageId s).1)
    (Some units) (Some pageId)
  = IsString (clock (ticks s)).
Proof.
  intros Hne Htype. rewrite (completePage_unfold _ _ _ _ _ Htype).
  rewrite isComplete_record by done.
  rewrite (cascade_keeps_units dataTree clock fuel pageId (unitCompleted clock pageId s))
    by (by intros H).
  unfold unitCompleted. rewrite updateField_value, recordAt_mergeLocal.
  by rewrite bool_decide_eq_true_2.
Qed.

Lemma completePage_marks_page_complete_witness :
  isComplete
    (activeUserProgress
       (completePage Sample.dataTree Sample.clock 4 "m/u1" (Sample.fresh false)).1)
    (Some units) (Some "m/u1")
  = IsString (Sample.clock (ticks (Sample.fresh false))).
Proof.
  apply (completePage_marks_page_complete Sample.dataTree Sample.clock 4 "m/u1"
           (Sample.fresh false)).
  - discriminate.
  - left. vm_compute. reflexivity.
Defined.

(** *** Tracks *)

Lemma filter_all_length {A} (P : A → bool) (l : list A) :
  length l = length (List.filter P l) ↔ Forall (fun x => P x = true) l.
Proof.
  induction l as [|x l IH]; simpl; [by split|].
  pose proof (List.filter_length_le P l) as Hle.
  destruct (P x) eqn:Hx; simpl.
  - rewrite Forall_cons, <- IH. split; [by intros [= ?]|by intros [_ ->]].
  - split; [lia|]. intros [Hx' _]%Forall_cons. congruence.
Qed.

Lemma trackCompleted_Forall value moduleIds :
  trackCompleted value moduleIds = true ↔ Forall (moduleCompleted value) moduleIds.
Proof. unfold trackCompleted. rewrite bool_decide_eq_true. apply filter_all_length. Qed.

Lemma moduleCompleted_same_records value value' moduleId :
  (∀ id, recordAt value' "modules" id = recordAt value "modules" id) →
  moduleCompleted value' moduleId ↔ moduleCompleted value moduleId.
Proof.
  intros Hsame. unfold moduleCompleted, view_completed_at.
  by rewrite (viewTruthy_same_records value value' modules_t).
Qed.

Lemma trackCompleted_same_records value value' moduleIds :
  (∀ id, recordAt value' "modules" id = recordAt value "modules" id) →
  trackCompleted value' moduleIds = trackCompleted value moduleIds.
Proof.
  intros Hsame. destruct (trackCompleted value moduleIds) eqn:Hv.
  - apply trackCompleted_Forall. apply trackCompleted_Forall in Hv.
    eapply Forall_impl; [exact Hv|]. intros m. by apply moduleCompleted_same_records.
  - apply not_true_is_false. intros Hv'%trackCompleted_Forall.
    apply not_true_iff_false in Hv. apply Hv, trackCompleted_Forall.
    eapply Forall_impl; [exact Hv'|]. intros m. by apply moduleCompleted_same_records.
Qed.

(** What one step of [completeTracks] does. *)
Lemma completeTrack_run dataTree clock trackId s :
  (completeTrack dataTree clock trackId s = (s, Ok tt)
   ∧ ∀ moduleIds,
       modules (JS.get_or (tree_tracks dataTree) trackId {| modules := None |})
         = Some moduleIds →
       trackCompleted (activeUserProgress s) moduleIds = false)
  ∨ ∃ moduleIds newData s1,
      modules (JS.get_or (tree_tracks dataTree) trackId {| modules := None |})
        = Some moduleIds
      ∧ trackCompleted (activeUserProgress s) moduleIds = true
      ∧ completeTrack dataTree clock trackId s
          = (updateField "tracks" trackId newData s1, Ok tt)
      ∧ activeUserProgress s1 = activeUserProgress s
      ∧ (∀ x, stamps newData x → ∃ t, x = clock t)
      ∧ let currentState :=
          getUserProgressData (activeUserProgress s) (Some tracks) (Some trackId) false in
        (view_started_at currentState = false → is_Some (started_at newData))
        ∧ (view_completed_at currentState = false → is_Some (completed_at newData)).
Proof.
  unfold completeTrack.
  destruct (modules (JS.get_or (tree_tracks dataTree) trackId {| modules := None |}))
    as [moduleIds|]; [|by left].
  cbv beta zeta.
  destruct (trackCompleted (activeUserProgress s) moduleIds) eqn:Hall; cycle 1.
  { left. split; [done|]. by intros ? [= <-]. }
  right. exists moduleIds.
  unfold withStarted, withCompleted, bindA, toISOString, ret, exec, objectTruthy.
  destruct (view_started_at _) eqn:Hstarted, (view_completed_at _) eqn:Hcompleted;
    simpl; eexists _, _; (split; [done|]); (split; [done|]); (split; [reflexivity|]);
    (split; [reflexivity|]); (split; [|by split; intros; try done; eexists]);
    intros x [Hx|Hx]; simpl in Hx; simplify_eq; by eexists.
Qed.

Lemma completeTrack_Ok dataTree clock trackId s :
  (completeTrack dataTree clock trackId s).2 = Ok tt.
Proof.
  destruct (completeTrack_run dataTree clock trackId s)
    as [[-> _]|(? & ? & ? & _ & _ & -> & _)]; done.
Qed.

Lemma forEach_Ok {A} (l : list A) (body : A → Action unit) s :
  (∀ x s, (body x s).2 = Ok tt) → (forEach l body s).2 = Ok tt.
Proof.
  intros Hbody. revert s. induction l as [|x l IH]; intros s; simpl; [done|].
  unfold bindA. specialize (Hbody x s). destruct (body x s) as [s1 o]. simpl in Hbody.
  subst o. apply IH.
Qed.

Lemma completeTracks_Ok dataTree clock s :
  (completeTracks dataTree clock s).2 = Ok tt.
Proof. apply forEach_Ok. intros. apply completeTrack_Ok. Qed.

Lemma trackDone_same_records value value' trackId :
  (∀ id, recordAt value' "tracks" id = recordAt value "tracks" id) →
  trackDone value trackId → trackDone value' trackId.
Proof. intros Hsame (r & Hr & ? & ?). exists r. by rewrite Hsame. Qed.

Lemma truthy_clock (clock : nat → string) (stamp : option string) :
  (∀ n, clock n ≠ EmptyString) →
  (∀ x, stamp = Some x → ∃ t, x = clock t) →
  is_Some stamp → JS.truthy stamp = true.
Proof.
  intros Hclock Hstamp [x ->]. destruct (Hstamp x eq_refl) as [t ->].
  by apply truthy_nonempty.
Qed.

Lemma truthy_assigned (clock : nat → string) (old new : option string) :
  (∀ n, clock n ≠ EmptyString) →
  (∀ x, new = Some x → ∃ t, x = clock t) →
  JS.truthy old = true ∨ is_Some new →
  JS.truthy (from_option Some old new) = true.
Proof.
  intros Hclock Hnew H. destruct new as [x|]; simpl.
  - destruct (Hnew x eq_refl) as [t ->]. by apply (truthy_nonempty (clock t)).
  - destruct H as [?|[? ?]]; done.
Qed.

Lemma trackDone_update (clock : nat → string) value learningType id fieldValues trackId :
  (∀ n, clock n ≠ EmptyString) →
  (∀ x, stamps fieldValues x → ∃ t, x = clock t) →
  trackDone value trackId →
  trackDone (mergeLocal learningType id fieldValues value) trackId.
Proof.
  intros Hclock Hstamps (r & Hr & Hstarted & Hcompleted). unfold trackDone.
  rewrite recordAt_mergeLocal. case_bool_decide as Hsame; [|by exists r].
  destruct Hsame as [-> ->]. rewrite Hr. simpl. eexists. split; [done|]. simpl.
  split; apply (truthy_assigned clock); try done; try (by left);
    intros x Hx; apply Hstamps; by (left + right).
Qed.

Lemma completeTrack_done dataTree clock trackId moduleIds s :
  (∀ n, clock n ≠ EmptyString) → trackId ≠ EmptyString →
  modules (JS.get_or (tree_tracks dataTree) trackId {| modules := None |}) = Some moduleIds →
  trackCompleted (activeUserProgress s) moduleIds = true →
  trackDone (activeUserProgress (completeTrack dataTree clock trackId s).1) trackId.
Proof.
  intros Hclock Hne Hmodules Hall.
  destruct (completeTrack_run dataTree clock trackId s)
    as [[_ Hnot]|(moduleIds' & newData & s1 & _ & _ & -> & Hvalue & Hstamps & Hnew)].
  { rewrite (Hnot moduleIds Hmodules) in Hall. done. }
  simpl. rewrite updateField_value, Hvalue. unfold trackDone.
  rewrite recordAt_mergeLocal, bool_decide_eq_true_2 by done.
  eexists. split; [done|]. simpl.
  unfold view_started_at, view_completed_at in Hnew.
  rewrite !(viewTruthy_record _ tracks) in Hnew by done.
  destruct Hnew as [Hstarted Hcompleted].
  split; apply (truthy_assigned clock); try done.
  - intros x Hx. apply Hstamps. by left.
  - destruct (JS.truthy (started_at _)); [by left|right; by apply Hstarted].
  - intros x Hx. apply Hstamps. by right.
  - destruct (JS.truthy (completed_at _)); [by left|right; by apply Hcompleted].
Qed.

Lemma completeTrack_keeps_done dataTree clock trackId s done_ :
  (∀ n, clock n ≠ EmptyString) →
  trackDone (activeUserProgress s) done_ →
  trackDone (activeUserProgress (completeTrack dataTree clock trackId s).1) done_.
Proof.
  intros Hclock Hdone.
  destruct (completeTrack_run dataTree clock trackId s)
    as [[-> _]|(moduleIds' & newData & s1 & _ & _ & -> & Hvalue & Hstamps & _)]; [done|].
  simpl. rewrite updateField_value, Hvalue. by apply (trackDone_update clock).
Qed.

Lemma completeTrack_writes_track dataTree clock trackId :
  preserves (sameExcept (fun learningType id => learningType = "tracks" ∧ id = trackId))
    (completeTrack dataTree clock trackId).
Proof.
  set (written := fun (learningType id : string) => learningType = "tracks" ∧ id = trackId).
  apply (completeTrack_preserves (sameExcept written) written);
    [apply sameExcept_tick|apply sameExcept_update|done].
Qed.

Lemma completeTrack_keeps_modules dataTree clock trackId s id :
  recordAt (activeUserProgress (completeTrack dataTree clock trackId s).1) "modules" id
  = recordAt (activeUserProgress s) "modules" id.
Proof. apply (completeTrack_writes_track dataTree clock trackId s). by intros [[=] _]. Qed.

(** The loop of [completeTracks], from any state. *)
Lemma completeTracks_loop dataTree clock trackIds s :
  let s' := (forEach trackIds (completeTrack dataTree clock) s).1 in
  (∀ id, recordAt (activeUserProgress s') "modules" id
         = recordAt (activeUserProgress s) "modules" id)
  ∧ ((∀ n, clock n ≠ EmptyString) →
     ∀ trackId, trackDone (activeUserProgress s) trackId →
                trackDone (activeUserProgress s') trackId)
  ∧ ((∀ n, clock n ≠ EmptyString) →
     ∀ trackId moduleIds,
       trackId ∈ trackIds → trackId ≠ EmptyString →
       modules (JS.get_or (tree_tracks dataTree) trackId {| modules := None |})
         = Some moduleIds →
       trackCompleted (activeUserProgress s) moduleIds = true →
       trackDone (activeUserProgress s') trackId)
  ∧ (∀ trackId,
       (∀ moduleIds,
          modules (JS.get_or (tree_tracks dataTree) trackId {| modules := None |})
            = Some moduleIds →
          trackCompleted (activeUserProgress s) moduleIds = false) →
       recordAt (activeUserProgress s') "tracks" trackId
       = recordAt (activeUserProgress s) "tracks" trackId).
Proof.
  revert s. induction trackIds as [|x trackIds IH]; intros s; simpl.
  { split_and!; try done. by intros ? ? ? ?%not_elem_of_nil. }
  unfold bindA.
  pose proof (completeTrack_Ok dataTree clock x s) as Hok.
  pose proof (completeTrack_keeps_modules dataTree clock x s) as Hmodules.
  destruct (completeTrack dataTree clock x s) as [s1 o] eqn:Hstep.
  simpl in Hok, Hmodules. subst o.
  destruct (IH s1) as (IHmodules & IHkeep & IHdone & IHsame).
  assert (∀ moduleIds, trackCompleted (activeUserProgress s1) moduleIds
                       = trackCompleted (activeUserProgress s) moduleIds) as Hall.
  { intros moduleIds. by apply trackCompleted_same_records. }
  split_and!.
  - intros id. by rewrite IHmodules.
  - intros Hclock trackId Hdone. apply IHkeep; [done|].
    pose proof (completeTrack_keeps_done dataTree clock x s trackId Hclock Hdone) as H.
    by rewrite Hstep in H.
  - intros Hclock trackId moduleIds [->|Hin]%elem_of_cons Hne Hlist Hcomplete.
    + apply IHkeep; [done|].
      pose proof (completeTrack_done dataTree clock x moduleIds s Hclock Hne Hlist Hcomplete)
        as H.
      by rewrite Hstep in H.
    + apply (IHdone Hclock trackId moduleIds); try done. by rewrite Hall.
  - intros trackId Hnot. rewrite IHsame; cycle 1.
    { intros moduleIds Hlist. rewrite Hall. by apply Hnot. }
    destruct (decide (x = trackId)) as [->|Hother].
    + destruct (completeTrack_run dataTree clock trackId s)
        as [[Hskip _]|(moduleIds & _ & _ & Hlist & Hcomplete & _)].
      * rewrite Hskip in Hstep. by injection Hstep as <-.
      * rewrite (Hnot moduleIds Hlist) in Hcomplete. done.
    + pose proof (completeTrack_writes_track dataTree clock x s "tracks" trackId) as H.
      rewrite Hstep in H. apply H. by intros [_ ->].
Qed.

(** The steps of the cascade, one after the other. *)
Lemma cascade_run dataTree clock fuel pageId s1 :
  ∃ s2 o2,
    completeModule dataTree clock fuel pageId s1 = (s2, o2)
    ∧ ((o2 ≠ Ok tt ∧ cascade dataTree clock fuel pageId s1 = (s2, o2))
       ∨ (o2 = Ok tt
          ∧ ∃ s3 s4,
              completeTracks dataTree clock s2 = (s3, Ok tt)
              ∧ awardAchievements clock s3 = (s4, Ok tt)
              ∧ cascade dataTree clock fuel pageId s1 = (s4, Ok tt))).
Proof.
  unfold cascade, bindA.
  destruct (completeModule dataTree clock fuel pageId s1) as [s2 [[]| |]] eqn:Hmodule;
    exists s2; eexists; (split; [reflexivity|]); try (by left).
  right. split; [done|].
  pose proof (completeTracks_Ok dataTree clock s2) as Htracks.
  destruct (completeTracks dataTree clock s2) as [s3 o3]. simpl in Htracks. subst o3.
  destruct (awardAchievements_first clock s3) as (s4 & Haward & _).
  exists s3, s4. by rewrite Haward.
Qed.

Lemma completeModule_writes_modules dataTree clock fuel pageId :
  preserves (sameExcept (fun learningType _ => learningType = "modules"))
    (completeModule dataTree clock fuel pageId).
Proof.
  set (written := fun (learningType : string) (_ : string) => learningType = "modules").
  apply (completeModule_preserves (sameExcept written) written);
    [apply sameExcept_tick|apply sameExcept_update|done].
Qed.

Lemma awardAchievements_writes_achievements clock :
  preserves (sameExcept (fun learningType _ => learningType = "achievements"))
    (awardAchievements clock).
Proof.
  set (written := fun (learningType : string) (_ : string) => learningType = "achievements").
  apply (awardAchievements_preserves (sameExcept written) written);
    [apply sameExcept_tick|apply sameExcept_update|done].
Qed.

Lemma trackDone_isComplete value trackId :
  trackId ≠ EmptyString → trackDone value trackId →
  valueTruthy (isComplete value (Some tracks) (Some trackId)) = true.
Proof.
  intros Hne (r & Hr & _ & Hcompleted). rewrite isComplete_record by done.
  simpl. rewrite Hr. simpl. by destruct (completed_at r).
Qed.

(** X16: after a [completePage] that returns, every track of the catalog
    whose modules are all completed is recorded as started and completed,
    and [isComplete] says so; a track that lists no module at all is such a
    track.  The clock is taken never to answer with the empty string. *)
Theorem completePage_completes_tracks (dataTree : DataTree) (clock : nat → string)
    (fuel : nat) (pageId trackId : string) (track : TrackNode) (moduleIds : list string)
    (s s' : Service) :
  (∀ n, clock n ≠ EmptyString) →
  completable dataTree fuel pageId →
  completePage dataTree clock fuel pageId s = (s', Ok tt) →
  trackId ≠ EmptyString →
  JS.get (tree_tracks dataTree) trackId = Some track → modules track = Some moduleIds →
  Forall (moduleCompleted (activeUserProgress s')) moduleIds →
  trackDone (activeUserProgress s') trackId
  ∧ valueTruthy (isComplete (activeUserProgress s') (Some tracks) (Some trackId)) = true.
Proof.
  intros Hclock Htype Hrun Hne Htrack Hlist Hall.
  rewrite (completePage_unfold _ _ _ _ _ Htype) in Hrun.
  destruct (cascade_run dataTree clock fuel pageId (unitCompleted clock pageId s))
    as (s2 & o2 & _ & [[Hfail Hrun']|(_ & s3 & s4 & Htracks & Haward & Hrun')]);
    rewrite Hrun' in Hrun; [by simplify_eq|].
  injection Hrun as <-.
  pose proof (awardAchievements_writes_achievements clock s3) as Hsame.
  rewrite Haward in Hsame. simpl in Hsame.
  destruct (completeTracks_loop dataTree clock (JS.keys (tree_tracks dataTree)) s2)
    as (Hmodules & _ & Hdone & _).
  unfold completeTracks in Htracks. rewrite Htracks in Hmodules, Hdone.
  simpl in Hmodules, Hdone.
  assert (∀ id, recordAt (activeUserProgress s4) "modules" id
                = recordAt (activeUserProgress s2) "modules" id) as Hkept.
  { intros id. rewrite <- Hmodules. by apply Hsame. }
  assert (trackDone (activeUserProgress s4) trackId) as Hresult.
  { apply (trackDone_same_records (activeUserProgress s3)).
    { intros id. by apply Hsame. }
    apply (Hdone Hclock trackId moduleIds); try done.
    - by eapply get_Some_keys.
    - unfold JS.get_or. by rewrite Htrack.
    - apply trackCompleted_Forall. eapply Forall_impl; [exact Hall|].
      intros m Hm.
      apply (proj1 (moduleCompleted_same_records
                      (activeUserProgress s2) (activeUserProgress s4) m Hkept) Hm). }
  split; [done|]. by apply trackDone_isComplete.
Qed.

Lemma sample_clock_nonempty n : Sample.clock n ≠ EmptyString.
Proof.
  unfold Sample.clock, Sample.instants.
  do 6 (destruct n as [|n]; [cbn [nth]; discriminate|]).
  destruct n; cbn [nth]; discriminate.
Qed.

Lemma completePage_completes_tracks_witness :
  trackDone
    (activeUserProgress
       (completePage Sample.dataTree Sample.clock 4 "m/u2" HalfDone.service).1) "t"
  ∧ valueTruthy
      (isComplete
         (activeUserProgress
            (completePage Sample.dataTree Sample.clock 4 "m/u2" HalfDone.service).1)
         (Some tracks) (Some "t")) = true.
Proof.
  apply (completePage_completes_tracks Sample.dataTree Sample.clock 4 "m/u2" "t"
           {| modules := Some ["m"] |} ["m"] HalfDone.service).
  - exact sample_clock_nonempty.
  - left. vm_compute. reflexivity.
  - vm_compute. reflexivity.
  - discriminate.
  - reflexivity.
  - reflexivity.
  - apply Forall_cons. split; [vm_compute; reflexivity|apply Forall_nil_2].
Defined.

Lemma modules_of_track (trackData : JS.Obj TrackNode) trackId moduleIds :
  modules (JS.get_or trackData trackId {| modules := None |}) = Some moduleIds
  ↔ ∃ track, JS.get trackData trackId = Some track ∧ modules track = Some moduleIds.
Proof.
  unfold JS.get_or. destruct (JS.get trackData trackId) as [track|]; simpl.
  - split; [by eauto|]. by intros (? & [= <-] & ?).
  - split; [done|]. by intros (? & [=] & _).
Qed.

(** X17: [completePage] changes the record of a track only if the track
    is in the catalog with a list of modules that are all completed once
    the call is over; no other track is started or completed, whatever the
    page and the outcome of the call. *)
Theorem completePage_touches_completed_tracks_only (dataTree : DataTree)
    (clock : nat → string) (fuel : nat) (pageId trackId : string) (s : Service) :
  let s' := (completePage dataTree clock fuel pageId s).1 in
  recordAt (activeUserProgress s') "tracks" trackId
    ≠ recordAt (activeUserProgress s) "tracks" trackId →
  ∃ track moduleIds,
    JS.get (tree_tracks dataTree) trackId = Some track
    ∧ modules track = Some moduleIds
    ∧ Forall (moduleCompleted (activeUserProgress s')) moduleIds.
Proof.
  intros s' Hchanged.
  destruct (modules (JS.get_or (tree_tracks dataTree) trackId {| modules := None |}))
    as [moduleIds|] eqn:Hlist.
  - destruct (trackCompleted (activeUserProgress s') moduleIds) eqn:Hall.
    { apply modules_of_track in Hlist as (track & ? & ?).
      exists track, moduleIds. by rewrite <- trackCompleted_Forall. }
    destruct Hchanged. revert Hall. unfold s'. clear s'.
    assert (completable dataTree fuel pageId ∨ ¬ completable dataTree fuel pageId)
      as [Htype|Htype].
    { unfold completable.
      destruct (getLearningType dataTree fuel pageId) as [[[]|]| |];
        (by left; auto) || (right; by intros [|]). }
    2: { by destruct (completePage_skips dataTree clock fuel pageId s Htype) as [o ->]. }
    rewrite (completePage_unfold _ _ _ _ _ Htype).
    assert (∀ learningType id, learningType ≠ "units" →
              recordAt (activeUserProgress (unitCompleted clock pageId s)) learningType id
              = recordAt (activeUserProgress s) learningType id) as Hfirst.
    { intros learningType id Hother. unfold unitCompleted.
      rewrite updateField_value, recordAt_mergeLocal.
      rewrite bool_decide_eq_false_2; [done|]. by intros [<- _]. }
    rewrite <- (Hfirst "tracks" trackId) by done.
    destruct (cascade_run dataTree clock fuel pageId (unitCompleted clock pageId s))
      as (s2 & o2 & Hmodule & [[_ ->]|(_ & s3 & s4 & Htracks & Haward & ->)]); simpl.
    + intros _.
      pose proof (completeModule_writes_modules dataTree clock fuel pageId
                    (unitCompleted clock pageId s) "tracks" trackId) as H.
      rewrite Hmodule in H. by apply H.
    + intros Hall.
      pose proof (completeModule_writes_modules dataTree clock fuel pageId
                    (unitCompleted clock pageId s) "tracks" trackId) as H2.
      rewrite Hmodule in H2. rewrite <- H2 by done.
      pose proof (awardAchievements_writes_achievements clock s3) as H4.
      rewrite Haward in H4. simpl in H4. rewrite (H4 "tracks" trackId) by done.
      destruct (completeTracks_loop dataTree clock (JS.keys (tree_tracks dataTree)) s2)
        as (Hmodules & _ & _ & Hsame).
      unfold completeTracks in Htracks. rewrite Htracks in Hmodules, Hsame.
      simpl in Hmodules, Hsame. apply Hsame.
      intros moduleIds' Hlist'. rewrite Hlist in Hlist'. injection Hlist' as <-.
      rewrite <- Hall. symmetry. apply trackCompleted_same_records.
      intros id. rewrite <- Hmodules. by apply H4.
  - destruct Hchanged. unfold s'. clear s'.
    assert (preserves (sameExcept (fun learningType id =>
                         learningType ≠ "tracks" ∨ is_Some (modules (JS.get_or
                           (tree_tracks dataTree) id {| modules := None |}))))
              (completePage dataTree clock fuel pageId)) as Hkeeps.
    { set (written := fun (learningType id : string) =>
             learningType ≠ "tracks"
             ∨ is_Some (modules (JS.get_or (tree_tracks dataTree) id {| modules := None |}))).
      assert (∀ id, preserves (sameExcept written) (completeTrack dataTree clock id))
        as Htrack.
      { intros id.
        destruct (modules (JS.get_or (tree_tracks dataTree) id {| modules := None |}))
          as [moduleIds|] eqn:Hid.
        - apply (completeTrack_preserves (sameExcept written) written);
            [apply sameExcept_tick|apply sameExcept_update|].
          right. by rewrite Hid.
        - unfold completeTrack. rewrite Hid.
          apply (preserves_ret (sameExcept written)). }
      unfold completePage.
      apply (preserves_bind (sameExcept written));
        [apply (preserves_liftO (sameExcept written))|].
      intros learningType.
      assert (preserves (sameExcept written)
                (now <- toISOString clock;;
                 exec (updateField "units" pageId (completedNow now));;;
                 completeModule dataTree clock fuel pageId;;;
                 completeTracks dataTree clock;;;
                 awardAchievements clock)) as Hcascade.
      { apply (preserves_bind (sameExcept written)).
        { apply (toISOString_preserves (sameExcept written)), sameExcept_tick. }
        intros now. apply (preserves_bind (sameExcept written)).
        { intros s0. apply sameExcept_update. by left. }
        intros _. apply (preserves_bind (sameExcept written)).
        { apply (completeModule_preserves (sameExcept written) written);
            [apply sameExcept_tick|apply sameExcept_update|by left]. }
        intros _. apply (preserves_bind (sameExcept written)).
        { apply (preserves_forEach (sameExcept written)). intros id _. apply Htrack. }
        intros _.
        apply (awardAchievements_preserves (sameExcept written) written);
          [apply sameExcept_tick|apply sameExcept_update|by left]. }
      destruct learningType as [[]|]; try apply (preserves_ret (sameExcept written));
        exact Hcascade. }
    apply Hkeeps. rewrite Hlist. intros [?|[? [=]]]. done.
Qed.

Lemma completePage_touches_completed_tracks_only_witness :
  ∃ track moduleIds,
    JS.get (tree_tracks Sample.dataTree) "t" = Some track
    ∧ modules track = Some moduleIds
    ∧ Forall
        (moduleCompleted
           (activeUserProgress
              (completePage Sample.dataTree Sample.clock 4 "m/u2" HalfDone.service).1))
        moduleIds.
Proof.
  apply (completePage_touches_completed_tracks_only Sample.dataTree Sample.clock 4
           "m/u2" "t" HalfDone.service).
  vm_compute. discriminate.
Defined.

(** *** Achievements *)

Lemma completedKeys_elem (data : JS.Obj Learning) (id : string) :
  id ∈ completedKeys data
  ↔ ∃ r, JS.get data id = Some r ∧ JS.truthy (completed_at r) = true.
Proof.
  unfold completedKeys. rewrite list_elem_of_In, filter_In, <- list_elem_of_In.
  unfold JS.get_or. split.
  - intros [Hkey Hdone]. apply keys_get_Some in Hkey as [r Hr].
    rewrite Hr in Hdone. by exists r.
  - intros (r & Hr & Hdone). split; [by eapply get_Some_keys|]. by rewrite Hr.
Qed.

(** X18: after a [completePage] that returns, the achievements are in
    line with the completions: if any module is recorded as completed the
    achievement [grand-opening] is recorded, and every track recorded as
    completed has the achievement of its name; [getAchievements] answers
    with them. *)
Theorem completePage_grants_achievements (dataTree : DataTree) (clock : nat → string)
    (fuel : nat) (pageId : string) (s s' : Service) :
  completable dataTree fuel pageId →
  completePage dataTree clock fuel pageId s = (s', Ok tt) →
  (∀ moduleId r,
     recordAt (activeUserProgress s') "modules" moduleId = Some r →
     JS.truthy (completed_at r) = true →
     ∃ earned, getAchievements (activeUserProgress s') (Some "grand-opening")
               = OneAchievement (Some earned))
  ∧ (∀ trackId r,
       trackId ≠ EmptyString →
       recordAt (activeUserProgress s') "tracks" trackId = Some r →
       JS.truthy (completed_at r) = true →
       ∃ earned, getAchievements (activeUserProgress s') (Some trackId)
                 = OneAchievement (Some earned)).
Proof.
  intros Htype Hrun. rewrite (completePage_unfold _ _ _ _ _ Htype) in Hrun.
  destruct (cascade_run dataTree clock fuel pageId (unitCompleted clock pageId s))
    as (s2 & o2 & _ & [[Hfail Hrun']|(_ & s3 & s4 & Htracks & Haward & Hrun')]);
    rewrite Hrun' in Hrun; [by simplify_eq|].
  injection Hrun as <-.
  destruct (awardAchievements_first clock s3) as (s4' & Haward' & Hgrants & Hfirst & Heach).
  rewrite Haward in Haward'. injection Haward' as <-.
  destruct (grantsOnly_same_data s3 s4 Hgrants) as [Hmodules Htracksdata].
  split.
  - intros moduleId r Hr Hdone. rewrite getAchievements_one by done.
    assert (recorded s4 "grand-opening") as [earned Hearned].
    { apply Hfirst. rewrite <- Hmodules. intros Hnone.
      assert (moduleId ∈ completedKeys (modulesDataOf s4)) as Hin.
      { apply completedKeys_elem. by exists r. }
      rewrite Hnone in Hin. by apply not_elem_of_nil in Hin. }
    exists earned. by rewrite Hearned.
  - intros trackId r Hne Hr Hdone. rewrite getAchievements_one by done.
    assert (recorded s4 trackId) as [earned Hearned].
    { apply Heach. rewrite <- Htracksdata. apply completedKeys_elem. by exists r. }
    exists earned. by rewrite Hearned.
Qed.

Lemma completePage_grants_achievements_witness :
  (∀ moduleId r,
     recordAt
       (activeUserProgress
          (completePage Sample.dataTree Sample.clock 4 "m/u2" HalfDone.service).1)
       "modules" moduleId = Some r →
     JS.truthy (completed_at r) = true →
     ∃ earned,
       getAchievements
         (activeUserProgress
            (completePage Sample.dataTree Sample.clock 4 "m/u2" HalfDone.service).1)
         (Some "grand-opening")
       = OneAchievement (Some earned))
  ∧ (∀ trackId r,
       trackId ≠ EmptyString →
       recordAt
         (activeUserProgress
            (completePage Sample.dataTree Sample.clock 4 "m/u2" HalfDone.service).1)
         "tracks" trackId = Some r →
       JS.truthy (completed_at r) = true →
       ∃ earned,
         getAchievements
           (activeUserProgress
              (completePage Sample.dataTree Sample.clock 4 "m/u2" HalfDone.service).1)
           (Some trackId)
         = OneAchievement (Some earned)).
Proof.
  apply (completePage_grants_achievements Sample.dataTree Sample.clock 4 "m/u2"
           HalfDone.service).
  - left. vm_compute. reflexivity.
  - vm_compute. reflexivity.
Defined.

(** *** The module of the page *)

(** What [completeModule] does. *)
Lemma completeModule_run dataTree clock fuel pageId s :
  ∃ s1,
    match getModuleRoot (tree_modules dataTree) fuel pageId with
    | Ok moduleId =>
        let currentState :=
            getUserProgressData (activeUserProgress s) (Some modules_t) moduleId false in
          match (if view_completed_at currentState then Ok (JS.Fin 0)
                 else getModuleProgress (tree_modules dataTree) (activeUserProgress s)
                        fuel pageId) with
          | Ok progress =>
              ∃ newData,
                completeModule dataTree clock fuel pageId s
                  = (updateField "modules" (default "undefined" moduleId) newData s1, Ok tt)
                ∧ (∀ x, stamps newData x → ∃ t, x = clock t)
                ∧ (view_started_at currentState = false → is_Some (started_at newData))
                ∧ (is_Some (completed_at newData)
                   ↔ view_completed_at currentState = false ∧ atLeast100 progress = true)
          | Fault => completeModule dataTree clock fuel pageId s = (s1, Fault)
          | OutOfFuel => completeModule dataTree clock fuel pageId s = (s1, OutOfFuel)
          end
      | Fault => completeModule dataTree clock fuel pageId s = (s1, Fault)
      | OutOfFuel => completeModule dataTree clock fuel pageId s = (s1, OutOfFuel)
      end
    ∧ activeUserProgress s1 = activeUserProgress s ∧ effects s1 = effects s
    ∧ localStorage s1 = localStorage s ∧ isAuthenticated s1 = isAuthenticated s.
Proof.
  unfold completeModule, bindA at 1, liftO.
  destruct (getModuleRoot (tree_modules dataTree) fuel pageId) as [moduleId| |];
    [|by exists s..].
  cbv beta zeta.
  unfold withStarted, withCompleted, bindA, liftO, toISOString, ret, exec, objectTruthy,
    atLeast100.
  destruct (view_started_at _) eqn:Hstarted, (view_completed_at _) eqn:Hcompleted; simpl;
    try (destruct (getModuleProgress _ _ _ _) as [progress| |]; simpl;
         [destruct (match progress with
                    | JS.Fin q => Qle_bool 100 q
                    | JS.PInf => true
                    | _ => false
                    end) eqn:Hreached; simpl|..]);
    (eexists; split;
       [first [reflexivity|eexists; split; [reflexivity|]]|by split_and!]).
  all: split_and!.
  all: try (intros x [Hx|Hx]; simpl in Hx; simplify_eq; by eexists).
  all: try done.
  all: try (intros; by eexists).
  all: try (split; [by intros [? [=]]|by intros [? ?]; simplify_eq]).
  all: try (split; [done|intros; by eexists]).
Qed.

Lemma unitCompleted_keeps_others clock pageId s learningType id :
  learningType ≠ "units" →
  recordAt (activeUserProgress (unitCompleted clock pageId s)) learningType id
  = recordAt (activeUserProgress s) learningType id.
Proof.
  intros Hother. unfold unitCompleted.
  rewrite updateField_value, recordAt_mergeLocal.
  rewrite bool_decide_eq_false_2; [done|]. by intros [<- _].
Qed.

(** X19: after a [completePage] that returns, the module of the page is
    recorded as started, and it is recorded as completed exactly when it
    was so before or the progress of the page, computed once the page is
    completed, has reached 100.  The clock is taken never to answer with
    the empty string. *)
Theorem completePage_completes_module (dataTree : DataTree) (clock : nat → string)
    (fuel : nat) (pageId moduleId : string) (s s' : Service) :
  (∀ n, clock n ≠ EmptyString) →
  completable dataTree fuel pageId →
  getModuleRoot (tree_modules dataTree) fuel pageId = Ok (Some moduleId) →
  moduleId ≠ EmptyString →
  completePage dataTree clock fuel pageId s = (s', Ok tt) →
  ∃ r,
    recordAt (activeUserProgress s') "modules" moduleId = Some r
    ∧ JS.truthy (started_at r) = true
    ∧ (JS.truthy (completed_at r) = true
       ↔ moduleCompleted (activeUserProgress s) moduleId
         ∨ ∃ progress,
             getModuleProgress (tree_modules dataTree)
               (activeUserProgress (unitCompleted clock pageId s)) fuel pageId
             = Ok progress
             ∧ atLeast100 progress = true).
Proof.
  intros Hclock Htype Hroot Hne Hrun.
  rewrite (completePage_unfold _ _ _ _ _ Htype) in Hrun.
  set (s1 := unitCompleted clock pageId s) in *.
  destruct (cascade_run dataTree clock fuel pageId s1)
    as (s2 & o2 & Hmodule & [[Hfail Hrun']|(-> & s3 & s4 & Htracks & Haward & Hrun')]);
    rewrite Hrun' in Hrun; [by simplify_eq|].
  injection Hrun as <-.
  assert (∀ id, recordAt (activeUserProgress s4) "modules" id
                = recordAt (activeUserProgress s2) "modules" id) as Hkept.
  { intros id.
    pose proof (awardAchievements_writes_achievements clock s3 "modules" id) as H4.
    rewrite Haward in H4. simpl in H4. rewrite H4 by done.
    destruct (completeTracks_loop dataTree clock (JS.keys (tree_tracks dataTree)) s2)
      as (Hmodules & _).
    unfold completeTracks in Htracks. rewrite Htracks in Hmodules. apply Hmodules. }
  assert (moduleCompleted (activeUserProgress s1) moduleId
          ↔ moduleCompleted (activeUserProgress s) moduleId) as Hbefore.
  { apply moduleCompleted_same_records. intros id.
    by apply unitCompleted_keeps_others. }
  destruct (completeModule_run dataTree clock fuel pageId s1) as (s1' & Hstep & Hvalue & _).
  rewrite Hroot in Hstep. cbv zeta in Hstep.
  unfold view_started_at, view_completed_at in Hstep.
  rewrite !(viewTruthy_record _ modules_t) in Hstep by done.
  change (propertyKey (Some modules_t)) with "modules" in Hstep.
  set (r0 := default emptyLearning (recordAt (activeUserProgress s1) "modules" moduleId))
    in *.
  assert (moduleCompleted (activeUserProgress s1) moduleId
          ↔ JS.truthy (completed_at r0) = true) as Hview.
  { unfold moduleCompleted, view_completed_at.
    by rewrite (viewTruthy_record _ modules_t). }
  destruct (if JS.truthy (completed_at r0) then _ else _) as [progress| |] eqn:Hprogress;
    [|rewrite Hstep in Hmodule; by simplify_eq..].
  destruct Hstep as (newData & Hstep & Hstamps & Hstarted & Hcompleted).
  rewrite Hstep in Hmodule. injection Hmodule as <-.
  rewrite Hkept, updateField_value, Hvalue, recordAt_mergeLocal.
  rewrite bool_decide_eq_true_2 by done. fold r0.
  eexists. split; [done|]. simpl. split.
  - apply (truthy_assigned clock); [done|..].
    + intros x Hx. apply Hstamps. by left.
    + destruct (JS.truthy (started_at r0)); [by left|right; by apply Hstarted].
  - rewrite <- Hbefore, Hview. split.
    + destruct (completed_at newData) as [x|] eqn:Hnew; simpl; [|by left].
      intros _. right.
      destruct Hcompleted as [[Hnot Hreached] _]; [by eexists|].
      rewrite Hnot in Hprogress. by exists progress.
    + intros Hwhy. apply (truthy_assigned clock); [done|..].
      * intros x Hx. apply Hstamps. by right.
      * destruct (JS.truthy (completed_at r0)) eqn:Hold; [by left|].
        right. destruct Hwhy as [?|(progress' & Hprogress' & Hreached)]; [done|].
        apply Hcompleted. split; [done|]. congruence.
Qed.

Lemma completePage_completes_module_witness :
  ∃ r,
    recordAt
      (activeUserProgress
         (completePage Sample.dataTree Sample.clock 4 "m/u2" HalfDone.service).1)
      "modules" "m" = Some r
    ∧ JS.truthy (started_at r) = true
    ∧ (JS.truthy (completed_at r) = true
       ↔ moduleCompleted (activeUserProgress HalfDone.service) "m"
         ∨ ∃ progress,
             getModuleProgress (tree_modules Sample.dataTree)
               (activeUserProgress (unitCompleted Sample.clock "m/u2" HalfDone.service))
               4 "m/u2"
             = Ok progress
             ∧ atLeast100 progress = true).
Proof.
  apply (completePage_completes_module Sample.dataTree Sample.clock 4 "m/u2" "m"
           HalfDone.service).
  - exact sample_clock_nonempty.
  - left. vm_compute. reflexivity.
  - vm_compute. reflexivity.
  - discriminate.
  - vm_compute. reflexivity.
Defined.

(** *** When the cascade throws *)

Lemma completeModule_stops dataTree clock fuel pageId s s' o :
  completeModule dataTree clock fuel pageId s = (s', o) → o ≠ Ok tt →
  activeUserProgress s' = activeUserProgress s ∧ effects s' = effects s
  ∧ localStorage s' = localStorage s.
Proof.
  intros Hrun Hfail.
  destruct (completeModule_run dataTree clock fuel pageId s)
    as (s1 & Hstep & Hvalue & Heffects & Hstorage & _).
  destruct (getModuleRoot _ _ _) as [moduleId| |];
    [|rewrite Hstep in Hrun; by simplify_eq..].
  cbv zeta in Hstep.
  destruct (if view_completed_at _ then _ else _) as [progress| |];
    [|rewrite Hstep in Hrun; by simplify_eq..].
  destruct Hstep as (newData & Hstep & _). rewrite Hstep in Hrun. by simplify_eq.
Qed.

(** X20: a [completePage] that throws has either changed nothing, the
    classification of the page having thrown, or it has recorded the
    completion of the page as a unit, stored it and published or sent it,
    and nothing else: the module, the tracks and the achievements were
    not brought in line. *)
Theorem completePage_throws_after_the_write (dataTree : DataTree) (clock : nat → string)
    (fuel : nat) (pageId : string) (s s' : Service) :
  completePage dataTree clock fuel pageId s = (s', Fault) →
  (getLearningType dataTree fuel pageId = Fault ∧ s' = s)
  ∨ (completable dataTree fuel pageId
     ∧ activeUserProgress s'
       = mergeLocal "units" pageId (completedNow (clock (ticks s))) (activeUserProgress s)
     ∧ localStorage s' = Snapshot (activeUserProgress s')
     ∧ effects s'
       = effects s
         ++ [SetItem (activeUserProgress s');
             if isAuthenticated s
             then Put "units" pageId
                    (dataChange "units" pageId (completedNow (clock (ticks s)))
                       (activeUserProgress s))
             else Next (activeUserProgress s')]).
Proof.
  intros Hrun.
  destruct (getLearningType dataTree fuel pageId) as [[[]|]| |] eqn:Htype.
  1, 2, 5, 7: (unfold completePage, bindA at 1, liftO in Hrun; rewrite Htype in Hrun;
               by simplify_eq).
  3: { left. unfold completePage, bindA at 1, liftO in Hrun. rewrite Htype in Hrun.
       by simplify_eq. }
  all: right.
  all: assert (completable dataTree fuel pageId) as Hcan by (by (left + right)).
  all: split; [done|].
  all: rewrite (completePage_unfold _ _ _ _ _ Hcan) in Hrun.
  all: destruct (cascade_run dataTree clock fuel pageId (unitCompleted clock pageId s))
         as (s2 & o2 & Hmodule & [[Hfail Hrun']|(_ & s3 & s4 & _ & _ & Hrun')]);
         rewrite Hrun' in Hrun; [|by simplify_eq].
  all: injection Hrun as <- ->.
  all: destruct (completeModule_stops _ _ _ _ _ _ _ Hmodule Hfail)
         as (-> & -> & ->).
  all: unfold unitCompleted.
  all: by rewrite updateField_value, updateField_localStorage, updateField_effects.
Qed.

Lemma completePage_throws_after_the_write_witness :
  (getLearningType Dangling.dataTree 1 "m" = Fault
   ∧ (completePage Dangling.dataTree Sample.clock 1 "m" (Sample.fresh false)).1
     = Sample.fresh false)
  ∨ (completable Dangling.dataTree 1 "m"
     ∧ activeUserProgress
         (completePage Dangling.dataTree Sample.clock 1 "m" (Sample.fresh false)).1
       = mergeLocal "units" "m" (completedNow (Sample.clock (ticks (Sample.fresh false))))
           (activeUserProgress (Sample.fresh false))
     ∧ localStorage
         (completePage Dangling.dataTree Sample.clock 1 "m" (Sample.fresh false)).1
       = Snapshot
           (activeUserProgress
              (completePage Dangling.dataTree Sample.clock 1 "m" (Sample.fresh false)).1)
     ∧ effects (completePage Dangling.dataTree Sample.clock 1 "m" (Sample.fresh false)).1
       = effects (Sample.fresh false)
         ++ [SetItem
               (activeUserProgress
                  (completePage Dangling.dataTree Sample.clock 1 "m" (Sample.fresh false)).1);
             if isAuthenticated (Sample.fresh false)
             then Put "units" "m"
                    (dataChange "units" "m"
                       (completedNow (Sample.clock (ticks (Sample.fresh false))))
                       (activeUserProgress (Sample.fresh false)))
             else Next
                    (activeUserProgress
                       (completePage Dangling.dataTree Sample.clock 1 "m"
                          (Sample.fresh false)).1)]).
Proof.
  apply (completePage_throws_after_the_write Dangling.dataTree Sample.clock 1 "m"
           (Sample.fresh false)).
  vm_compute. reflexivity.
Defined.

Lemma completeModule_returns dataTree clock fuel pageId s moduleId progress :
  getModuleRoot (tree_modules dataTree) fuel pageId = Ok moduleId →
  getModuleProgress (tree_modules dataTree) (activeUserProgress s) fuel pageId
  = Ok progress →
  (completeModule dataTree clock fuel pageId s).2 = Ok tt.
Proof.
  intros Hroot Hprogress.
  destruct (completeModule_run dataTree clock fuel pageId s) as (s1 & Hstep & _).
  rewrite Hroot in Hstep. cbv zeta in Hstep. rewrite Hprogress in Hstep.
  destruct (view_completed_at _); by destruct Hstep as (newData & -> & _).
Qed.

(** X21: on a catalog in which every parent that a node names is a node,
    neither the parent links nor the child links form a cycle, and the
    identifiers are matched character by character, [startPage] and
    [completePage] return for every page whose identifier is no member of
    [Object.prototype], whatever the state and the clock: for every fuel
    from some point on the call ends without a throw. *)
Theorem operations_do_not_throw_on_closed_catalog (dataTree : DataTree)
    (clock : nat → string) (pageId : string) (s : Service) :
  ParentClosed (tree_modules dataTree) →
  Irreflexive (tc (linked (tree_modules dataTree))) →
  Irreflexive (tc (descends (tree_modules dataTree))) →
  LiteralIds (tree_modules dataTree) →
  JS.inherited pageId = false →
  eventually (fun fuel =>
    (startPage dataTree clock fuel pageId s).2 = Ok tt
    ∧ (completePage dataTree clock fuel pageId s).2 = Ok tt).
Proof.
  intros Hclosed Hparents Hchildren _ _.
  eapply eventually_impl;
    [|apply eventually_and;
       [apply (getModuleRoot_eventually _ Hclosed Hparents pageId)
       |apply (getModuleProgress_eventually _
                 (activeUserProgress (unitCompleted clock pageId s))
                 Hclosed Hparents Hchildren pageId)]].
  intros fuel [[root Hroot] [progress Hprogress]].
  destruct (getLearningType_returns dataTree fuel pageId root Hroot)
    as [learningType Htype].
  split.
  - unfold startPage, bindA, liftO, toISOString, exec. rewrite Htype.
    by destruct learningType as [[]|].
  - destruct learningType as [[]|].
    1, 2, 5: (unfold completePage, bindA at 1, liftO; by rewrite Htype).
    all: assert (completable dataTree fuel pageId) as Hcan by (by (left + right)).
    all: rewrite (completePage_unfold _ _ _ _ _ Hcan).
    all: destruct (cascade_run dataTree clock fuel pageId (unitCompleted clock pageId s))
           as (s2 & o2 & Hmodule & [[Hfail _]|(_ & s3 & s4 & _ & _ & ->)]); [|done].
    all: pose proof (completeModule_returns dataTree clock fuel pageId
                       (unitCompleted clock pageId s) root progress Hroot Hprogress)
           as Hreturns.
    all: rewrite Hmodule in Hreturns; by destruct Hfail.
Qed.

Lemma operations_do_not_throw_on_closed_catalog_witness :
  eventually (fun fuel =>
    (startPage Sample.dataTree Sample.clock fuel "m/u2" HalfDone.service).2 = Ok tt
    ∧ (completePage Sample.dataTree Sample.clock fuel "m/u2" HalfDone.service).2 = Ok tt).
Proof.
  apply (operations_do_not_throw_on_closed_catalog Sample.dataTree Sample.clock "m/u2"
           HalfDone.service).
  - exact SampleFacts.parent_closed.
  - exact sample_linked_acyclic.
  - exact SampleFacts.descends_acyclic.
  - exact sample_literal_ids.
  - reflexivity.
Defined.

(** ** Signing in and the remote snapshot *)

Lemma assign_same (r : Learning) : assign r r = r.
Proof. by destruct r as [[?|] [?|] [?|] [?|]]. Qed.

Lemma mergeLocal_same value learningType id r :
  recordAt value learningType id = Some r → mergeLocal learningType id r value = value.
Proof.
  unfold recordAt, mergeLocal, JS.get_or. intros Hr.
  destruct (JS.get value learningType) as [m|] eqn:Hm; simpl in *; [|done].
  rewrite Hr. simpl. rewrite assign_same.
  rewrite (set_get_id m id r Hr). by apply set_get_id.
Qed.

Lemma get_or_Some {V} (o : JS.Obj V) k v d : JS.get o k = Some v → JS.get_or o k d = v.
Proof. unfold JS.get_or. by intros ->. Qed.

(** A service that holds [existing] in memory and in local storage. *)
Lemma replayIds_fixed (existing : ProgressState) learningType ids s :
  (∀ id, id ∈ ids → id ∈ JS.keys (JS.get_or existing learningType [])) →
  activeUserProgress s = existing → localStorage s = Snapshot existing →
  let s' :=
    fold_left
      (fun s id =>
         updateField learningType id
           (JS.get_or (JS.get_or existing learningType []) id emptyLearning) s)
      ids s in
  activeUserProgress s' = existing ∧ localStorage s' = Snapshot existing.
Proof.
  revert s. induction ids as [|id ids IH]; intros s Hkeys Hvalue Hstorage; simpl; [done|].
  assert (mergeLocal learningType id
            (JS.get_or (JS.get_or existing learningType []) id emptyLearning) existing
          = existing) as Hsame.
  { destruct (keys_get_Some (JS.get_or existing learningType []) id) as [r Hr].
    { apply Hkeys, list_elem_of_here. }
    apply mergeLocal_same. by rewrite (get_or_Some _ _ _ _ Hr). }
  apply IH.
  - intros id' Hid'. by apply Hkeys, list_elem_of_further.
  - by rewrite updateField_value, Hvalue.
  - by rewrite updateField_localStorage, Hvalue, Hsame.
Qed.

Lemma replay_fixed (existing : ProgressState) s :
  activeUserProgress s = existing → localStorage s = Snapshot existing →
  activeUserProgress (replay existing s) = existing
  ∧ localStorage (replay existing s) = Snapshot existing.
Proof.
  unfold replay. generalize (JS.keys existing) as learningTypes.
  intros learningTypes. revert s.
  induction learningTypes as [|learningType learningTypes IH];
    intros s Hvalue Hstorage; simpl; [done|].
  destruct (replayIds_fixed existing learningType
              (JS.keys (JS.get_or existing learningType [])) s) as [Hvalue' Hstorage'];
    try done.
  by apply IH.
Qed.

(** X22: signing in leaves the local progress as it is.  When local
    storage mirrors the state, the replay of the local entries that a
    report of a signed-in user starts writes every record back as it is:
    the state in memory and local storage are the same after it. *)
Theorem sign_in_keeps_local_state (dataTree : DataTree) (currentPage : string)
    (clock : nat → string) (fuel : nat) (s : Service) :
  mirrored s →
  activeUserProgress (onAuthenticated dataTree currentPage clock fuel true s).1
    = activeUserProgress s
  ∧ localStorage (onAuthenticated dataTree currentPage clock fuel true s).1
    = localStorage s.
Proof.
  intros Hmirrored. destruct (wasAnonymous s) eqn:Hflag.
  - unfold onAuthenticated. simpl (negb true). cbv iota.
    set (s0 := {| activeUserProgress := _ |}).
    rewrite (initUserProgressData_replay dataTree currentPage clock fuel s0) by done.
    simpl.
    assert (readExisting s0 = activeUserProgress s) as Hexisting.
    { unfold readExisting. simpl. by rewrite Hmirrored. }
    rewrite Hexisting.
    by destruct (replay_fixed (activeUserProgress s) s0) as [-> ->].
  - by destruct (onAuthenticated_no_replay dataTree currentPage clock fuel s Hflag)
      as (s' & -> & _ & ? & ? & _).
Qed.

Lemma sign_in_keeps_local_state_witness :
  activeUserProgress
    (onAuthenticated Sample.dataTree "m/u1" Sample.clock 4 true SignInSample.anonymous).1
    = activeUserProgress SignInSample.anonymous
  ∧ localStorage
      (onAuthenticated Sample.dataTree "m/u1" Sample.clock 4 true SignInSample.anonymous).1
    = localStorage SignInSample.anonymous.
Proof.
  apply (sign_in_keeps_local_state Sample.dataTree "m/u1" Sample.clock 4
           SignInSample.anonymous).
  reflexivity.
Defined.

Lemma startPage_writes_page dataTree clock fuel pageId :
  preserves (sameExcept (fun _ id => id = pageId)) (startPage dataTree clock fuel pageId).
Proof.
  set (written := fun (_ id : string) => id = pageId).
  apply (startPage_preserves (sameExcept written) written);
    [apply sameExcept_tick|apply sameExcept_update|done|done].
Qed.

(** X23: the snapshot a handler of the request publishes replaces the
    state as a whole.  After the remote snapshot has arrived, every record
    of the state other than those of the current page is the one of the
    snapshot, and a record the snapshot does not hold is gone, whatever
    the state held before; likewise with the local snapshot when the
    request has failed. *)
Theorem published_snapshot_replaces_state (dataTree : DataTree) (currentPage : string)
    (clock : nat → string) (fuel : nat) (snapshot : ProgressState) (s : Service)
    (learningType id : string) :
  id ≠ currentPage →
  recordAt
    (activeUserProgress (onProgressFetched dataTree currentPage clock fuel snapshot s).1)
    learningType id
  = recordAt snapshot learningType id
  ∧ recordAt
      (activeUserProgress (onProgressError dataTree currentPage clock fuel snapshot s).1)
      learningType id
    = recordAt snapshot learningType id.
Proof.
  intros Hother. unfold onProgressFetched, onProgressError, bindA, exec. simpl. split.
  - by rewrite (startPage_writes_page dataTree clock fuel currentPage
                  (next snapshot (setItem snapshot s)) learningType id).
  - by rewrite (startPage_writes_page dataTree clock fuel currentPage
                  (next snapshot (emit ConsoleLog s)) learningType id).
Qed.

Lemma published_snapshot_replaces_state_witness :
  recordAt
    (activeUserProgress
       (onProgressFetched Sample.dataTree "m/u2" Sample.clock 4 HalfDone.value
          CascadeSample.allDone).1)
    "tracks" "t"
  = recordAt HalfDone.value "tracks" "t"
  ∧ recordAt
      (activeUserProgress
         (onProgressError Sample.dataTree "m/u2" Sample.clock 4 HalfDone.value
            CascadeSample.allDone).1)
      "tracks" "t"
    = recordAt HalfDone.value "tracks" "t".
Proof.
  apply (published_snapshot_replaces_state Sample.dataTree "m/u2" Sample.clock 4
           HalfDone.value CascadeSample.allDone "tracks" "t").
  discriminate.
Defined.

(** ** Starting a page *)


(** ** Progress before anything is completed *)

Lemma clampPercent_zero (q : Q) : (q == 0)%Q → clampPercent (JS.Fin q) = JS.Fin 0.
Proof.
  intros Hq. unfold clampPercent, JS.Math_round.
  assert (Qfloor (q + (1 # 2)) = 0%Z) as -> by (by rewrite Hq).
  reflexivity.
Qed.

Lemma filter_none {A} (f : A → bool) (l : list A) :
  (∀ x, x ∈ l → f x = false) → List.filter f l = [].
Proof.
  induction l as [|x l IH]; intros Hnone; simpl; [done|].
  rewrite (Hnone x) by apply list_elem_of_here.
  apply IH. intros y Hy. by apply Hnone, list_elem_of_further.
Qed.

Lemma nothing_completedInPath value moduleId activePathIds :
  (∀ key u, recordAt value "units" key = Some u → JS.truthy (completed_at u) = false) →
  completedInPath value moduleId activePathIds = [].
Proof.
  intros Hnone. unfold completedInPath.
  set (userData := viewMap _).
  assert (∀ key u, JS.get userData key = Some u → JS.truthy (completed_at u) = false)
    as Hdata.
  { intros key u. unfold userData, getUserProgressData. cbv zeta.
    destruct (JS.truthy moduleId); cbn [viewMap].
    - rewrite get_filter_keys. destruct (keyMatches _ _); [|done]. apply Hnone.
    - apply Hnone. }
  rewrite (filter_none _ (JS.keys userData)); [done|].
  intros key [u Hu]%keys_get_Some. rewrite (get_or_Some _ _ _ _ Hu). by eapply Hdata.
Qed.

Lemma getModuleProgress_nothing_completed moduleData value fuel pageId r :
  (∀ key u, recordAt value "units" key = Some u → JS.truthy (completed_at u) = false) →
  getModuleProgress moduleData value fuel pageId = Ok r → r = JS.Fin 0.
Proof.
  intros Hnone. unfold getModuleProgress.
  destruct (moduleData !! pageId) as [pageData|]; [|by intros [= <-]].
  destruct (getActivePathIds moduleData fuel (activeItemIdOf value pageId pageData))
    as [activePathIds| |] eqn:Hpath; simpl; [|done..].
  destruct (moduleData !! activeItemIdOf value pageId pageData) as [currentPageData|]
    eqn:Hcurrent; [|by intros [= <-]].
  destruct (childRootOf moduleData _ currentPageData) as [childRoot| |]; simpl; [|done..].
  destruct (moduleData !! childRoot) as [rootData|]; [|done].
  destruct (if JS.truthy (parent rootData) then _ else _) as [baseTimeRange| |];
    simpl; [|done..].
  destruct (getModuleRoot moduleData fuel pageId) as [moduleId| |]; simpl; [|done..].
  rewrite (nothing_completedInPath value moduleId activePathIds Hnone). simpl.
  destruct (Qeq_bool (rangeAvg baseTimeRange) 0) eqn:Hbase; simpl; intros [= <-].
  - rewrite div_by_nonzero.
    + apply clampPercent_zero. unfold Qdiv. by rewrite Qmult_0_r, Qmult_0_l.
    + apply length_nonzero.
      apply (getActivePathIds_nonempty moduleData fuel
               (activeItemIdOf value pageId pageData)); [by eexists|done].
  - rewrite div_by_nonzero by done.
    apply clampPercent_zero. unfold Qdiv. by rewrite Qmult_0_r, Qmult_0_l.
Qed.


Lemma nothing_completed_in_sample key u :
  recordAt LastAccessedSample.value "units" key = Some u →
  JS.truthy (completed_at u) = false.
Proof.
  intros Hu%get_Some_In. simpl in Hu.
  destruct Hu as [[= <- <-]|[[= <- <-]|[[= <- <-]|[]]]]; reflexivity.
Qed.


(** ** The last accessed record *)

Lemma Array_sort_elem {A} (comparefn : A → A → Z) (a : list A) (y : A) :
  y ∈ JS.Array_sort comparefn a ↔ y ∈ a.
Proof.
  unfold JS.Array_sort. rewrite list_elem_of_In, <- in_rev, <- list_elem_of_In.
  assert (∀ rprefix,
            y ∈ fold_left (fun rprefix element => JS.sort_insert comparefn element rprefix)
                  a rprefix
            ↔ y ∈ a ∨ y ∈ rprefix) as Hfold.
  { induction a as [|x a IH]; intros rprefix; simpl.
    - split; [by right|]. by intros [?%not_elem_of_nil|?].
    - rewrite IH, sort_insert_elem, elem_of_cons. tauto. }
  rewrite Hfold. split; [|by left]. by intros [?|?%not_elem_of_nil].
Qed.

Lemma keys_nil_get {V} (o : JS.Obj V) : JS.keys o = [] ↔ ∀ k, JS.get o k = None.
Proof.
  destruct o as [|[k v] o]; simpl; [done|]. split; [done|].
  intros H. specialize (H k). by rewrite String.eqb_refl in H.
Qed.

(** X26: for a page identifier that is not empty and holds no syntax
    character of a regular expression, [getLastAccessed] answers with a
    record of the learning type whose key is the page identifier or
    continues it after a slash, together with that key; and it answers
    with nothing exactly when the state holds no such record. *)
Theorem getLastAccessed_answers_under_the_page (value : ProgressState)
    (learningType : LearningType) (pageId : string) :
  pageId ≠ EmptyString →
  JS.literal pageId = true →
  (∀ id r,
     getLastAccessed value learningType pageId = Some (id, r) →
     underPage pageId id
     ∧ recordAt value (propertyKey (Some learningType)) id = Some r)
  ∧ (getLastAccessed value learningType pageId = None
     ↔ ∀ key r,
         recordAt value (propertyKey (Some learningType)) key = Some r →
         ¬ underPage pageId key).
Proof.
  intros Hne _.
  destruct (wildcard_view value learningType pageId Hne)
    as (matched & Hview & Hmatched).
  unfold getLastAccessed, getLastAccessedWith. rewrite Hview. cbn [viewMap].
  destruct (JS.Array_sort (lastAccessedCompare matched) (JS.keys matched))
    as [|first rest] eqn:Hsorted.
  - assert (∀ key, JS.get matched key = None) as Hnone.
    { apply keys_nil_get. destruct (JS.keys matched) as [|key keys] eqn:Hkeys; [done|].
      assert (key ∈ JS.Array_sort (lastAccessedCompare matched) (key :: keys)) as Hin.
      { apply Array_sort_elem, list_elem_of_here. }
      rewrite Hsorted in Hin. by apply not_elem_of_nil in Hin. }
    split; [done|]. split; [|done].
    intros _ key r Hr Hunder.
    assert (JS.get matched key = Some r) as Hkey by (by apply Hmatched).
    by rewrite Hnone in Hkey.
  - assert (first ∈ JS.keys matched) as [r Hr]%keys_get_Some.
    { apply (Array_sort_elem (lastAccessedCompare matched)). rewrite Hsorted.
      apply list_elem_of_here. }
    rewrite Hr. simpl. apply Hmatched in Hr as Hfirst. split.
    + intros id r' [= <- <-]. by destruct Hfirst.
    + split; [done|]. intros Hnone. destruct Hfirst as [Hrecord Hunder].
      by destruct (Hnone first r Hrecord).
Qed.

Lemma getLastAccessed_answers_under_the_page_witness :
  (∀ id r,
     getLastAccessed LastAccessedSample.value units "m" = Some (id, r) →
     underPage "m" id
     ∧ recordAt LastAccessedSample.value (propertyKey (Some units)) id = Some r)
  ∧ (getLastAccessed LastAccessedSample.value units "m" = None
     ↔ ∀ key r,
         recordAt LastAccessedSample.value (propertyKey (Some units)) key = Some r →
         ¬ underPage "m" key).
Proof.
  apply (getLastAccessed_answers_under_the_page LastAccessedSample.value units "m");
    [discriminate|reflexivity].
Defined.

(** ** One write *)


(** ** A signed-in session *)

Lemma writesSent_app sent sent' :
  writesSent sent → writesSent sent' → writesSent (sent ++ sent').
Proof.
  intros Hsent Hsent'. induction Hsent as [|snapshot learningType id r rest Hr _ IH];
    [done|].
  simpl. by constructor.
Qed.

#[export] Instance staysSignedIn_preorder : PreOrder staysSignedIn.
Proof.
  split.
  - intros s Hs. split; [done|]. exists []. split; [by rewrite app_nil_r|constructor].
  - intros s1 s2 s3 H12 H23 H1.
    destruct (H12 H1) as (H2 & sent & Hsent & Hpairs).
    destruct (H23 H2) as (H3 & sent' & Hsent' & Hpairs').
    split; [done|]. exists (sent ++ sent').
    split; [by rewrite Hsent', Hsent, app_assoc|by apply writesSent_app].
Qed.

Lemma staysSignedIn_tick s : staysSignedIn s (tick s).
Proof.
  intros Hs. split; [done|]. exists []. split; [by rewrite app_nil_r|constructor].
Qed.

Lemma staysSignedIn_update learningType id fieldValues s :
  staysSignedIn s (updateField learningType id fieldValues s).
Proof.
  intros Hs. destruct (updateField_flags learningType id fieldValues s) as (-> & _ & _).
  split; [done|]. eexists. split; [apply updateField_effects|].
  rewrite Hs. constructor; [|constructor].
  rewrite recordAt_mergeLocal, bool_decide_eq_true_2 by done.
  by rewrite dataChange_assign.
Qed.

(** X28: while the service is signed in, every sequence of [startPage]
    and [completePage] calls sends what it writes: each snapshot written
    to local storage is followed by the request that carries the record
    just written, as the snapshot holds it, and nothing is published
    before the requests settle. *)
Theorem signed_in_session_sends_every_write (dataTree : DataTree) (clock : nat → string)
    (fuel : nat) (ops : list Operation) (s : Service) :
  isAuthenticated s = true →
  isAuthenticated (performAll dataTree clock fuel ops s) = true
  ∧ ∃ sent,
      effects (performAll dataTree clock fuel ops s) = effects s ++ sent
      ∧ writesSent sent.
Proof.
  revert s. change (∀ s, staysSignedIn s (performAll dataTree clock fuel ops s)).
  apply (performAll_preserves staysSignedIn).
  - intros pageId. apply (startPage_preserves staysSignedIn (fun _ _ => True));
      [apply staysSignedIn_tick|intros; apply staysSignedIn_update|done|done].
  - intros pageId. apply (completePage_preserves staysSignedIn (fun _ _ => True));
      [apply staysSignedIn_tick|intros; apply staysSignedIn_update|done|done|done|].
    apply (awardAchievements_preserves staysSignedIn (fun _ _ => True));
      [apply staysSignedIn_tick|intros; apply staysSignedIn_update|done].
Qed.

Lemma signed_in_session_sends_every_write_witness :
  isAuthenticated
    (performAll Sample.dataTree Sample.clock 4 [StartPage "m/u2"; CompletePage "m/u2"]
       HalfDone.service) = true
  ∧ ∃ sent,
      effects
        (performAll Sample.dataTree Sample.clock 4 [StartPage "m/u2"; CompletePage "m/u2"]
           HalfDone.service)
      = effects HalfDone.service ++ sent
      ∧ writesSent sent.
Proof.
  apply (signed_in_session_sends_every_write Sample.dataTree Sample.clock 4
           [StartPage "m/u2"; CompletePage "m/u2"] HalfDone.service).
  reflexivity.
Defined.

(** ** Pages that are not completed *)

(** X29: [completePage] does nothing at all on one of the two containers
    [modules] and [tracks], and on a page outside the module tree, be it a
    track or an unknown page, whose identifier is no member of
    [Object.prototype]: the service is as before, the clock is not read,
    and the call returns. *)
Theorem completePage_ignores_other_pages (dataTree : DataTree) (clock : nat → string)
    (fuel : nat) (pageId : string) (s : Service) :
  pageId = "modules" ∨ pageId = "tracks"
  ∨ (tree_modules dataTree !! pageId = None ∧ JS.inherited pageId = false) →
  completePage dataTree clock fuel pageId s = (s, Ok tt).
Proof.
  intros Hwhich. unfold completePage, bindA, liftO.
  assert (getLearningType dataTree fuel pageId = Ok None
          ∨ getLearningType dataTree fuel pageId = Ok (Some tracks)) as [-> | ->]; [|done..].
  unfold getLearningType.
  destruct (bool_decide (pageId = "modules") || bool_decide (pageId = "tracks"))
    eqn:Hcontainer; [by left|].
  apply orb_false_iff in Hcontainer as [Hm%bool_decide_eq_false Ht%bool_decide_eq_false].
  destruct Hwhich as [?|[?|[Hunknown _]]]; [done..|].
  rewrite (proj2 (getModuleRoot_None (tree_modules dataTree) fuel pageId) Hunknown).
  cbn [bindO JS.truthy]. rewrite (bool_decide_eq_false_2 (Some pageId = None)) by done.
  case_bool_decide; by auto.
Qed.

Lemma completePage_ignores_other_pages_witness :
  completePage Sample.dataTree Sample.clock 4 "t" HalfDone.service
  = (HalfDone.service, Ok tt).
Proof.
  apply (completePage_ignores_other_pages Sample.dataTree Sample.clock 4 "t"
           HalfDone.service).
  right. right. split; reflexivity.
Defined.

(** * Properties of the navigation bar *)

Module NavFacts.

Import Nav.

Lemma removeActive_lookup links j :
  removeActive links !! j
  = (fun link => {| href := href link; is_active := false |}) <$> links !! j.
Proof. unfold removeActive. apply list_lookup_fmap. Qed.

Lemma removeActive_idemp links : removeActive (removeActive links) = removeActive links.
Proof.
  unfold removeActive. rewrite map_map. by apply map_ext.
Qed.

Lemma removeActive_insert links i link link' :
  links !! i = Some link → href link' = href link →
  removeActive (<[i := link']> links) = removeActive links.
Proof.
  intros Hi Hhref. unfold removeActive.
  change (map ?f ?l) with (f <$> l). rewrite list_fmap_insert. simpl.
  apply list_insert_id. rewrite list_lookup_fmap, Hi. simpl. by rewrite Hhref.
Qed.

Lemma removeActive_onlyActive links i :
  removeActive (onlyActive i links) = removeActive links.
Proof.
  unfold onlyActive, addActive.
  destruct (removeActive links !! i) as [link|] eqn:Hi;
    [|apply removeActive_idemp].
  rewrite (removeActive_insert _ _ link) by done. apply removeActive_idemp.
Qed.

Lemma onlyActive_href links i j :
  href <$> onlyActive i links !! j = href <$> links !! j.
Proof.
  unfold onlyActive, addActive.
  destruct (removeActive links !! i) as [link|] eqn:Hi.
  - destruct (decide (i = j)) as [->|Hother].
    + rewrite list_lookup_insert_eq by (by eapply lookup_lt_Some).
      rewrite removeActive_lookup in Hi. by destruct (links !! j); simplify_eq/=.
    + rewrite list_lookup_insert_ne by done. rewrite removeActive_lookup.
      by destruct (links !! j).
  - rewrite removeActive_lookup. by destruct (links !! j).
Qed.

Lemma onlyActive_spec links i link currentUrl :
  links !! i = Some link → href link = Some currentUrl →
  onlyActive i links
  = <[i := {| href := Some currentUrl; is_active := true |}]> (removeActive links).
Proof.
  intros Hi Hhref. unfold onlyActive, addActive.
  rewrite removeActive_lookup, Hi. simpl. by rewrite Hhref.
Qed.

(** The state of the pass before it visits the link at [k]. *)
Lemma markCurrent_prefix currentUrl links k :
  k ≤ length links →
  let visited := fold_left (visit currentUrl) (seq 0 k) links in
  (visited = links
   ∧ ∀ j link, j < k → links !! j = Some link → href link ≠ Some currentUrl)
  ∨ ∃ i link,
      i < k ∧ links !! i = Some link ∧ href link = Some currentUrl
      ∧ (∀ j link', i < j < k → links !! j = Some link' → href link' ≠ Some currentUrl)
      ∧ visited = onlyActive i links.
Proof.
  induction k as [|k IH]; intros Hk.
  { left. split; [done|]. intros; lia. }
  cbv zeta. rewrite seq_S, fold_left_app. cbn [fold_left Nat.add].
  destruct (lookup_lt_is_Some_2 links k) as [link Hlink]; [lia|].
  set (visited := fold_left (visit currentUrl) (seq 0 k) links) in *.
  assert (href <$> visited !! k = Some (href link)
          ∧ removeActive visited = removeActive links) as [Hhref Hremoved].
  { destruct IH as [[-> _]|(i & link' & _ & _ & _ & _ & ->)]; [lia|..].
    - by rewrite Hlink.
    - by rewrite onlyActive_href, Hlink, removeActive_onlyActive. }
  unfold visit. destruct (visited !! k) as [seen|] eqn:Hseen; [|done].
  injection Hhref as Hhref. rewrite Hhref.
  case_bool_decide as Hcurrent.
  - right. exists k, link. split; [lia|]. split; [done|]. split; [done|].
    split; [intros; lia|]. unfold onlyActive. by rewrite Hremoved.
  - destruct IH as [[Hsame Hnone]|(i & link' & Hi & Hlink' & Hcurrent' & Hlast & Hsame)];
      [lia|..].
    + left. split; [done|]. intros j link' Hj Hlink'.
      destruct (decide (j = k)) as [->|]; [by simplify_eq|].
      apply (Hnone j); [lia|done].
    + right. exists i, link'. split; [lia|]. split; [done|]. split; [done|].
      split; [|done]. intros j link'' Hj Hlink''.
      destruct (decide (j = k)) as [->|]; [by simplify_eq|].
      apply (Hlast j); [lia|done].
Qed.

End NavFacts.

(** X30: the pass over the navigation links leaves exactly one link
    marked when some link points to the current page: the last such link
    in document order, every other link losing the mark it may have had;
    and it leaves the marks as they are when no link points to the current
    page. *)
Theorem markCurrent_marks_the_last_match (currentUrl : string)
    (links : list Nav.NavLink) :
  (∀ i link,
     links !! i = Some link → Nav.href link = Some currentUrl →
     (∀ j link', i < j → links !! j = Some link' → Nav.href link' ≠ Some currentUrl) →
     Nav.markCurrent currentUrl links
     = <[i := {| Nav.href := Some currentUrl; Nav.is_active := true |}]>
         (Nav.removeActive links))
  ∧ ((∀ link, link ∈ links → Nav.href link ≠ Some currentUrl) →
     Nav.markCurrent currentUrl links = links).
Proof.
  unfold Nav.markCurrent.
  destruct (NavFacts.markCurrent_prefix currentUrl links (length links))
    as [[Hsame Hnone]|(i0 & link0 & Hi0 & Hlink0 & Hcurrent0 & Hlast0 & Hsame)]; [lia|..].
  - split; [|done]. intros i link Hlink Hcurrent _.
    destruct (Hnone i link); [by eapply lookup_lt_Some|done..].
  - split.
    + intros i link Hlink Hcurrent Hlast.
      assert (i = i0) as ->.
      { destruct (Nat.lt_trichotomy i i0) as [Hlt|[->|Hgt]]; [|done|].
        - by destruct (Hlast i0 link0).
        - destruct (Hlast0 i link); [|done..]. split; [done|].
          by eapply lookup_lt_Some. }
      rewrite Hsame. by eapply NavFacts.onlyActive_spec.
    + intros Hnone. destruct (Hnone link0); [|done].
      by eapply list_elem_of_lookup_2.
Qed.

Lemma markCurrent_marks_the_last_match_witness :
  Nav.markCurrent "/docs/install" NavSample.links
  = <[3%nat := {| Nav.href := Some "/docs/install"; Nav.is_active := true |}]>
      (Nav.removeActive NavSample.links).
Proof.
  destruct (markCurrent_marks_the_last_match "/docs/install" NavSample.links) as [H _].
  apply (H 3%nat {| Nav.href := Some "/docs/install"; Nav.is_active := false |}).
  - reflexivity.
  - reflexivity.
  - intros j link' Hj Hlink'. apply lookup_lt_Some in Hlink'. simpl in Hlink'. lia.
Defined.
